(** * Kernel-generation planner of tile/lang/generate.cc

    A shallow embedding of the scheduling, fusion and flattening planner
    ([NeedsZero], [SimplifyFlat], [OpCanBeUnified], [ConnectedComponents],
    [DoUnification], [Compile], [GenerateProgram]) together with the
    properties of it that the specification states.

    Conventions.
    - [int64_t] and [uint64_t]/[size_t] values are integers in [Z]; every
      place where the source converts to or computes in an unsigned 64-bit
      type is written out with [u64].
    - [std::vector] is [list]; [v[i]] is [nth i v d].  The source has no
      defined behaviour out of range; the default [d] is only reached on
      inputs that break the length invariants ([wf_flat]).
    - [std::map]/[std::unordered_map] with string keys are association
      lists; [std::set<size_t>] and [std::set<std::string>] are strictly
      ascending lists, since the source iterates over them in order.
    - a C++ exception is the [Err] outcome of the result type [M]. *)

From Stdlib Require Import ZArith Arith Bool String Ascii DecimalString Lia Permutation Sorted List.
Import ListNotations.

#[local] Open Scope string_scope.
#[local] Open Scope Z_scope.
#[local] Open Scope list_scope.

(* ================================================================= *)
(** ** Machine integers *)

Definition u64 (z : Z) : Z := z mod 2 ^ 64.

Definition in_i64 (z : Z) : Prop := - 2 ^ 63 <= z < 2 ^ 63.
Definition in_u64 (z : Z) : Prop := 0 <= z < 2 ^ 64.

(* ================================================================= *)
(** ** Data model (tile/lang/shape.h, ops.h, flat.h as used by generate.cc) *)

(** [vector::erase(begin() + i)]. *)
Definition erase {A : Type} (i : nat) (l : list A) : list A :=
  firstn i l ++ skipn (S i) l.

(** [v[i] = x] on a vector. *)
Fixpoint set_nth {A : Type} (i : nat) (x : A) (l : list A) : list A :=
  match l, i with
  | [], _ => []
  | _ :: t, O => x :: t
  | h :: t, S i' => h :: set_nth i' x t
  end.

Definition DataType := nat.

Record TensorDimension := mkDim { dim_size : Z; dim_stride : Z }.

Record TensorShape := mkShape { shape_type : DataType; dims : list TensorDimension }.

(** [TensorShape::elem_size]: the product of the dimension sizes. *)
Definition elem_size (ts : TensorShape) : Z :=
  fold_left (fun acc d => u64 (acc * dim_size d)) (dims ts) 1.

Record FlatTensorAccess := mkAccess {
  acc_type : DataType;
  acc_vector : Z;
  offset : Z;
  global_index_limit : Z;
  strides : list Z
}.

Record FlatConstraint := mkConstraint { lhs : list Z; rhs : Z }.

Record Function := mkFunction { fn : string; params : list string }.

Inductive OpTag := CONTRACTION | FUNCTION | CONSTANT.

Definition OpTag_eqb (a b : OpTag) : bool :=
  match a, b with
  | CONTRACTION, CONTRACTION | FUNCTION, FUNCTION | CONSTANT, CONSTANT => true
  | _, _ => false
  end.

(** A contraction as the planner sees it: the tensor ids of its specs
    (output first) and the optional [use_default] tensor. *)
Record Contraction := mkContraction { specs : list string; use_default : string }.

Record Op := mkOp {
  tag : OpTag;
  output : string;
  inputs : list string;
  c : Contraction;
  f : Function
}.

Record FlatContraction := mkFlat {
  names : list string;
  ranges : list Z;
  access : list FlatTensorAccess;
  constraints : list FlatConstraint;
  agg_vec : Z;
  generate_contraction : bool;
  post_ops : list Op;
  post_op_inputs : list (string * FlatTensorAccess);
  kernel_outputs : list string;
  flat_output : string
}.

Definition default_access : FlatTensorAccess := mkAccess 0%nat 1 0 0 [].

(** [flat.access[0]], the output access. *)
Definition access0 (flat : FlatContraction) : FlatTensorAccess :=
  nth 0%nat (access flat) default_access.

Definition stride0 (flat : FlatContraction) (i : nat) : Z :=
  nth i (strides (access0 flat)) 0.

Definition range_at (flat : FlatContraction) (i : nat) : Z :=
  nth i (ranges flat) 0.

(** The invariants of a well-formed flat contraction (the length
    invariants, positive ranges) and the ranges of the integer types. *)
Record wf_flat (flat : FlatContraction) : Prop := mk_wf_flat {
  wf_access : access flat <> [];
  wf_ranges_len : length (ranges flat) = length (names flat);
  wf_strides_len :
    Forall (fun a => length (strides a) = length (names flat)) (access flat);
  wf_post_strides_len :
    Forall (fun kv => length (strides (snd kv)) = length (names flat))
           (post_op_inputs flat);
  wf_lhs_len :
    Forall (fun fc => length (lhs fc) = length (names flat)) (constraints flat);
  wf_strides_i64 : Forall (fun a => Forall in_i64 (strides a)) (access flat);
  wf_ranges_pos : Forall (fun r => 0 < r < 2 ^ 64) (ranges flat);
  wf_limit_u64 : Forall (fun a => in_u64 (global_index_limit a)) (access flat)
}.

(* ================================================================= *)
(** ** NeedsZero *)

Module Zero.

(** First loop of [NeedsZero]: collect [out_pattern]; [None] is the early
    [return true] on a negative output stride. *)
Fixpoint pattern_loop (flat : FlatContraction) (idxs : list nat)
    (out_pattern : list (Z * Z)) : option (list (Z * Z)) :=
  match idxs with
  | [] => Some out_pattern
  | i :: rest =>
      if stride0 flat i =? 0 then pattern_loop flat rest out_pattern
      else if stride0 flat i <? 0 then None
      else pattern_loop flat rest
             (out_pattern ++ [(u64 (stride0 flat i), range_at flat i)])
  end.

(** The inner loop over the indices of one constraint: [output_only]
    stays true unless some index has a nonzero coefficient and a zero
    output stride. *)
Definition output_only (flat : FlatContraction) (fc : FlatConstraint) : bool :=
  negb (existsb (fun i => negb (nth i (lhs fc) 0 =? 0) && (stride0 flat i =? 0))
                (seq 0 (length (names flat)))).

(** [operator<] of [std::pair<size_t, size_t>]. *)
Definition pair_ltb (a b : Z * Z) : bool :=
  (fst a <? fst b) || (negb (fst b <? fst a) && (snd a <? snd b)).

Fixpoint sort_insert (p : Z * Z) (l : list (Z * Z)) : list (Z * Z) :=
  match l with
  | [] => [p]
  | q :: t => if pair_ltb q p then q :: sort_insert p t else p :: l
  end.

(** [std::sort(out_pattern.begin(), out_pattern.end())]: the pairs are
    totally ordered by [pair_ltb], so the sorted sequence is unique. *)
Definition sort_pattern (l : list (Z * Z)) : list (Z * Z) :=
  fold_right sort_insert [] l.

(** The order [std::sort] establishes: ascending by stride, and by range
    among equal strides. *)
Definition pair_le (a b : Z * Z) : Prop :=
  fst a < fst b \/ (fst a = fst b /\ snd a <= snd b).

(** The last loop: [None] is the early [return true]. *)
Fixpoint walk (curskip : Z) (ps : list (Z * Z)) : option Z :=
  match ps with
  | [] => Some curskip
  | p :: rest =>
      if negb (curskip =? fst p) then None
      else walk (u64 (curskip * snd p)) rest
  end.

Definition NeedsZero (flat : FlatContraction) (ts : TensorShape) : bool :=
  if negb (offset (access0 flat) =? 0) then true
  else
    match pattern_loop flat (seq 0 (length (names flat))) [] with
    | None => true
    | Some out_pattern =>
        if existsb (output_only flat) (constraints flat) then true
        else
          match walk 1 (sort_pattern out_pattern) with
          | None => true
          | Some curskip => negb (curskip =? global_index_limit (access0 flat))
          end
    end.

(** *** The specification's reading of the contiguity walk *)

(** Pairs [(stride, range)] of the indices with a nonzero output stride. *)
Definition nonzero_pairs (flat : FlatContraction) : list (Z * Z) :=
  map (fun i => (stride0 flat i, range_at flat i))
      (filter (fun i => negb (stride0 flat i =? 0)) (seq 0 (length (names flat)))).

(** Value of the 64-bit counter [cur] after [k] steps from [start]. *)
Definition cur_from (start : Z) (k : nat) (ps : list (Z * Z)) : Z :=
  fold_left (fun cur p => u64 (cur * snd p)) (firstn k ps) start.

(** The same product in unbounded arithmetic. *)
Definition plain_cur (k : nat) (ps : list (Z * Z)) : Z :=
  fold_left (fun cur p => cur * snd p) (firstn k ps) 1.

Definition walk_fails (ps : list (Z * Z)) (limit : Z) : Prop :=
  (exists k, (k < length ps)%nat /\ cur_from 1 k ps <> fst (nth k ps (0, 0)))
  \/ cur_from 1 (length ps) ps <> limit.

(** The specification's "output-only" constraint. *)
Definition spec_output_only (flat : FlatContraction) (fc : FlatConstraint) : Prop :=
  forall i, (i < length (names flat))%nat ->
            nth i (lhs fc) 0 <> 0 -> stride0 flat i = 0.

(** What the source tests: every index the constraint mentions is an
    output index. *)
Definition code_output_only (flat : FlatContraction) (fc : FlatConstraint) : Prop :=
  forall i, (i < length (names flat))%nat ->
            nth i (lhs fc) 0 <> 0 -> stride0 flat i <> 0.

End Zero.

(* ================================================================= *)
(** ** SimplifyFlat *)

Module Simplify.

(** The lambda [is_safe] of the source, at indices [i] and [j].  The
    strides of [a] are [int64_t] and are compared with the [size_t]
    values [i_stride] and [j_stride], hence converted to unsigned.  The
    source computes [both_zeros] and returns
    [perfect_match || perfect_match]. *)
Definition is_safe (i j : nat) (i_stride j_stride : Z) (a : FlatTensorAccess) : bool :=
  let perfect_match :=
    (u64 (nth i (strides a) 0) =? i_stride) && (u64 (nth j (strides a) 0) =? j_stride) in
  let both_zeros :=
    (nth i (strides a) 0 =? 0) && (nth j (strides a) 0 =? 0) in
  perfect_match || perfect_match.

(** The two loops that compute [all_good]: the accesses of slot >= 1,
    then the post-op inputs. *)
Definition all_good (flat : FlatContraction) (i j : nat) (i_stride j_stride : Z) : bool :=
  forallb (is_safe i j i_stride j_stride) (skipn 1 (access flat))
  && forallb (fun kvp => is_safe i j i_stride j_stride (snd kvp)) (post_op_inputs flat).

(** [fixup]: drop entry [i] of the strides of an access. *)
Definition fixup (i : nat) (a : FlatTensorAccess) : FlatTensorAccess :=
  mkAccess (acc_type a) (acc_vector a) (offset a) (global_index_limit a)
           (erase i (strides a)).

(** The body executed once a valid pair has been found. *)
Definition combine_indexes (flat : FlatContraction) (i j : nat) : FlatContraction :=
  let names1 :=
    set_nth j (String.append (nth i (names flat) "")
                 (String.append "_" (nth j (names flat) ""))) (names flat) in
  let ranges1 :=
    set_nth j (u64 (nth j (ranges flat) 0 * nth i (ranges flat) 0)) (ranges flat) in
  mkFlat (erase i names1) (erase i ranges1)
         (map (fixup i) (access flat))
         (constraints flat) (agg_vec flat) (generate_contraction flat)
         (post_ops flat)
         (map (fun kvp => (fst kvp, fixup i (snd kvp))) (post_op_inputs flat))
         (kernel_outputs flat) (flat_output flat).

(** Inner loop over [j]. *)
Fixpoint j_loop (flat : FlatContraction) (i : nat) (i_stride : Z) (js : list nat)
    : option FlatContraction :=
  match js with
  | [] => None
  | j :: rest =>
      let j_stride := u64 (stride0 flat j) in
      if j_stride =? 0 then j_loop flat i i_stride rest
      else if negb (i_stride =? u64 (range_at flat j * j_stride))
      then j_loop flat i i_stride rest
      else if negb (all_good flat i j i_stride j_stride)
      then j_loop flat i i_stride rest
      else Some (combine_indexes flat i j)
  end.

(** Outer loop over [i]. *)
Fixpoint i_loop (flat : FlatContraction) (sz : nat) (idxs : list nat)
    : option FlatContraction :=
  match idxs with
  | [] => None
  | i :: rest =>
      let i_stride := u64 (stride0 flat i) in
      if i_stride =? 0 then i_loop flat sz rest
      else
        match j_loop flat i i_stride (seq 0 sz) with
        | Some flat' => Some flat'
        | None => i_loop flat sz rest
        end
  end.

(** [SimplifyFlat(&flat)]: the returned flag and the flat contraction
    after the call. *)
Definition SimplifyFlat (flat : FlatContraction) : bool * FlatContraction :=
  if (0 <? length (constraints flat))%nat then (false, flat)
  else
    let sz := length (ranges flat) in
    match i_loop flat sz (seq 0 sz) with
    | Some flat' => (true, flat')
    | None => (false, flat)
    end.

(** [while (SimplifyFlat(&flat)) {}] of [ContractionWrap].  Every merge
    removes one index, so [length (ranges flat)] rounds suffice; the
    fuel is that bound. *)
Fixpoint simplify_loop (fuel : nat) (flat : FlatContraction) : FlatContraction :=
  match fuel with
  | O => flat
  | S fuel' =>
      match SimplifyFlat flat with
      | (true, flat') => simplify_loop fuel' flat'
      | (false, flat') => flat'
      end
  end.

Definition simplify_all (flat : FlatContraction) : FlatContraction :=
  simplify_loop (S (length (ranges flat))) flat.

(** *** The rule as the specification states it *)

Definition spec_candidate (flat : FlatContraction) (i j : nat) : Prop :=
  u64 (stride0 flat i) = u64 (range_at flat j * u64 (stride0 flat j))
  /\ stride0 flat i <> 0 /\ stride0 flat j <> 0 /\ constraints flat = [].

Definition spec_safe (flat : FlatContraction) (i j : nat) (a : FlatTensorAccess) : Prop :=
  (nth i (strides a) 0 = stride0 flat i /\ nth j (strides a) 0 = stride0 flat j)
  \/ (nth i (strides a) 0 = 0 /\ nth j (strides a) 0 = 0).

(** Every access other than the output: slots >= 1 and the post-op inputs. *)
Definition other_accesses (flat : FlatContraction) : list FlatTensorAccess :=
  skipn 1 (access flat) ++ map snd (post_op_inputs flat).

End Simplify.

(* ================================================================= *)
(** ** Exceptions *)

Inductive Error :=
| runtime_error (msg : string)  (** [throw std::runtime_error(msg)] *)
| out_of_range                  (** [std::map::at] on a missing key *)
| out_of_fuel.                  (** the bound of a model loop was too small *)

Inductive M (A : Type) :=
| Ok (a : A)
| Err (e : Error).

Arguments Ok {A} a.
Arguments Err {A} e.

Definition bind {A B : Type} (m : M A) (k : A -> M B) : M B :=
  match m with
  | Ok a => k a
  | Err e => Err e
  end.

Notation "x <- m ;; k" := (bind m (fun x => k))
  (at level 61, m at next level, right associativity).
Notation "' pat <- m ;; k" := (bind m (fun x => match x with pat => k end))
  (at level 61, pat pattern, m at next level, right associativity).

(* ================================================================= *)
(** ** Containers *)

(** [std::map<std::string, V>::find]. *)
Fixpoint find {V : Type} (k : string) (m : list (string * V)) : option V :=
  match m with
  | [] => None
  | (k', v) :: rest => if String.eqb k k' then Some v else find k rest
  end.

(** [std::map<std::string, V>::at]. *)
Definition at_ {V : Type} (m : list (string * V)) (k : string) : M V :=
  match find k m with
  | Some v => Ok v
  | None => Err out_of_range
  end.

(** [std::map<std::string, V>::count]. *)
Definition count {V : Type} (m : list (string * V)) (k : string) : bool :=
  match find k m with
  | Some _ => true
  | None => false
  end.

(** [emplace] on a map ordered by key: nothing happens when the key is
    present. *)
Fixpoint emplace {V : Type} (k : string) (v : V) (m : list (string * V))
    : list (string * V) :=
  match m with
  | [] => [(k, v)]
  | (k', v') :: rest =>
      if String.eqb k k' then m
      else if String.ltb k k' then (k, v) :: m
      else (k', v') :: emplace k v rest
  end.

(** [m[k] = v] on a map ordered by key. *)
Fixpoint assign {V : Type} (k : string) (v : V) (m : list (string * V))
    : list (string * V) :=
  match m with
  | [] => [(k, v)]
  | (k', v') :: rest =>
      if String.eqb k k' then (k, v) :: rest
      else if String.ltb k k' then (k, v) :: m
      else (k', v') :: assign k v rest
  end.

(** [std::set<size_t>]: a strictly ascending list. *)
Module NatSet.

Definition t := list nat.

Definition mem (x : nat) (s : t) : bool := existsb (Nat.eqb x) s.

Fixpoint insert (x : nat) (s : t) : t :=
  match s with
  | [] => [x]
  | y :: rest =>
      if (x <? y)%nat then x :: s
      else if (x =? y)%nat then s
      else y :: insert x rest
  end.

(** [s.insert(xs.begin(), xs.end())]. *)
Definition insert_all (xs : list nat) (s : t) : t :=
  fold_left (fun acc x => insert x acc) xs s.

Fixpoint remove (x : nat) (s : t) : t :=
  match s with
  | [] => []
  | y :: rest => if (x =? y)%nat then rest else y :: remove x rest
  end.

End NatSet.

(** [std::set<std::string>], ascending, and [std::unordered_set] (whose
    iteration order the planner never observes). *)
Module StrSet.

Definition t := list string.

Definition mem (x : string) (s : t) : bool := existsb (String.eqb x) s.

Fixpoint insert (x : string) (s : t) : t :=
  match s with
  | [] => [x]
  | y :: rest =>
      if String.eqb x y then s
      else if String.ltb x y then x :: s
      else y :: insert x rest
  end.

Definition of_list (xs : list string) : t :=
  fold_left (fun acc x => insert x acc) xs [].

End StrSet.

(* ================================================================= *)
(** ** Bindings and use/def *)

(** The kinds of binding; the planner only ever asks whether a binding
    is a [TENSOR]. *)
Inductive BindingTag := TENSOR | BCONSTANT | BSTRING | BINT | BFLOAT.

Definition is_tensor (b : BindingTag) : bool :=
  match b with TENSOR => true | _ => false end.

Record Binding := mkBinding { btag : BindingTag; shape : TensorShape }.

Definition Bindings := list (string * Binding).
Definition ShapeMap := list (string * TensorShape).

Record Program := mkProgram { ops : list Op }.

Definition default_op : Op :=
  mkOp FUNCTION "" [] (mkContraction [] "") (mkFunction "" []).

(** [prog.ops[i]]. *)
Definition op_at (prog : Program) (i : nat) : Op := nth i (ops prog) default_op.

(** The two indexes of [UseDef]: [op_defs : name -> opidx] and
    [uses : name -> set<opidx>]. *)
Record UseDef := mkUseDef {
  op_defs : list (string * nat);
  uses : list (string * NatSet.t)
}.

(** [uses[v]] gains [i]. *)
Fixpoint add_use (v : string) (i : nat) (m : list (string * NatSet.t))
    : list (string * NatSet.t) :=
  match m with
  | [] => [(v, [i])]
  | (k, l) :: rest =>
      if String.eqb v k then (k, NatSet.insert i l) :: rest
      else if String.ltb v k then (v, [i]) :: m
      else (k, l) :: add_use v i rest
  end.

(** Modelled from the spec: the constructor [UseDef(prog)] of
    tile/lang/usedef.h, which is not among the sources.  "Built by a single
    pass over [prog.ops]: for each op, record [op_defs[op.output] = i], and
    for each input [v] add [i] to [uses[v]]." *)
Fixpoint usedef_pass (l : list Op) (i : nat) (ud : UseDef) : UseDef :=
  match l with
  | [] => ud
  | op :: rest =>
      let defs := assign (output op) i (op_defs ud) in
      let us := fold_left (fun m v => add_use v i m) (inputs op) (uses ud) in
      usedef_pass rest (S i) (mkUseDef defs us)
  end.

Definition mk_usedef (prog : Program) : UseDef :=
  usedef_pass (ops prog) 0%nat (mkUseDef [] []).

(* ================================================================= *)
(** ** The unification planner *)

Module Planner.

Section WithSpecial.

(** [Function::is_special] is declared in tile/lang/ops.h, outside the
    sources at hand. *)
Variable is_special : Function -> bool.

Definition DifferentSize (a b : Binding) : bool :=
  if negb (is_tensor (btag a)) || negb (is_tensor (btag b)) then true
  else negb (elem_size (shape a) =? elem_size (shape b)).

(** The loop of [SameSizeOrBroadcastCompatible]: input dimension [i]
    against output dimension [off]. *)
Fixpoint broadcast_loop (in_dims out_dims : list TensorDimension) : bool :=
  match in_dims, out_dims with
  | [], _ => true
  | d :: in_rest, o :: out_rest =>
      if negb (dim_size d =? 1) && negb (dim_size d =? dim_size o) then false
      else broadcast_loop in_rest out_rest
  | _ :: _, [] => false
  end.

Definition SameSizeOrBroadcastCompatible (input output : Binding) : bool :=
  if elem_size (shape input) =? elem_size (shape output) then true
  else if (length (dims (shape output)) <? length (dims (shape input)))%nat then false
  else
    let off := (length (dims (shape output)) - length (dims (shape input)))%nat in
    broadcast_loop (dims (shape input)) (skipn off (dims (shape output))).

(** The loop over [test_op.inputs] in [OpCanBeUnified]. *)
Fixpoint inputs_compatible (vars : Bindings) (root_out : Binding) (ins : list string)
    : M bool :=
  match ins with
  | [] => Ok true
  | input :: rest =>
      b <- at_ vars input ;;
      if negb (is_tensor (btag b)) then inputs_compatible vars root_out rest
      else if negb (SameSizeOrBroadcastCompatible b root_out) then Ok false
      else inputs_compatible vars root_out rest
  end.

Definition OpCanBeUnified (prog : Program) (vars : Bindings)
    (root_opidx test_opidx : nat) : M bool :=
  let root_op := op_at prog root_opidx in
  let test_op := op_at prog test_opidx in
  if negb (OpTag_eqb (tag test_op) FUNCTION) || is_special (f test_op) then Ok false
  else
    root_b <- at_ vars (output root_op) ;;
    test_b <- at_ vars (output test_op) ;;
    if DifferentSize root_b test_b then Ok false
    else inputs_compatible vars root_b (inputs test_op).

Section Components.

Variable prog : Program.
Variable vars : Bindings.
Variable root_opidx : nat.
Variable previously_computed : NatSet.t.
Variable ud : UseDef.

(** The [for] loop over the inputs of candidate [c]: [None] is the jump
    to [discard_candidate_set]. *)
Fixpoint input_loop (unified : NatSet.t) (ins : list string)
    (candidates : NatSet.t) (candidate_frontier : list nat)
    : M (option (NatSet.t * list nat)) :=
  match ins with
  | [] => Ok (Some (candidates, candidate_frontier))
  | input :: rest =>
      match find input (op_defs ud) with
      | None => input_loop unified rest candidates candidate_frontier
      | Some i =>
          if (i <? root_opidx)%nat || NatSet.mem i unified
             || NatSet.mem i candidates || NatSet.mem i previously_computed
          then input_loop unified rest candidates candidate_frontier
          else if OpTag_eqb (tag (op_at prog i)) CONSTANT
          then input_loop unified rest candidates candidate_frontier
          else
            ok <- OpCanBeUnified prog vars root_opidx i ;;
            if negb ok then Ok None
            else input_loop unified rest (NatSet.insert i candidates)
                            (i :: candidate_frontier)
      end
  end.

(** [while (!candidate_frontier.empty())]. *)
Fixpoint candidate_loop (fuel : nat) (unified : NatSet.t)
    (candidates : NatSet.t) (candidate_frontier : list nat)
    : M (option NatSet.t) :=
  match candidate_frontier with
  | [] => Ok (Some candidates)
  | c :: frontier' =>
      match fuel with
      | O => Err out_of_fuel
      | S fuel' =>
          r <- input_loop unified (inputs (op_at prog c)) candidates frontier' ;;
          match r with
          | None => Ok None
          | Some (candidates', frontier'') =>
              candidate_loop fuel' unified candidates' frontier''
          end
      end
  end.

(** The [for] loop over the consumers of the frontier node's output. *)
Fixpoint uses_loop (fuel : nat) (consumers : list nat)
    (unified : NatSet.t) (unified_frontier : list nat)
    : M (NatSet.t * list nat) :=
  match consumers with
  | [] => Ok (unified, unified_frontier)
  | c_start :: rest =>
      if NatSet.mem c_start unified then uses_loop fuel rest unified unified_frontier
      else
        ok <- OpCanBeUnified prog vars root_opidx c_start ;;
        if negb ok || NatSet.mem c_start previously_computed
        then uses_loop fuel rest unified unified_frontier
        else
          r <- candidate_loop fuel unified [c_start] [c_start] ;;
          match r with
          | None => uses_loop fuel rest unified unified_frontier
          | Some candidates =>
              uses_loop fuel rest
                (NatSet.insert_all candidates unified)
                (fold_left (fun st c => c :: st) candidates unified_frontier)
          end
  end.

(** [while (!unified_frontier.empty())]. *)
Fixpoint frontier_loop (fuel : nat) (unified : NatSet.t) (unified_frontier : list nat)
    : M NatSet.t :=
  match unified_frontier with
  | [] => Ok unified
  | u :: frontier' =>
      match fuel with
      | O => Err out_of_fuel
      | S fuel' =>
          consumers <- at_ (uses ud) (output (op_at prog u)) ;;
          '(unified', frontier'') <- uses_loop fuel consumers unified frontier' ;;
          frontier_loop fuel' unified' frontier''
      end
  end.

(** Every op index the use/def index mentions; each op enters a frontier
    at most once, which bounds both [while] loops. *)
Definition ud_indices : list nat :=
  map snd (op_defs ud) ++ concat (map snd (uses ud)).

Definition components_fuel : nat := S (S (length ud_indices)).

Definition ConnectedComponents : M NatSet.t :=
  frontier_loop components_fuel [root_opidx] [root_opidx].

(** *** Invariants of the loops *)

(** Every input of the list that an op at or after the root defines is
    accounted for: its op is in [S], was computed earlier, or cannot be
    unified. *)
Definition inputs_ok (S : nat -> Prop) (ins : list string) : Prop :=
  forall input i, In input ins -> find input (op_defs ud) = Some i ->
    (root_opidx <= i)%nat ->
    S i \/ In i previously_computed \/ OpCanBeUnified prog vars root_opidx i = Ok false.

(** The invariant of the candidate loop: a candidate is still on the
    frontier, or its inputs are accounted for. *)
Definition candidates_inv (unified candidates : NatSet.t) (frontier : list nat) : Prop :=
  forall x, In x candidates ->
    In x frontier
    \/ inputs_ok (fun i => In i unified \/ In i candidates) (inputs (op_at prog x)).

(** The invariant of the outer loops: the inputs of every unified op
    other than the root are accounted for. *)
Definition unified_closed (unified : NatSet.t) : Prop :=
  forall u, In u unified -> u <> root_opidx ->
    inputs_ok (fun i => In i unified) (inputs (op_at prog u)).

(** The indices of the use/def index that are in neither set. *)
Definition room (unified candidates : NatSet.t) : nat :=
  length (filter (fun x => negb (NatSet.mem x unified) && negb (NatSet.mem x candidates))
                 ud_indices).

(** *** Closure of the result *)

(** Input [input] of an op is a tensor defined by op [i], at or after the
    root. *)
Definition tensor_input_from (input : string) (i : nat) : Prop :=
  (exists b, find input vars = Some b /\ btag b = TENSOR)
  /\ find input (op_defs ud) = Some i
  /\ (root_opidx <= i)%nat.

(** The closure property as the specification states it. *)
Definition spec_closure (U : NatSet.t) : Prop :=
  forall u, In u U -> u <> root_opidx ->
  forall input i, In input (inputs (op_at prog u)) -> tensor_input_from input i ->
    In i U \/ OpCanBeUnified prog vars root_opidx i = Ok false.

(** The closure property of the source: ops computed by earlier kernels
    are left out as well. *)
Definition closure (U : NatSet.t) : Prop :=
  forall u, In u U -> u <> root_opidx ->
  forall input i, In input (inputs (op_at prog u)) -> tensor_input_from input i ->
    In i U \/ In i previously_computed
    \/ OpCanBeUnified prog vars root_opidx i = Ok false.

End Components.

End WithSpecial.

End Planner.

(* ================================================================= *)
(** ** Variable rewrites *)

(** Modelled from the spec: class [VarRewrites] of tile/lang/generate.h,
    which is not among the sources.  "Treat it as a key->key mapping where
    [lookup(k)] walks to a fixed point"; "the planner only inserts, never
    deletes"; an elision "records [var_rewrites[op.output] = input]". *)
Module VarRewrites.

Definition t := list (string * string).

Definition Insert (from to : string) (m : t) : t := assign from to m.

(** The walk of [Lookup].  On a map with a cycle the walk of the
    specification has no fixed point to reach; [fuel] stops it after as
    many steps as the map has entries, which is enough on every map
    without a cycle. *)
Fixpoint walk (fuel : nat) (m : t) (k : string) : string :=
  match fuel with
  | O => k
  | S fuel' =>
      match find k m with
      | None => k
      | Some k' => if String.eqb k' k then k else walk fuel' m k'
      end
  end.

Definition Lookup (m : t) (k : string) : string := walk (length m) m k.

End VarRewrites.

(* ================================================================= *)
(** ** The post-op integrator *)

Module Unify.

Section WithCollaborators.

Variable is_special : Function -> bool.

(** [byte_size] of a shape is its element count times the width of its
    element type (tile/lang/shape.h). *)
Variable byte_width : DataType -> Z.

(** The operations the planner needs from [Polynomial]: the zero
    polynomial, [+=], multiplication by a stride, and
    [static_cast<int64_t>(Floor(p[idx]))]. *)
Variable Polynomial : Type.
Variable poly_zero : Polynomial.
Variable poly_add : Polynomial -> Polynomial -> Polynomial.
Variable poly_scale : Polynomial -> Z -> Polynomial.
Variable poly_floor_coeff : Polynomial -> string -> Z.

Definition byte_size (ts : TensorShape) : Z :=
  u64 (elem_size ts * byte_width (shape_type ts)).

Definition is_reshape_or_ident (op : Op) : bool :=
  String.eqb (fn (f op)) "reshape" || String.eqb (fn (f op)) "ident".

(** The state the first loop of [DoUnification] updates. *)
Record UnifyState := mkUnify {
  var_rewrites : VarRewrites.t;
  local_var_rewrites : list (string * string);
  unified_post_ops : list Op;
  war_safe_reads : StrSet.t;
  post_contraction_inputs : StrSet.t
}.

(** [copied_op] with its inputs rewritten. *)
Definition with_inputs (op : Op) (ins : list string) : Op :=
  mkOp (tag op) (output op) ins (c op) (f op).

(** The state after an elision and after a retention. *)
Definition elided_state (st : UnifyState) (out input : string) : UnifyState :=
  mkUnify (VarRewrites.Insert out input (var_rewrites st))
          (emplace out input (local_var_rewrites st))
          (unified_post_ops st) (war_safe_reads st) (post_contraction_inputs st).

Definition retained_state (st : UnifyState) (op : Op)
    (r : list string * StrSet.t * StrSet.t) : UnifyState :=
  mkUnify (var_rewrites st) (local_var_rewrites st)
          (unified_post_ops st ++ [with_inputs op (fst (fst r))])
          (snd (fst r)) (snd r).

Section Integrator.

Variable prog : Program.
Variable ud : UseDef.
Variable vars : Bindings.
Variable inputs_map : ShapeMap.
Variable outputs_map : ShapeMap.
Variable unified_opidxs : NatSet.t.

(** The checks on a reshape or ident op; the result is
    [var_rewrites->Lookup(unified_op.inputs[0])]. *)
Definition reshape_checks (vr : VarRewrites.t) (unified_op : Op) : M string :=
  match inputs unified_op with
  | [] => Err (runtime_error "reshape must have at least one parameter")
  | in0 :: _ =>
      in_binding <- at_ vars in0 ;;
      out_binding <- at_ vars (output unified_op) ;;
      if negb (is_tensor (btag in_binding))
      then Err (runtime_error "reshape only works on tensors")
      else if negb (byte_size (shape in_binding) =? byte_size (shape out_binding))
      then Err (runtime_error "Invalid reshape")
      else if negb (elem_size (shape in_binding) =? elem_size (shape out_binding))
      then Err (runtime_error "Invalid reshape")
      else Ok (VarRewrites.Lookup vr in0)
  end.

(** The condition under which the op is elided. *)
Definition elide_test (unified_op : Op) (input : string) : bool :=
  negb (count outputs_map (output unified_op))
  || (negb (count outputs_map input) && negb (count inputs_map input)).

(** The loop over [copied_op.inputs]. *)
Fixpoint rewrite_inputs (local : list (string * string)) (ins : list string)
    (war pci : StrSet.t) : M (list string * StrSet.t * StrSet.t) :=
  match ins with
  | [] => Ok ([], war, pci)
  | input :: rest =>
      let input' := match find input local with
                    | Some r => r
                    | None => input
                    end in
      b <- at_ vars input' ;;
      let outside := match find input' (op_defs ud) with
                     | None => true
                     | Some d => negb (NatSet.mem d unified_opidxs)
                     end in
      let war' := if is_tensor (btag b) && outside then StrSet.insert input' war
                  else war in
      let pci' := if is_tensor (btag b) && outside then StrSet.insert input' pci
                  else pci in
      '(rest', war'', pci'') <- rewrite_inputs local rest war' pci' ;;
      Ok (input' :: rest', war'', pci'')
  end.

(** One iteration of the first loop of [DoUnification]. *)
Definition unify_op (st : UnifyState) (unified_opidx : nat) : M UnifyState :=
  let unified_op := op_at prog unified_opidx in
  if negb (OpTag_eqb (tag unified_op) FUNCTION) then Ok st
  else
    elided <-
      (if is_reshape_or_ident unified_op then
         input <- reshape_checks (var_rewrites st) unified_op ;;
         if elide_test unified_op input then Ok (Some input) else Ok None
       else Ok None) ;;
    match elided with
    | Some input =>
        Ok (mkUnify (VarRewrites.Insert (output unified_op) input (var_rewrites st))
                    (emplace (output unified_op) input (local_var_rewrites st))
                    (unified_post_ops st) (war_safe_reads st)
                    (post_contraction_inputs st))
    | None =>
        '(ins, war, pci) <-
          rewrite_inputs (local_var_rewrites st) (inputs unified_op)
                         (war_safe_reads st) (post_contraction_inputs st) ;;
        Ok (mkUnify (var_rewrites st) (local_var_rewrites st)
                    (unified_post_ops st ++ [with_inputs unified_op ins]) war pci)
    end.

(** The first loop, over a list of op indices in ascending order. *)
Fixpoint unify_loop (st : UnifyState) (idxs : list nat) : M UnifyState :=
  match idxs with
  | [] => Ok st
  | i :: rest => st' <- unify_op st i ;; unify_loop st' rest
  end.

(** The second loop: which outputs the kernel has to write. *)
Definition needed_as_output (unified_op : Op) : bool :=
  if count outputs_map (output unified_op) then true
  else
    match find (output unified_op) (uses ud) with
    | None => false
    | Some us => existsb (fun use_opidx => negb (NatSet.mem use_opidx unified_opidxs)) us
    end.

Definition outputs_loop (vr : VarRewrites.t) (kernel_inputs : StrSet.t) : StrSet.t :=
  fold_left
    (fun kernel_outputs unified_opidx =>
       let unified_op := op_at prog unified_opidx in
       if StrSet.mem (VarRewrites.Lookup vr (output unified_op)) kernel_inputs
       then kernel_outputs
       else if needed_as_output unified_op
       then StrSet.insert (VarRewrites.Lookup vr (output unified_op)) kernel_outputs
       else kernel_outputs)
    unified_opidxs [].

(** The polynomial of one post-contraction input: the dimensions of
    [shape] right-aligned against [out_poly]. *)
Fixpoint input_poly (out_poly : list Polynomial) (out_dims : list TensorDimension)
    (sdims : list TensorDimension) (off : nat) (p : Polynomial) : Polynomial :=
  match sdims with
  | [] => p
  | d :: rest =>
      let o := nth off out_dims (mkDim 0 0) in
      let p' := if negb (dim_size d =? 1) || (dim_size o =? 1)
                then poly_add p (poly_scale (nth off out_poly poly_zero) (dim_stride d))
                else p in
      input_poly out_poly out_dims rest (S off) p'
  end.

(** One iteration of the last loop: the access of a post-contraction input. *)
Definition post_input_access (flat_names : list string) (out_shape : TensorShape)
    (out_poly : list Polynomial) (name : string) : M FlatTensorAccess :=
  b <- at_ vars name ;;
  let shape0 := shape b in
  let shape1 := if elem_size shape0 =? elem_size out_shape then out_shape else shape0 in
  let off := (length out_poly - length (dims shape1))%nat in
  let p := input_poly out_poly (dims out_shape) (dims shape1) off poly_zero in
  Ok (mkAccess 0%nat 1 0 (elem_size shape1)
               (map (fun idx => poly_floor_coeff p idx) flat_names)).

Fixpoint post_inputs_loop (flat_names : list string) (out_shape : TensorShape)
    (out_poly : list Polynomial) (pci : list string)
    (poi : list (string * FlatTensorAccess)) : M (list (string * FlatTensorAccess)) :=
  match pci with
  | [] => Ok poi
  | name :: rest =>
      a <- post_input_access flat_names out_shape out_poly name ;;
      post_inputs_loop flat_names out_shape out_poly rest (emplace name a poi)
  end.

(** *** Chains of reshapes *)

(** [op] is [dst = reshape(src, ...)]. *)
Definition reshape_of (op : Op) (src dst : string) : Prop :=
  tag op = FUNCTION /\ fn (f op) = "reshape"
  /\ hd_error (inputs op) = Some src /\ output op = dst.

(** [v] is neither a program output nor a program input. *)
Definition internal (v : string) : Prop :=
  count outputs_map v = false /\ count inputs_map v = false.

(** Every op that reads [v] is fused. *)
Definition no_external_use (v : string) : Prop :=
  forall j, (j < length (ops prog))%nat -> In v (inputs (op_at prog j)) ->
            In j unified_opidxs.

(** A fused chain [b = reshape(a)], [c = reshape(b)]. *)
Definition fused_chain (ib ic : nat) (a b c_ : string) : Prop :=
  In ib unified_opidxs /\ In ic unified_opidxs
  /\ reshape_of (op_at prog ib) a b /\ reshape_of (op_at prog ic) b c_
  /\ internal a /\ internal b
  /\ no_external_use a /\ no_external_use b.

(** The law as the specification states it, for the rewrites [vr] left
    by [DoUnification]. *)
Definition spec_chain_law (vr : VarRewrites.t) : Prop :=
  forall ib ic a b c_, fused_chain ib ic a b c_ -> VarRewrites.Lookup vr c_ = a.

End Integrator.

(** [DoUnification]: the flat contraction, [computed], [var_rewrites] and
    [war_safe_reads] after the call. *)
Definition DoUnification (flat : FlatContraction) (computed : NatSet.t)
    (vr : VarRewrites.t) (war : StrSet.t) (prog : Program) (opidx : nat)
    (ud : UseDef) (vars : Bindings) (inputs_map outputs_map : ShapeMap)
    (out_poly : list Polynomial)
    : M (FlatContraction * NatSet.t * VarRewrites.t * StrSet.t) :=
  let op := op_at prog opidx in
  let kernel_inputs := StrSet.of_list (inputs op) in
  unified_opidxs <-
    Planner.ConnectedComponents is_special prog vars opidx computed ud ;;
  st <- unify_loop prog ud vars inputs_map outputs_map unified_opidxs
          (mkUnify vr [] (post_ops flat) war []) unified_opidxs ;;
  let kernel_outs :=
    outputs_loop prog ud outputs_map unified_opidxs (var_rewrites st) kernel_inputs in
  let computed' := NatSet.insert_all unified_opidxs computed in
  out_b <- at_ vars (flat_output flat) ;;
  poi <- post_inputs_loop vars (names flat) (shape out_b) out_poly
           (post_contraction_inputs st) (post_op_inputs flat) ;;
  Ok (mkFlat (names flat) (ranges flat) (access flat) (constraints flat)
             (agg_vec flat) (generate_contraction flat)
             (unified_post_ops st) poi
             (kernel_outputs flat ++ kernel_outs) (flat_output flat),
      computed', var_rewrites st, war_safe_reads st).

End WithCollaborators.

End Unify.

(* ================================================================= *)
(** ** The driver *)

Module Driver.

Definition Tile := list Z.

(** A kernel of the result list, identified by the generator call that
    made it and the arguments of that call.  The generators themselves
    ([GenCopy], [GenZero], [GenSpecial], [GenContract]) emit device source
    and are outside the planner; the kernel name is the [kname] argument
    they are given. *)
Inductive KernelInfo :=
| CopyKernel (ts : TensorShape) (dst src kname : string)
| ZeroKernel (ts : TensorShape) (out kname : string)
| SpecialKernel (op : Op) (kname : string)
| ContractionKernel (kname : string) (c : option Contraction)
    (flat : FlatContraction) (tile : Tile) (candidates : list Tile)
    (inputs : list string) (war_safe_reads : list string)
| DefaultKernel (war_safe_reads : list string).

(** The name of a kernel; a default-constructed [KernelInfo] has the
    empty name. *)
Definition kname_of (k : KernelInfo) : string :=
  match k with
  | CopyKernel _ _ _ kname => kname
  | ZeroKernel _ _ kname => kname
  | SpecialKernel _ kname => kname
  | ContractionKernel kname _ _ _ _ _ _ => kname
  | DefaultKernel _ => ""
  end.

Definition is_prelude (k : KernelInfo) : bool :=
  match k with
  | CopyKernel _ _ _ _ | ZeroKernel _ _ _ => true
  | _ => false
  end.

(** [printstring("%s_%zu", kid.c_str(), knum)]. *)
Definition kname_for (kid : string) (knum : nat) : string :=
  String.append kid (String.append "_" (NilEmpty.string_of_uint (Nat.to_uint knum))).

(** Kernel [k] carries the name drawn at counter value [N]: [<kid>_<N>],
    or [zero_<kid>_<N>] / [copy_<kid>_<N>] for a prelude kernel. *)
Definition kernel_named (kid : string) (N : nat) (k : KernelInfo) : Prop :=
  match k with
  | CopyKernel _ _ _ kname => kname = String.append "copy_" (kname_for kid N)
  | ZeroKernel _ _ kname => kname = String.append "zero_" (kname_for kid N)
  | SpecialKernel _ kname => kname = kname_for kid N
  | ContractionKernel kname _ _ _ _ _ _ => kname = kname_for kid N
  | DefaultKernel _ => False
  end.

(** The kernels of [ks] carry names drawn at counter values between
    [lo] and [hi], in non-decreasing order along the list. *)
Fixpoint numbered (kid : string) (lo hi : nat) (ks : list KernelInfo) : Prop :=
  match ks with
  | [] => True
  | k :: rest =>
      exists N, (lo <= N < hi)%nat /\ kernel_named kid N k /\ numbered kid N hi rest
  end.

(** The numbering the specification states: the [N]-th kernel emitted,
    prelude kernels set aside, is named [<kid>_<N>]. *)
Definition spec_numbering (kid : string) (ks : list KernelInfo) : Prop :=
  forall N k,
    nth_error (filter (fun k => negb (is_prelude k)) ks) N = Some k ->
    kname_of k = kname_for kid N.

Record KernelList := mkKernelList {
  kernels : list KernelInfo;
  list_var_rewrites : VarRewrites.t
}.

Definition is_alnum (ch : ascii) : bool :=
  let n := nat_of_ascii ch in
  ((48 <=? n) && (n <=? 57) || (65 <=? n) && (n <=? 90) || (97 <=? n) && (n <=? 122))%nat.

(** The loop of [GenerateProgram] that appends the sanitized [id]. *)
Fixpoint sanitize (id : string) : string :=
  match id with
  | EmptyString => EmptyString
  | String ch rest => String (if negb (is_alnum ch) then "_"%char else ch) (sanitize rest)
  end.

Definition make_kid (id : string) : string := String.append "kernel_" (sanitize id).

Definition shape_error (id : string) : Error :=
  runtime_error (String.append "Unable to find tensor shape for id "
                               (String.append id ", ug")).

Fixpoint MakeTShapes (specs_ : list string) (vars : Bindings) : M (list TensorShape) :=
  match specs_ with
  | [] => Ok []
  | id :: rest =>
      match find id vars with
      | None => Err (shape_error id)
      | Some b => tshapes <- MakeTShapes rest vars ;; Ok (shape b :: tshapes)
      end
  end.

(** [flat.output = op.output]. *)
Definition set_output (flat : FlatContraction) (out : string) : FlatContraction :=
  mkFlat (names flat) (ranges flat) (access flat) (constraints flat)
         (agg_vec flat) (generate_contraction flat) (post_ops flat)
         (post_op_inputs flat) (kernel_outputs flat) out.

(** [flat.kernel_outputs.push_back(op.output)]. *)
Definition push_kernel_output (flat : FlatContraction) (out : string) : FlatContraction :=
  mkFlat (names flat) (ranges flat) (access flat) (constraints flat)
         (agg_vec flat) (generate_contraction flat) (post_ops flat)
         (post_op_inputs flat) (kernel_outputs flat ++ [out]) (flat_output flat).

Definition no_tshape : TensorShape := mkShape 0%nat [].

(** The prelude kernel of a contraction whose output needs initializing:
    [GenCopy] from [use_default] when that is set, [GenZero] otherwise. *)
Definition prelude_kernel (op : Op) (ts0 : TensorShape) (kname : string) : KernelInfo :=
  if negb (String.eqb (use_default (c op)) "")
  then CopyKernel ts0 (output op) (use_default (c op)) (String.append "copy_" kname)
  else ZeroKernel ts0 (output op) (String.append "zero_" kname).

(** The state the loop of [Compile] carries from one op to the next. *)
Record CompileState := mkState {
  st_prog : Program;
  st_kernels : list KernelInfo;
  st_var_rewrites : VarRewrites.t;
  st_computed : NatSet.t;
  st_knum : nat
}.

Definition msg_threes : string := "prng functions must come in threes".
Definition msg_companions : string := "prng_step function missing its companions".

(** The scan for the companions of a [prng_step] whose tuple is [tup],
    over the ops from index [j] on. *)
Fixpoint prng_scan (tup : string) (l : list Op) (j : nat)
    (sout vout : string) (sout_pos : nat) (computed : NatSet.t)
    : string * string * nat * NatSet.t :=
  match l with
  | [] => (sout, vout, sout_pos, computed)
  | nop :: rest =>
      if String.eqb (fn (f nop)) "prng_state"
         && (length (inputs nop) =? 1)%nat
         && String.eqb (nth 0 (inputs nop) "") tup
      then prng_scan tup rest (S j) (output nop) vout j (NatSet.insert j computed)
      else if String.eqb (fn (f nop)) "prng_value"
              && (length (inputs nop) =? 1)%nat
              && String.eqb (nth 0 (inputs nop) "") tup
      then prng_scan tup rest (S j) sout (output nop) sout_pos (NatSet.insert j computed)
      else prng_scan tup rest (S j) sout vout sout_pos computed
  end.

(** The companions the scan looks for: a [prng_state] or [prng_value] op
    whose only input is the tuple [tup]. *)
Definition state_of (tup : string) (nop : Op) : Prop :=
  fn (f nop) = "prng_state" /\ inputs nop = [tup].

Definition value_of (tup : string) (nop : Op) : Prop :=
  fn (f nop) = "prng_value" /\ inputs nop = [tup].

(** The two situations of PRNG misuse for the op at index [i]: a
    [prng_state] or [prng_value] op met on its own, and a [prng_step] whose
    tuple a later [prng_value] consumes while no later [prng_state] does. *)
Definition prng_misuse (prog : Program) (i : nat) : Prop :=
  let op := op_at prog i in
  (fn (f op) = "prng_state" \/ fn (f op) = "prng_value")
  \/ (fn (f op) = "prng_step"
      /\ (exists nop, In nop (skipn (S i) (ops prog)) /\ value_of (output op) nop)
      /\ ~ (exists nop, In nop (skipn (S i) (ops prog)) /\ state_of (output op) nop)).

(** The rewrite of the state op into an identity of the step's first input. *)
Definition to_ident (xop : Op) (state_in : string) : Op :=
  mkOp (tag xop) (output xop) (set_nth 0 state_in (inputs xop)) (c xop)
       (mkFunction "ident" (params (f xop))).

Section WithCollaborators.

Variable is_special : Function -> bool.
Variable byte_width : DataType -> Z.

Variable Polynomial : Type.
Variable poly_zero : Polynomial.
Variable poly_add : Polynomial -> Polynomial -> Polynomial.
Variable poly_scale : Polynomial -> Z -> Polynomial.
Variable poly_floor_coeff : Polynomial -> string -> Z.
(** [Polynomial(idx_name)]. *)
Variable poly_var : string -> Polynomial.

(** [Compile(op.c, tshapes, &out_poly)] of tile/lang/compile.h. *)
Variable CompileContraction :
  Contraction -> list TensorShape -> M (FlatContraction * list Polynomial).
(** [Vectorize] and [TileOptimize] of tile/lang/tile_opt.h; the tiles
    come in the order in which [ContractionWrap] visits [by_score], best
    score first. *)
Variable Vectorize : FlatContraction -> Z -> FlatContraction.
Variable TileOptimize : FlatContraction -> bool -> Bindings -> list Tile.
(** [settings.vec_size]. *)
Variable vec_size : Z.

(** The inputs [GenerateContractionKernel] records on a kernel. *)
Fixpoint tensor_inputs (vars : Bindings) (vr : VarRewrites.t) (ins : list string)
    : M (list string) :=
  match ins with
  | [] => Ok []
  | input :: rest =>
      b <- at_ vars input ;;
      rest' <- tensor_inputs vars vr rest ;;
      Ok (if is_tensor (btag b) then VarRewrites.Lookup vr input :: rest' else rest')
  end.

Definition kernel_inputs_of (vars : Bindings) (vr : VarRewrites.t)
    (flat : FlatContraction) (ins : list string) : M (list string) :=
  tins <- tensor_inputs vars vr ins ;;
  Ok (tins ++ map (fun kvp => VarRewrites.Lookup vr (fst kvp)) (post_op_inputs flat)).

(** The input names [ContractionWrap] collects from the specs of [c]. *)
Fixpoint spec_inputs (specs_ : list string) (vars : Bindings) (first : bool)
    : M (list string) :=
  match specs_ with
  | [] => Ok []
  | id :: rest =>
      match find id vars with
      | None => Err (shape_error id)
      | Some _ =>
          rest' <- spec_inputs rest vars false ;;
          Ok (if first then rest' else id :: rest')
      end
  end.

(** The vectorization loop: [vec_size] is halved until it reaches 1. *)
Fixpoint vectorize_loop (p : positive) (flat : FlatContraction) : FlatContraction :=
  match p with
  | xH => flat
  | xO p' | xI p' =>
      if agg_vec flat =? 1 then vectorize_loop p' (Vectorize flat (Zpos p)) else flat
  end.

Definition vectorize_all (flat : FlatContraction) : FlatContraction :=
  match vec_size with
  | Zpos p => vectorize_loop p flat
  | _ => flat
  end.

(** [ContractionWrap]: the kernels of [r] after the call. *)
Definition ContractionWrap (r_kernels : list KernelInfo) (c : option Contraction)
    (flat : FlatContraction) (kname : string) (vars : Bindings) (tile_trials : nat)
    (vr : VarRewrites.t) (war_safe_reads : list string) : M (list KernelInfo) :=
  if negb (generate_contraction flat) && (length (post_ops flat) =? 0)%nat
  then Ok r_kernels
  else
    ins <-
      match c with
      | Some c' =>
          let n := length (specs c') in
          if negb (n =? 2)%nat && negb (n =? 3)%nat && negb (n =? 4)%nat
          then Err (runtime_error
                      "Currently, we only support 1, 2, and 3 element Contractions")
          else spec_inputs (specs c') vars true
      | None => Ok []
      end ;;
    let flat1 := Simplify.simplify_all flat in
    let flat2 := vectorize_all flat1 in
    let by_score := TileOptimize flat2 (tile_trials =? 1)%nat vars in
    match firstn tile_trials by_score with
    | [] => Ok (r_kernels ++ [DefaultKernel war_safe_reads])
    | tile :: more =>
        kins <- kernel_inputs_of vars vr flat2 ins ;;
        Ok (r_kernels ++
            [ContractionKernel kname c flat2 tile more kins war_safe_reads])
    end.

(** The trivial flat contraction of an elementwise op. *)
Definition index_name (idx : nat) : string :=
  String.append "i" (NilEmpty.string_of_uint (Nat.to_uint (S idx))).

Definition elementwise_flat (out : string) (sh : TensorShape)
    : FlatContraction * list Polynomial :=
  let idx_names := map index_name (seq 0 (length (dims sh))) in
  (mkFlat idx_names (map dim_size (dims sh))
          [mkAccess (shape_type sh) 1 0 (elem_size sh) (map dim_stride (dims sh))]
          [] 1 false [] [] [] out,
   map poly_var idx_names).

Section Loop.

Variable vars : Bindings.
Variable ud : UseDef.
Variable inputs_map : ShapeMap.
Variable outputs_map : ShapeMap.
Variable kid : string.
Variable tile_trials : nat.

Definition unify (flat : FlatContraction) (st : CompileState) (i : nat)
    (out_poly : list Polynomial) :=
  Unify.DoUnification is_special byte_width Polynomial poly_zero poly_add
    poly_scale poly_floor_coeff flat (st_computed st) (st_var_rewrites st) []
    (st_prog st) i ud vars inputs_map outputs_map out_poly.

(** The branch of the loop body for a [CONTRACTION] op. *)
Definition compile_contraction (st : CompileState) (i : nat) : M CompileState :=
  let op := op_at (st_prog st) i in
  tshapes <- MakeTShapes (specs (c op)) vars ;;
  '(flat0, out_poly) <- CompileContraction (c op) tshapes ;;
  let flat := set_output flat0 (output op) in
  let kname := kname_for kid (st_knum st) in
  let ts0 := nth 0 tshapes no_tshape in
  if Zero.NeedsZero flat ts0 then
    let flat' := push_kernel_output flat (output op) in
    ks <- ContractionWrap (st_kernels st ++ [prelude_kernel op ts0 kname])
            (Some (c op)) flat' kname vars tile_trials (st_var_rewrites st) [] ;;
    Ok (mkState (st_prog st) ks (st_var_rewrites st) (st_computed st) (S (st_knum st)))
  else
    '(flat', computed', vr', war) <- unify flat st i out_poly ;;
    ks <- ContractionWrap (st_kernels st) (Some (c op)) flat' kname vars
            tile_trials vr' war ;;
    Ok (mkState (st_prog st) ks vr' computed' (S (st_knum st))).

(** The branch for a special function. *)
Definition compile_special (st : CompileState) (i : nat) : M CompileState :=
  let op := op_at (st_prog st) i in
  if String.eqb (fn (f op)) "prng_state" || String.eqb (fn (f op)) "prng_value"
  then Err (runtime_error msg_threes)
  else if String.eqb (fn (f op)) "prng_step" then
    let '(sout, vout, sout_pos, computed') :=
      prng_scan (output op) (skipn (S i) (ops (st_prog st))) (S i) "" "" 0%nat
                (st_computed st) in
    if String.eqb vout "" && String.eqb sout "" then
      Ok (mkState (st_prog st) (st_kernels st) (st_var_rewrites st) computed'
                  (st_knum st))
    else if String.eqb vout "" then
      let xop := to_ident (op_at (st_prog st) sout_pos) (nth 0 (inputs op) "") in
      Ok (mkState (mkProgram (set_nth sout_pos xop (ops (st_prog st))))
                  (st_kernels st) (st_var_rewrites st)
                  (NatSet.remove sout_pos computed') (st_knum st))
    else if String.eqb sout "" then Err (runtime_error msg_companions)
    else
      let dop := mkOp (tag op) (output op) (inputs op) (c op)
                      (mkFunction (fn (f op)) (params (f op) ++ [sout; vout])) in
      Ok (mkState (st_prog st)
                  (st_kernels st ++ [SpecialKernel dop (kname_for kid (st_knum st))])
                  (st_var_rewrites st) computed' (S (st_knum st)))
  else
    Ok (mkState (st_prog st)
                (st_kernels st ++ [SpecialKernel op (kname_for kid (st_knum st))])
                (st_var_rewrites st) (st_computed st) (S (st_knum st))).

(** The branch for an elementwise op that no earlier kernel absorbed. *)
Definition compile_elementwise (st : CompileState) (i : nat) : M CompileState :=
  let access_op := op_at (st_prog st) i in
  b <- at_ vars (output access_op) ;;
  let '(flat, out_poly) := elementwise_flat (output access_op) (shape b) in
  '(flat', computed', vr', war) <- unify flat st i out_poly ;;
  ks <- ContractionWrap (st_kernels st) None flat' (kname_for kid (st_knum st)) vars
          tile_trials vr' war ;;
  Ok (mkState (st_prog st) ks vr' computed' (S (st_knum st))).

(** The body of the loop of [Compile] for op [i]. *)
Definition compile_op (st : CompileState) (i : nat) : M CompileState :=
  let op := op_at (st_prog st) i in
  match tag op with
  | CONTRACTION => compile_contraction st i
  | CONSTANT => Ok st
  | FUNCTION =>
      if NatSet.mem i (st_computed st) then Ok st
      else if is_special (f op) then compile_special st i
      else compile_elementwise st i
  end.

Fixpoint compile_loop (st : CompileState) (idxs : list nat) : M CompileState :=
  match idxs with
  | [] => Ok st
  | i :: rest => st' <- compile_op st i ;; compile_loop st' rest
  end.

End Loop.

(** [BindProgram] of tile/lang/bound.h: the bindings, and the program
    after shape propagation. *)
Variable BindProgram : Program -> ShapeMap -> ShapeMap -> M (Program * Bindings).

(** [Compile]; the final pruning of [r.types] is left out, the planner
    does not read it. *)
Definition Compile (orig_prog : Program) (inputs_map outputs_map : ShapeMap)
    (kid : string) (tile_trials : nat) : M KernelList :=
  '(prog, vars) <- BindProgram orig_prog inputs_map outputs_map ;;
  let ud := mk_usedef prog in
  st <- compile_loop vars ud inputs_map outputs_map kid tile_trials
          (mkState prog [] [] [] 0%nat) (seq 0 (length (ops prog))) ;;
  Ok (mkKernelList (st_kernels st) (st_var_rewrites st)).

(** [GenerateProgram]; [Simplify(r.kernels)] rewrites the source text of
    the kernels and leaves the list as it is. *)
Definition GenerateProgram (prog : Program) (inputs_map outputs_map : ShapeMap)
    (id : string) (tile_trials : nat) : M KernelList :=
  Compile prog inputs_map outputs_map (make_kid id) tile_trials.

End WithCollaborators.

End Driver.

(* ================================================================= *)
(** ** Concrete inputs *)

Module Examples.

Definition f32 : DataType := 4%nat.

Definition out_access (sts : list Z) (limit : Z) : FlatTensorAccess :=
  mkAccess f32 1 0 limit sts.

Definition plain_flat (ns : list string) (rs : list Z) (accs : list FlatTensorAccess)
    (cs : list FlatConstraint) : FlatContraction :=
  mkFlat ns rs accs cs 1 true [] [] [] "out".

(** [out[i, j] = in[i, j]] over a contiguous 4x4 output. *)
Definition flat_copy : FlatContraction :=
  plain_flat ["i"; "j"] [4; 4] [out_access [4; 1] 16; out_access [4; 1] 16] [].

(** A contiguous 4x4 output and an input that is broadcast along both
    indices: its strides are 0 at [i] and at [j]. *)
Definition flat_broadcast : FlatContraction :=
  plain_flat ["i"; "j"] [4; 4] [out_access [4; 1] 16; out_access [0; 0] 1] [].

(** [out[i] = sum_j in[i, j]] with the constraint [j < 3], which only
    mentions the reduction index [j]. *)
Definition flat_reduce_constrained : FlatContraction :=
  plain_flat ["i"; "j"] [4; 4] [out_access [1; 0] 4; out_access [4; 1] 16]
             [mkConstraint [0; 1] 3].

(** The same contraction with the constraint [i < 3] on the output index. *)
Definition flat_output_constrained : FlatContraction :=
  plain_flat ["i"; "j"] [4; 4] [out_access [1; 0] 4; out_access [4; 1] 16]
             [mkConstraint [1; 0] 3].

Definition no_shape : TensorShape := mkShape 0%nat [].

(** [out[2 * i] = in[i]]: the output is written with stride 2. *)
Definition flat_strided : FlatContraction :=
  plain_flat ["i"] [4] [out_access [2] 8; out_access [1] 4] [].

(** *** Collaborators *)

Definition is_special_std (fu : Function) : bool :=
  existsb (String.eqb (fn fu))
          ["gather"; "scatter"; "shape"; "prng_step"; "prng_state"; "prng_value"].

Definition byte_width_std (t : DataType) : Z := Z.of_nat t.

(** Polynomials with integer coefficients, as lists of monomials. *)
Definition Poly := list (string * Z).
Definition poly_zero : Poly := [].
Definition poly_add (p q : Poly) : Poly := p ++ q.
Definition poly_scale (p : Poly) (z : Z) : Poly := map (fun kv => (fst kv, snd kv * z)) p.
Definition poly_floor_coeff (p : Poly) (idx : string) : Z :=
  fold_left (fun acc kv => if String.eqb (fst kv) idx then acc + snd kv else acc) p 0.
Definition poly_var (s : string) : Poly := [(s, 1)].

Definition compile_strided (_ : Contraction) (_ : list TensorShape)
    : M (FlatContraction * list Poly) :=
  Ok (flat_strided, [[("i", 2)]]).

Definition no_vectorize (flat : FlatContraction) (_ : Z) : FlatContraction := flat.

Definition unit_tile (flat : FlatContraction) (_ : bool) (_ : Bindings)
    : list Driver.Tile :=
  [map (fun _ => 1) (ranges flat)].

Definition bind_with (vars : Bindings) (prog : Program) (_ _ : ShapeMap)
    : M (Program * Bindings) :=
  Ok (prog, vars).

Definition tensor (sizes : list Z) : Binding :=
  mkBinding TENSOR
    (mkShape f32 (snd (fold_right (fun sz acc => (fst acc * sz, mkDim sz (fst acc) :: snd acc))
                                  (1, []) sizes))).

Definition fun_op (name out : string) (ins : list string) : Op :=
  mkOp FUNCTION out ins (mkContraction [] "") (mkFunction name []).

Definition contraction_op (out : string) (ins : list string) (dflt : string) : Op :=
  mkOp CONTRACTION out ins (mkContraction (out :: ins) dflt) (mkFunction "" []).

Definition step_with (vars : Bindings) (prog : Program) (ins outs : ShapeMap)
    (kid : string) :=
  Driver.compile_op is_special_std byte_width_std Poly poly_zero poly_add poly_scale
    poly_floor_coeff poly_var compile_strided no_vectorize unit_tile 1 vars
    (mk_usedef prog) ins outs kid 1.

Definition run_with (vars : Bindings) (prog : Program) (ins outs : ShapeMap)
    (kid : string) :=
  Driver.compile_loop is_special_std byte_width_std Poly poly_zero poly_add poly_scale
    poly_floor_coeff poly_var compile_strided no_vectorize unit_tile 1 vars
    (mk_usedef prog) ins outs kid 1.

Definition compile_with (vars : Bindings) :=
  Driver.Compile is_special_std byte_width_std Poly poly_zero poly_add poly_scale
    poly_floor_coeff poly_var compile_strided no_vectorize unit_tile 1
    (bind_with vars).

Definition generate_with (vars : Bindings) :=
  Driver.GenerateProgram is_special_std byte_width_std Poly poly_zero poly_add
    poly_scale poly_floor_coeff poly_var compile_strided no_vectorize unit_tile 1
    (bind_with vars).

Definition initial (prog : Program) : Driver.CompileState :=
  Driver.mkState prog [] [] [] 0%nat.

(** *** Programs *)

(** A strided contraction [O[2 * i] = A[i]]. *)
Definition prog_strided : Program := mkProgram [contraction_op "O" ["A"] ""].
Definition vars_strided : Bindings := [("A", tensor [4]); ("O", tensor [8])].

(** A [prng_value] on its own. *)
Definition prog_value_alone : Program :=
  mkProgram [fun_op "prng_value" "v" ["t"]].

(** A [prng_step] whose value is read and whose state is not. *)
Definition prog_step_value : Program :=
  mkProgram [fun_op "prng_step" "t" ["s"]; fun_op "prng_value" "v" ["t"]].

(** A [prng_step] whose tuple nothing reads, before an unrelated op. *)
Definition prog_step_alone : Program :=
  mkProgram [fun_op "prng_step" "t" ["s"]; fun_op "gather" "g" ["x"; "idx"]].

Definition vars_prng : Bindings :=
  [("s", tensor [3]); ("t", mkBinding BCONSTANT no_shape); ("v", tensor [4])].

(** [y = reshape(x)] read by a [gather]: the reshape is elided, and the
    kernel it would have been is never emitted. *)
Definition prog_elided : Program :=
  mkProgram [fun_op "reshape" "y" ["x"]; fun_op "gather" "z" ["y"; "idx"]].
Definition vars_elided : Bindings :=
  [("idx", tensor [2]); ("x", tensor [16]); ("y", tensor [4; 4]); ("z", tensor [2; 4])].
Definition ins_elided : ShapeMap :=
  [("idx", shape (tensor [2])); ("x", shape (tensor [16]))].
Definition outs_elided : ShapeMap := [("z", shape (tensor [2; 4]))].

(** The kernel list [GenerateProgram] returns for [prog_elided] and the
    id ["my-prog"]. *)
Definition result_elided : Driver.KernelList :=
  Driver.mkKernelList
    [Driver.SpecialKernel (fun_op "gather" "z" ["y"; "idx"]) "kernel_my_prog_1"]
    [("y", "x")].

(** [a = exp(x)] and [b = tanh(a)] form one kernel; the contraction [c]
    sits between them in program order, and [d = add(c, b)] reads both. *)
Definition prog_two_roots : Program :=
  mkProgram [fun_op "exp" "a" ["x"];
             contraction_op "c" ["y"] "";
             fun_op "tanh" "b" ["a"];
             fun_op "add" "d" ["c"; "b"];
             fun_op "gather" "e" ["d"; "idx"]].
Definition vars_two_roots : Bindings :=
  [("a", tensor [4]); ("b", tensor [4]); ("c", tensor [4]); ("d", tensor [4]);
   ("e", tensor [2]); ("idx", tensor [2]); ("x", tensor [4]); ("y", tensor [4])].

Definition components_with (vars : Bindings) (prog : Program) (root : nat)
    (computed : NatSet.t) : M NatSet.t :=
  Planner.ConnectedComponents is_special_std prog vars root computed (mk_usedef prog).

(** Three reshapes in a row, of the program input [x]. *)
Definition prog_chain : Program :=
  mkProgram [fun_op "reshape" "a" ["x"];
             fun_op "reshape" "b" ["a"];
             fun_op "reshape" "c" ["b"];
             fun_op "exp" "d" ["c"];
             fun_op "gather" "e" ["d"; "idx"]].
Definition vars_chain : Bindings :=
  [("a", tensor [4; 4]); ("b", tensor [2; 8]); ("c", tensor [16]); ("d", tensor [16]);
   ("e", tensor [2]); ("idx", tensor [2]); ("x", tensor [16])].
Definition ins_chain : ShapeMap :=
  [("idx", shape (tensor [2])); ("x", shape (tensor [16]))].
Definition outs_chain : ShapeMap := [("e", shape (tensor [2]))].

(** Two reshapes of the result [a] of an elementwise op. *)
Definition prog_chain2 : Program :=
  mkProgram [fun_op "exp" "a" ["x"];
             fun_op "reshape" "b" ["a"];
             fun_op "reshape" "c" ["b"];
             fun_op "gather" "e" ["c"; "idx"]].

(** [DoUnification] for the elementwise op [i] of [prog], from the
    initial state of the driver. *)
Definition unification_with (vars : Bindings) (prog : Program) (ins outs : ShapeMap)
    (i : nat) :=
  match find (output (op_at prog i)) vars with
  | Some b =>
      let '(flat, out_poly) :=
        Driver.elementwise_flat Poly poly_var (output (op_at prog i)) (shape b) in
      Unify.DoUnification is_special_std byte_width_std Poly poly_zero poly_add
        poly_scale poly_floor_coeff flat [] [] [] prog i (mk_usedef prog) vars
        ins outs out_poly
  | None => Err out_of_range
  end.

Definition unify_loop_with (vars : Bindings) (prog : Program) (ins outs : ShapeMap)
    (unified : NatSet.t) :=
  Unify.unify_loop byte_width_std prog (mk_usedef prog) vars ins outs unified.

Definition unify_op_with (vars : Bindings) (prog : Program) (ins outs : ShapeMap)
    (unified : NatSet.t) :=
  Unify.unify_op byte_width_std prog (mk_usedef prog) vars ins outs unified.

Definition unify_start : Unify.UnifyState := Unify.mkUnify [] [] [] [] [].

End Examples.

From Stdlib Require Import DecimalNat.

(* ================================================================= *)
(** ** Index spaces and addresses *)

Module Address.

(** [sum_k strides[k] * idx[k]]. *)
Fixpoint dot (sts v : list Z) : Z :=
  match sts, v with
  | s :: sts', x :: v' => s * x + dot sts' v'
  | _, _ => 0
  end.

(** The linear address an access touches at the index vector [v]. *)
Definition address (a : FlatTensorAccess) (v : list Z) : Z :=
  offset a + dot (strides a) v.

(** [v] gives every index of [flat] a value within its range. *)
Definition in_ranges (flat : FlatContraction) (v : list Z) : Prop :=
  length v = length (ranges flat)
  /\ forall k, (k < length v)%nat -> 0 <= nth k v 0 < range_at flat k.

(** The index vector of the merged flat contraction that stands for [v]:
    index [j] takes the combined value [range[j] * v[i] + v[j]] and index
    [i] is dropped. *)
Definition merge_index (flat : FlatContraction) (i j : nat) (v : list Z) : list Z :=
  erase i (set_nth j (range_at flat j * nth i v 0 + nth j v 0) v).

(** The length invariants of a flat contraction. *)
Definition wf_lengths (flat : FlatContraction) : Prop :=
  length (ranges flat) = length (names flat)
  /\ Forall (fun a => length (strides a) = length (names flat)) (access flat)
  /\ Forall (fun kv => length (strides (snd kv)) = length (names flat))
            (post_op_inputs flat).

(** All of a flat contraction but its index names, ranges and strides. *)
Definition same_frame (flat flat' : FlatContraction) : Prop :=
  map offset (access flat') = map offset (access flat)
  /\ map global_index_limit (access flat') = map global_index_limit (access flat)
  /\ map fst (post_op_inputs flat') = map fst (post_op_inputs flat)
  /\ constraints flat' = constraints flat
  /\ agg_vec flat' = agg_vec flat
  /\ generate_contraction flat' = generate_contraction flat
  /\ post_ops flat' = post_ops flat
  /\ kernel_outputs flat' = kernel_outputs flat
  /\ flat_output flat' = flat_output flat.

(** The test [SimplifyFlat] applies to the pair [(i, j)]. *)
Definition mergeable (flat : FlatContraction) (i j : nat) : bool :=
  let i_stride := u64 (stride0 flat i) in
  let j_stride := u64 (stride0 flat j) in
  negb (i_stride =? 0) && negb (j_stride =? 0)
  && (i_stride =? u64 (range_at flat j * j_stride))
  && Simplify.all_good flat i j i_stride j_stride.

(** [(i', j')] is visited by the two loops before [(i, j)]. *)
Definition before (i' j' i j : nat) : Prop :=
  (i' < i)%nat \/ (i' = i /\ (j' < j)%nat).

(** The product of the ranges of a list of [(stride, range)] pairs. *)
Definition prod_ranges (ps : list (Z * Z)) : Z :=
  fold_right (fun p acc => snd p * acc) 1 ps.

(** [sum s * (r - 1)] over a list of [(stride, range)] pairs: the
    largest address the pairs reach. *)
Definition span (ps : list (Z * Z)) : Z :=
  fold_right (fun p acc => fst p * (snd p - 1) + acc) 0 ps.

(** Modelled from the spec: the meaning of a constraint, which flat.h
    (not among the sources) gives: "affine inequalities over the indices:
    [(lhs, rhs)] meaning [sum lhs[i] * idx[i] < rhs]". *)
Definition holds (fc : FlatConstraint) (v : list Z) : Prop := dot (lhs fc) v < rhs fc.

(** The index vector that reads address [a] back: index [k] is the digit
    [(a / stride) mod range] of [a]. *)
Definition decode (flat : FlatContraction) (a : Z) : list Z :=
  map (fun p => (a / fst p) mod snd p)
      (combine (strides (access0 flat)) (ranges flat)).

Definition digits_sum (a : Z) (ps : list (Z * Z)) : Z :=
  fold_right (fun p acc => fst p * ((a / fst p) mod snd p) + acc) 0 ps.

(** The loop indices of a flat contraction under two index vectors:
    [((stride, range), (digit of v, digit of v'))] per index. *)
Definition index_digits (flat : FlatContraction) (v v' : list Z)
    : list ((Z * Z) * (Z * Z)) :=
  map (fun k => ((stride0 flat k, range_at flat k), (nth k v 0, nth k v' 0)))
      (seq 0 (length (names flat))).

Definition value (d : (Z * Z) * (Z * Z) -> Z) (qs : list ((Z * Z) * (Z * Z))) : Z :=
  fold_right (fun q acc => fst (fst q) * d q + acc) 0 qs.

End Address.

(* ================================================================= *)
(** ** Further concrete inputs *)

Module MoreExamples.

(** [out[i] = sum_j in[i, j]]: the reduction index [j] has output stride 0. *)
Definition flat_reduce : FlatContraction :=
  Examples.plain_flat ["i"; "j"] [4; 4]
    [Examples.out_access [1; 0] 4; Examples.out_access [4; 1] 16] [].

(** [out[i1, i2] = sum_j in[i1, i2, j]] under the constraint
    [i1 + i2 + j < 4], which mentions the reduction index [j]. *)
Definition flat_tri : FlatContraction :=
  Examples.plain_flat ["i1"; "i2"; "j"] [4; 4; 4]
    [Examples.out_access [4; 1; 0] 16; Examples.out_access [16; 4; 1] 64]
    [mkConstraint [1; 1; 1] 4].

(** [out[3 - i] = in[i]]: the output is written backwards. *)
Definition flat_reversed : FlatContraction :=
  Examples.plain_flat ["i"] [4]
    [mkAccess Examples.f32 1 3 4 [-1]; Examples.out_access [1] 4] [].

(** The elementwise kernel rooted at op 0 of [Examples.prog_two_roots]:
    [a = exp(x)] with [b = tanh(a)] fused into it. *)
Definition ins_two_roots : ShapeMap :=
  [("idx", shape (Examples.tensor [2])); ("x", shape (Examples.tensor [4]));
   ("y", shape (Examples.tensor [4]))].
Definition outs_two_roots : ShapeMap := [("e", shape (Examples.tensor [2]))].

Definition flat_a : FlatContraction :=
  fst (Driver.elementwise_flat Examples.Poly Examples.poly_var "a"
         (shape (Examples.tensor [4]))).
Definition poly_a : list Examples.Poly :=
  snd (Driver.elementwise_flat Examples.Poly Examples.poly_var "a"
         (shape (Examples.tensor [4]))).

Definition unify_two_roots :=
  Unify.DoUnification Examples.is_special_std Examples.byte_width_std Examples.Poly
    Examples.poly_zero Examples.poly_add Examples.poly_scale Examples.poly_floor_coeff
    flat_a [] [] [] Examples.prog_two_roots 0 (mk_usedef Examples.prog_two_roots)
    Examples.vars_two_roots ins_two_roots outs_two_roots poly_a.

Definition components_two_roots :=
  Planner.ConnectedComponents Examples.is_special_std Examples.prog_two_roots
    Examples.vars_two_roots 0 [] (mk_usedef Examples.prog_two_roots).

Definition flat_a' : FlatContraction :=
  mkFlat ["i1"] [4] [mkAccess Examples.f32 1 0 4 [1]] [] 1 false
         [Examples.fun_op "exp" "a" ["x"]; Examples.fun_op "tanh" "b" ["a"]]
         [("x", mkAccess 0%nat 1 0 4 [1])]
         ["b"] "a".

(** A [prng_step] with both companions, and one whose value nothing reads. *)
Definition prog_prng_group : Program :=
  mkProgram [Examples.fun_op "prng_step" "t" ["s"];
             Examples.fun_op "prng_state" "s2" ["t"];
             Examples.fun_op "prng_value" "v" ["t"]].

Definition prog_prng_state : Program :=
  mkProgram [Examples.fun_op "prng_step" "t" ["s"];
             Examples.fun_op "prng_state" "s2" ["t"]].

Definition contraction_strided : Contraction := mkContraction ["O"; "A"] "".

End MoreExamples.

(* ================================================================= *)
(** ** What the planner's result is made of *)

Module Reach.

(** The only exception of the planner's loops is the one of [at]. *)
Definition lookup_failure {A : Type} (m : M A) : Prop :=
  forall e, m = Err e -> e = out_of_range \/ e = out_of_fuel.

Section WithProgram.

Variable is_special : Function -> bool.
Variable prog : Program.
Variable vars : Bindings.
Variable root_opidx : nat.
Variable previously_computed : NatSet.t.
Variable ud : UseDef.

(** Op [u] passed the tests that admit an op to the set. *)
Definition admitted (u : nat) : Prop :=
  Planner.OpCanBeUnified is_special prog vars root_opidx u = Ok true
  /\ ~ In u previously_computed.

(** Op [u] consumes the output of op [w]. *)
Definition consumes (w u : nat) : Prop :=
  exists cs, find (output (op_at prog w)) (uses ud) = Some cs /\ In u cs.

(** Op [u] defines an input of op [c]. *)
Definition feeds (u c : nat) : Prop :=
  exists input, In input (inputs (op_at prog c))
                /\ find input (op_defs ud) = Some u.

(** Op [u] touches a member of [U]: it consumes a member's output or
    defines a member's input. *)
Definition linked (U : NatSet.t) (u : nat) : Prop :=
  (exists w, In w U /\ consumes w u) \/ (exists c, In c U /\ feeds u c).

(** The output of op [u] has an entry in [uses]. *)
Definition has_uses (u : nat) : Prop :=
  exists cs, find (output (op_at prog u)) (uses ud) = Some cs.

(** A member of a candidate set: admitted, and either the consumer the
    set started from or the definition of an input of another member. *)
Definition cand_ok (c_start : nat) (C : NatSet.t) (x : nat) : Prop :=
  admitted x /\ (x = c_start \/ exists c, In c C /\ feeds x c).

(** The invariant of the frontier loop. *)
Definition frontier_inv (U : NatSet.t) (F : list nat) : Prop :=
  In root_opidx U
  /\ (forall x, In x F -> In x U)
  /\ (forall x, In x U -> In x F \/ has_uses x)
  /\ (forall x, In x U -> x = root_opidx \/ (admitted x /\ linked U x)).

End WithProgram.

End Reach.

(* ================================================================= *)
(** ** What the post-op integrator leaves behind *)

Module Fused.

Section WithSet.

Variable prog : Program.
Variable ud : UseDef.
Variable vars : Bindings.
Variable U : NatSet.t.

(** [x] is the output of an op of the set. *)
Definition defined_inside (x : string) : Prop :=
  exists d, find x (op_defs ud) = Some d /\ In d U.

(** [x] is bound to a tensor that no op of the set defines. *)
Definition outer_tensor (x : string) : Prop :=
  (exists b, find x vars = Some b /\ btag b = TENSOR) /\ ~ defined_inside x.

(** Input [x] of a post-op is bound, and when it is a tensor it is
    either computed inside the kernel or registered as a read. *)
Definition input_served (war pci : StrSet.t) (x : string) : Prop :=
  exists b, find x vars = Some b
            /\ (btag b = TENSOR -> defined_inside x \/ (In x war /\ In x pci)).

(** Post-op [op] is the op [u] of the program, up to its inputs. *)
Definition fused_from (u : nat) (op : Op) : Prop :=
  tag (op_at prog u) = FUNCTION
  /\ tag op = FUNCTION
  /\ output op = output (op_at prog u)
  /\ f op = f (op_at prog u)
  /\ length (inputs op) = length (inputs (op_at prog u)).

(** The output of op [u] is read outside the kernel: it is a program
    output, or an op outside the set uses it. *)
Definition read_outside (outputs_map : ShapeMap) (u : nat) : Prop :=
  count outputs_map (output (op_at prog u)) = true
  \/ exists us j, find (output (op_at prog u)) (uses ud) = Some us
                  /\ In j us /\ ~ In j U.

End WithSet.

End Fused.

(* ================================================================= *)
(** ** Kernel names and the program under the driver *)

Module Naming.

Fixpoint all_chars (p : ascii -> bool) (s : string) : bool :=
  match s with
  | EmptyString => true
  | String ch rest => p ch && all_chars p rest
  end.

Definition is_digit (ch : ascii) : bool :=
  let n := nat_of_ascii ch in ((48 <=? n) && (n <=? 57))%nat.

(** A character of a C identifier: alphanumeric or the underscore. *)
Definition is_ident_char (ch : ascii) : bool :=
  Driver.is_alnum ch || Ascii.eqb ch "_"%char.

(** A valid C identifier: not empty, made of identifier characters, not
    starting with a digit. *)
Definition c_identifier (s : string) : Prop :=
  match s with
  | EmptyString => False
  | String ch _ => is_digit ch = false /\ all_chars is_ident_char s = true
  end.

Definition msg_arity : string :=
  "Currently, we only support 1, 2, and 3 element Contractions".

(** Program [p'] has the ops of [p], with tags, outputs and contractions
    kept; an op that differs has become an [ident]. *)
Definition same_signature (p p' : Program) : Prop :=
  length (ops p') = length (ops p)
  /\ forall j,
       tag (op_at p' j) = tag (op_at p j)
       /\ output (op_at p' j) = output (op_at p j)
       /\ c (op_at p' j) = c (op_at p j)
       /\ length (inputs (op_at p' j)) = length (inputs (op_at p j))
       /\ (op_at p' j = op_at p j \/ fn (f (op_at p' j)) = "ident").

(** What [n] rounds of the loop of [Compile] leave behind. *)
Definition round_frame (n : nat) (st st' : Driver.CompileState) : Prop :=
  exists added,
    Driver.st_kernels st' = Driver.st_kernels st ++ added
    /\ (length added <= 2 * n)%nat
    /\ (Driver.st_knum st <= Driver.st_knum st' <= Driver.st_knum st + n)%nat
    /\ same_signature (Driver.st_prog st) (Driver.st_prog st').

End Naming.

(* ================================================================= *)
(** ** The draws of kernel names *)

Module Draws.

(** Whether the loop body of [Compile] for op [i], when it returns
    normally from state [st], has called [next_kname()]: it does for a
    contraction op, for a special op that reaches [GenSpecial], and for
    an elementwise op that no earlier kernel computed; it does not for a
    constant, for a computed op, nor for a [prng_step] without a
    [prng_value] companion. *)
Definition draws_name (is_special : Function -> bool) (st : Driver.CompileState)
    (i : nat) : bool :=
  let op := op_at (Driver.st_prog st) i in
  match tag op with
  | CONTRACTION => true
  | CONSTANT => false
  | FUNCTION =>
      if NatSet.mem i (Driver.st_computed st) then false
      else if is_special (f op) then
        if String.eqb (fn (f op)) "prng_step" then
          let '(sout, vout, sout_pos, computed') :=
            Driver.prng_scan (output op) (skipn (S i) (ops (Driver.st_prog st))) (S i)
                             "" "" 0%nat (Driver.st_computed st) in
          negb (String.eqb vout "")
        else true
      else true
  end.

(** The kernels emitted under the name drawn at counter value [N]: at
    most one prelude kernel, named [zero_<kid>_<N>] or [copy_<kid>_<N>],
    followed by at most one other kernel, named [<kid>_<N>]. *)
Definition draw_group (kid : string) (N : nat) (g : list Driver.KernelInfo) : Prop :=
  exists pre main,
    g = pre ++ main
    /\ (length pre <= 1)%nat /\ (length main <= 1)%nat
    /\ Forall (fun k => Driver.is_prelude k = true /\ Driver.kernel_named kid N k) pre
    /\ Forall (fun k => Driver.is_prelude k = false /\ Driver.kernel_named kid N k) main.

(** The groups of the draws [N], [N + 1], ... in order. *)
Fixpoint draw_groups (kid : string) (N : nat) (groups : list (list Driver.KernelInfo))
    : Prop :=
  match groups with
  | [] => True
  | g :: rest => draw_group kid N g /\ draw_groups kid (S N) rest
  end.

End Draws.
(* ================================================================= *)
(** * Properties *)

(** ** Machine integers and basic data *)

Lemma u64_id (z : Z) : in_u64 z -> u64 z = z.
Proof. unfold in_u64, u64; intros H; apply Z.mod_small; exact H. Qed.

Lemma u64_range (z : Z) : in_u64 (u64 z).
Proof. unfold in_u64, u64; apply Z.mod_pos_bound; reflexivity. Qed.

Lemma u64_pos_i64 (z : Z) : in_i64 z -> 0 <= z -> u64 z = z.
Proof.
  unfold in_i64; intros [_ Hhi] Hlo; apply u64_id; unfold in_u64.
  assert (2 ^ 63 < 2 ^ 64) by reflexivity; lia.
Qed.

Lemma OpTag_eqb_eq (a b : OpTag) : OpTag_eqb a b = true <-> a = b.
Proof. destruct a, b; simpl; split; intros H; try reflexivity; discriminate H. Qed.


Lemma In_skipn {A : Type} (n : nat) (l : list A) (x : A) :
  In x (skipn n l) -> In x l.
Proof.
  intros H. rewrite <- (firstn_skipn n l). apply in_or_app. right. exact H.
Qed.

(* ================================================================= *)
(** ** NeedsZero *)

Section ZeroFacts.
Import Zero.

Variable flat : FlatContraction.

Lemma pattern_loop_none (idxs : list nat) (acc : list (Z * Z)) :
  pattern_loop flat idxs acc = None <->
  exists i, In i idxs /\ stride0 flat i < 0.
Proof.
  revert acc; induction idxs as [|i rest IH]; intros acc; simpl.
  - split; [discriminate | intros [i [[] _]]].
  - destruct (stride0 flat i =? 0) eqn:E0.
    + apply Z.eqb_eq in E0. rewrite IH. split.
      * intros [k [Hk Hneg]]. exists k; auto.
      * intros [k [[Hk | Hk] Hneg]]; [subst k; lia | exists k; auto].
    + destruct (stride0 flat i <? 0) eqn:Eneg.
      * apply Z.ltb_lt in Eneg. split; [intros _ | reflexivity].
        exists i; auto.
      * apply Z.ltb_ge in Eneg. rewrite IH. split.
        -- intros [k [Hk Hneg]]. exists k; auto.
        -- intros [k [[Hk | Hk] Hneg]]; [subst k; lia | exists k; auto].
Qed.

Lemma pattern_loop_some (idxs : list nat) (acc pat : list (Z * Z)) :
  pattern_loop flat idxs acc = Some pat ->
  pat = acc ++ map (fun i => (u64 (stride0 flat i), range_at flat i))
                   (filter (fun i => negb (stride0 flat i =? 0)) idxs).
Proof.
  revert acc; induction idxs as [|i rest IH]; intros acc; simpl.
  - intros H; injection H as <-. now rewrite app_nil_r.
  - destruct (stride0 flat i =? 0) eqn:E0; simpl.
    + apply IH.
    + destruct (stride0 flat i <? 0); [discriminate|].
      intros H. apply IH in H. rewrite H, <- app_assoc. reflexivity.
Qed.

Lemma cur_from_0 (start : Z) (ps : list (Z * Z)) : cur_from start 0 ps = start.
Proof. reflexivity. Qed.

Lemma cur_from_S (start : Z) (k : nat) (p : Z * Z) (ps : list (Z * Z)) :
  cur_from start (S k) (p :: ps) = cur_from (u64 (start * snd p)) k ps.
Proof. reflexivity. Qed.

Lemma walk_some (ps : list (Z * Z)) :
  forall start cur, walk start ps = Some cur ->
    cur = cur_from start (length ps) ps
    /\ forall k, (k < length ps)%nat -> cur_from start k ps = fst (nth k ps (0, 0)).
Proof.
  induction ps as [|p rest IH]; intros start cur; simpl.
  - intros H; injection H as <-. split; [reflexivity | intros k Hk; lia].
  - destruct (start =? fst p) eqn:E; simpl; [|discriminate].
    apply Z.eqb_eq in E. intros H. apply IH in H as [Hcur Hsteps].
    split; [exact Hcur|].
    intros [|k] Hk; [exact E|].
    rewrite cur_from_S. apply Hsteps. lia.
Qed.

Lemma walk_none (ps : list (Z * Z)) :
  forall start, walk start ps = None ->
    exists k, (k < length ps)%nat /\ cur_from start k ps <> fst (nth k ps (0, 0)).
Proof.
  induction ps as [|p rest IH]; intros start; simpl.
  - discriminate.
  - destruct (start =? fst p) eqn:E; simpl.
    + intros H. apply IH in H as [k [Hk Hne]].
      exists (S k). split; [lia | now rewrite cur_from_S].
    + intros _. apply Z.eqb_neq in E. exists 0%nat. split; [lia | exact E].
Qed.

Lemma firstn_snoc {A : Type} (d : A) (l : list A) :
  forall k, (k < length l)%nat -> firstn (S k) l = firstn k l ++ [nth k l d].
Proof.
  induction l as [|a t IH]; intros k Hk; simpl in Hk; [lia|].
  destruct k as [|k]; [reflexivity|].
  change (firstn (S (S k)) (a :: t)) with (a :: firstn (S k) t).
  rewrite (IH k) by lia. reflexivity.
Qed.

(** As long as the products fit in 64 bits the counter is the plain
    product of the ranges walked so far. *)
Lemma cur_from_plain (ps : list (Z * Z)) :
  (forall k, (k <= length ps)%nat -> in_u64 (plain_cur k ps)) ->
  forall k, (k <= length ps)%nat -> cur_from 1 k ps = plain_cur k ps.
Proof.
  intros Hfit. induction k as [|k IH]; intros Hk; [reflexivity|].
  unfold cur_from, plain_cur in *.
  rewrite (firstn_snoc (0, 0)) by lia. rewrite !fold_left_app. simpl.
  rewrite IH by lia. apply u64_id.
  specialize (Hfit (S k) Hk).
  rewrite (firstn_snoc (0, 0)), fold_left_app in Hfit by lia. exact Hfit.
Qed.

(** The walk of the source fails exactly when the specification's walk does. *)
Lemma walk_fails_iff (ps : list (Z * Z)) (limit : Z) :
  match walk 1 ps with
  | None => true
  | Some cur => negb (cur =? limit)
  end = true <-> walk_fails ps limit.
Proof.
  unfold walk_fails. destruct (walk 1 ps) as [cur|] eqn:W.
  - apply walk_some in W as [Hcur Hsteps]. rewrite negb_true_iff, Z.eqb_neq.
    split.
    + intros Hne. right. now rewrite <- Hcur.
    + intros [[k [Hk Hne]] | Hne].
      * exfalso. apply Hne, Hsteps, Hk.
      * now rewrite Hcur.
  - apply walk_none in W. split; [intros _; left; exact W | reflexivity].
Qed.

End ZeroFacts.

Section SortFacts.
Import Zero.

Lemma sort_insert_perm (p : Z * Z) (l : list (Z * Z)) :
  Permutation (sort_insert p l) (p :: l).
Proof.
  induction l as [|q t IH]; simpl.
  - apply Permutation_refl.
  - destruct (pair_ltb q p).
    + eapply perm_trans; [apply perm_skip, IH | apply perm_swap].
    + apply Permutation_refl.
Qed.

Lemma sort_pattern_perm (l : list (Z * Z)) : Permutation (sort_pattern l) l.
Proof.
  induction l as [|p t IH]; simpl.
  - apply perm_nil.
  - eapply perm_trans; [apply sort_insert_perm | apply perm_skip, IH].
Qed.

Lemma pair_ltb_false (q p : Z * Z) : pair_ltb q p = false -> pair_le p q.
Proof.
  unfold pair_ltb, pair_le. rewrite orb_false_iff, andb_false_iff, negb_false_iff.
  rewrite !Z.ltb_ge, Z.ltb_lt. lia.
Qed.

Lemma pair_ltb_true (q p : Z * Z) : pair_ltb q p = true -> pair_le q p.
Proof.
  unfold pair_ltb, pair_le. rewrite orb_true_iff, andb_true_iff, negb_true_iff.
  rewrite !Z.ltb_lt, Z.ltb_ge. lia.
Qed.

Lemma pair_le_trans (a b d : Z * Z) : pair_le a b -> pair_le b d -> pair_le a d.
Proof. unfold pair_le; lia. Qed.

Lemma sort_insert_sorted (p : Z * Z) (l : list (Z * Z)) :
  StronglySorted pair_le l -> StronglySorted pair_le (sort_insert p l).
Proof.
  induction l as [|q t IH]; simpl; intros Hs.
  - constructor; [constructor | constructor].
  - inversion Hs as [|? ? Ht Hq]; subst.
    destruct (pair_ltb q p) eqn:E.
    + constructor; [apply IH, Ht|].
      eapply Permutation_Forall; [apply Permutation_sym, sort_insert_perm|].
      constructor; [apply pair_ltb_true, E | exact Hq].
    + apply pair_ltb_false in E. constructor; [exact Hs|].
      constructor; [exact E|].
      eapply Forall_impl; [|exact Hq]. intros a Ha. eapply pair_le_trans; eauto.
Qed.

Lemma sort_pattern_sorted (l : list (Z * Z)) : StronglySorted pair_le (sort_pattern l).
Proof.
  induction l as [|p t IH]; simpl; [constructor | apply sort_insert_sorted, IH].
Qed.

Lemma sort_pattern_by_stride (l : list (Z * Z)) :
  StronglySorted (fun p q => fst p <= fst q) (sort_pattern l).
Proof.
  assert (H : forall s, StronglySorted pair_le s ->
                        StronglySorted (fun p q => fst p <= fst q) s).
  { induction 1 as [|a s Hs IH Ha]; constructor; [exact IH|].
    eapply Forall_impl; [|exact Ha]. unfold pair_le; intros; lia. }
  apply H, sort_pattern_sorted.
Qed.

End SortFacts.

Section ZeroClaims.
Import Zero.

Lemma stride0_i64 (flat : FlatContraction) (i : nat) :
  wf_flat flat -> in_i64 (stride0 flat i).
Proof.
  intros W. unfold stride0, access0.
  assert (Hin : In (nth 0 (access flat) default_access) (access flat)).
  { destruct (access flat) as [|a t] eqn:E; [now apply wf_access in W|].
    simpl; auto. }
  pose proof (wf_strides_i64 _ W) as HF. rewrite Forall_forall in HF.
  specialize (HF _ Hin). rewrite Forall_forall in HF.
  destruct (Nat.lt_ge_cases i (length (strides (nth 0 (access flat) default_access))))
    as [Hlt | Hge].
  - apply HF, nth_In, Hlt.
  - rewrite nth_overflow by exact Hge. unfold in_i64. split; [|reflexivity].
    apply Z.opp_nonpos_nonneg. apply Z.pow_nonneg. lia.
Qed.

(** Without a negative output stride, the pattern the source collects is
    the list of pairs of the specification. *)
Lemma pattern_is_nonzero_pairs (flat : FlatContraction) (pat : list (Z * Z)) :
  wf_flat flat ->
  pattern_loop flat (seq 0 (length (names flat))) [] = Some pat ->
  pat = nonzero_pairs flat.
Proof.
  intros W H.
  assert (Hnn : forall i, In i (seq 0 (length (names flat))) -> 0 <= stride0 flat i).
  { intros i Hi. destruct (Z.lt_ge_cases (stride0 flat i) 0) as [Hneg|]; [|assumption].
    assert (N : pattern_loop flat (seq 0 (length (names flat))) [] = None)
      by (apply pattern_loop_none; exists i; auto).
    rewrite N in H; discriminate. }
  apply pattern_loop_some in H. simpl in H. subst pat. unfold nonzero_pairs.
  apply map_ext_in. intros i Hi. apply filter_In in Hi as [Hi _].
  rewrite u64_pos_i64; [reflexivity | apply stride0_i64, W | apply Hnn, Hi].
Qed.

(** C3. For a well-formed flat contraction without constraints,
    [NeedsZero] returns true exactly when the output offset is nonzero,
    or some output stride is negative, or the contiguity walk fails: the
    pairs (stride, range) of the indices with nonzero output stride,
    sorted ascending by stride (the sorted list is a permutation of the
    pairs, ascending in the stride), are walked with the 64-bit counter
    [cur] starting at 1, and either some step finds [cur <> stride] or the
    final [cur] differs from [global_index_limit]. *)
Theorem NeedsZero_no_constraints (flat : FlatContraction) (ts : TensorShape) :
  wf_flat flat ->
  constraints flat = [] ->
  let sorted := sort_pattern (nonzero_pairs flat) in
  Permutation sorted (nonzero_pairs flat)
  /\ StronglySorted (fun p q => fst p <= fst q) sorted
  /\ (NeedsZero flat ts = true <->
      offset (access0 flat) <> 0
      \/ (exists i, (i < length (names flat))%nat /\ stride0 flat i < 0)
      \/ walk_fails sorted (global_index_limit (access0 flat))).
Proof.
  intros W Hc sorted. split; [apply sort_pattern_perm|].
  split; [apply sort_pattern_by_stride|].
  unfold NeedsZero. rewrite Hc. simpl existsb. cbv iota.
  destruct (offset (access0 flat) =? 0) eqn:Eoff; simpl negb; cbv iota.
  - apply Z.eqb_eq in Eoff.
    destruct (pattern_loop flat (seq 0 (length (names flat))) []) as [pat|] eqn:P.
    + pose proof (pattern_is_nonzero_pairs _ _ W P) as ->. fold sorted.
      rewrite walk_fails_iff. split; [auto|].
      intros [Hoff | [[i [Hi Hneg]] | Hw]]; [contradiction | | exact Hw].
      assert (N : pattern_loop flat (seq 0 (length (names flat))) [] = None).
      { apply pattern_loop_none. exists i. split; [|exact Hneg].
        apply in_seq. lia. }
      rewrite N in P; discriminate.
    + apply pattern_loop_none in P as [i [Hi Hneg]]. apply in_seq in Hi.
      split; [intros _ | reflexivity].
      right; left. exists i. split; [lia | exact Hneg].
  - apply Z.eqb_neq in Eoff. split; [auto | reflexivity].
Qed.

Lemma output_only_iff (flat : FlatContraction) (fc : FlatConstraint) :
  output_only flat fc = true <-> code_output_only flat fc.
Proof.
  unfold output_only, code_output_only. rewrite negb_true_iff. split.
  - intros H i Hi Hl Hs.
    assert (E : existsb (fun i => negb (nth i (lhs fc) 0 =? 0) && (stride0 flat i =? 0))
                  (seq 0 (length (names flat))) = true).
    { apply existsb_exists. exists i. split; [apply in_seq; lia|].
      apply andb_true_iff. split.
      - apply negb_true_iff, Z.eqb_neq, Hl.
      - apply Z.eqb_eq, Hs. }
    rewrite E in H; discriminate.
  - intros H. apply not_true_is_false. intros E.
    apply existsb_exists in E as [i [Hi E]]. apply in_seq in Hi.
    apply andb_true_iff in E as [El Es].
    apply negb_true_iff, Z.eqb_neq in El. apply Z.eqb_eq in Es.
    apply (H i); [lia | exact El | exact Es].
Qed.

(** C2, as the source has it. A flat contraction with a constraint all of
    whose indices are output indices (every index with a nonzero
    coefficient has a nonzero output stride) needs zeroing. *)
Theorem NeedsZero_output_only (flat : FlatContraction) (ts : TensorShape)
    (fc : FlatConstraint) :
  In fc (constraints flat) ->
  code_output_only flat fc ->
  NeedsZero flat ts = true.
Proof.
  intros Hin Hoo. unfold NeedsZero.
  destruct (negb (offset (access0 flat) =? 0)); [reflexivity|].
  destruct (pattern_loop flat (seq 0 (length (names flat))) []); [|reflexivity].
  assert (E : existsb (output_only flat) (constraints flat) = true).
  { apply existsb_exists. exists fc. split; [exact Hin | now apply output_only_iff]. }
  now rewrite E.
Qed.

End ZeroClaims.

(* ================================================================= *)
(** ** Well-formedness of the concrete flat contractions *)

Ltac wf_flat_tac :=
  constructor; simpl;
  repeat (first [ apply Forall_nil | apply Forall_cons ]);
  unfold in_i64, in_u64; simpl; try discriminate; try reflexivity; try lia.

Lemma wf_flat_copy : wf_flat Examples.flat_copy.
Proof. wf_flat_tac. Qed.

Lemma wf_flat_broadcast : wf_flat Examples.flat_broadcast.
Proof. wf_flat_tac. Qed.

Lemma wf_flat_reduce_constrained : wf_flat Examples.flat_reduce_constrained.
Proof. wf_flat_tac. Qed.

(* ================================================================= *)
(** ** SimplifyFlat *)

Section SimplifyFacts.
Import Simplify.

(** A pair of indices that every access matches perfectly is merged. *)
Example SimplifyFlat_copy :
  SimplifyFlat Examples.flat_copy =
  (true, Examples.plain_flat ["i_j"] [16]
           [Examples.out_access [1] 16; Examples.out_access [1] 16] []).
Proof. vm_compute. reflexivity. Qed.

(** What [is_safe] computes: the perfect match alone. *)
Lemma is_safe_perfect_match (i j : nat) (i_stride j_stride : Z) (a : FlatTensorAccess) :
  is_safe i j i_stride j_stride a =
  (u64 (nth i (strides a) 0) =? i_stride) && (u64 (nth j (strides a) 0) =? j_stride).
Proof. unfold is_safe. apply orb_diag. Qed.

(** C1. On [flat_broadcast] the pair (0, 1) is a merge candidate and the
    only other access has stride 0 at both indices, so the rule of the
    specification asks for the merge; [SimplifyFlat] reports "unchanged"
    and leaves the flat contraction as it was. *)
Theorem SimplifyFlat_both_zeros_not_merged :
  wf_flat Examples.flat_broadcast
  /\ spec_candidate Examples.flat_broadcast 0 1
  /\ Forall (spec_safe Examples.flat_broadcast 0 1)
            (other_accesses Examples.flat_broadcast)
  /\ SimplifyFlat Examples.flat_broadcast = (false, Examples.flat_broadcast).
Proof.
  split; [exact wf_flat_broadcast|].
  split; [repeat split; vm_compute; discriminate|].
  split; [|vm_compute; reflexivity].
  constructor; [|constructor]. right. split; reflexivity.
Qed.

(** *** The loop around [SimplifyFlat] ends within its bound *)

Lemma set_nth_length {A : Type} (i : nat) (x : A) (l : list A) :
  length (set_nth i x l) = length l.
Proof.
  revert i; induction l as [|h t IH]; intros [|i]; simpl; auto.
Qed.

Lemma erase_length {A : Type} (i : nat) (l : list A) :
  (i < length l)%nat -> S (length (erase i l)) = length l.
Proof.
  intros Hi. unfold erase. rewrite length_app, length_firstn, length_skipn. lia.
Qed.

Lemma j_loop_some (flat flat' : FlatContraction) (i : nat) (i_stride : Z)
    (js : list nat) :
  j_loop flat i i_stride js = Some flat' ->
  exists j, flat' = combine_indexes flat i j.
Proof.
  induction js as [|j rest IH]; simpl; [discriminate|].
  destruct (u64 (stride0 flat j) =? 0); [exact IH|].
  destruct (negb (i_stride =? _)); [exact IH|].
  destruct (negb (all_good _ _ _ _ _)); [exact IH|].
  intros H; injection H as <-. exists j. reflexivity.
Qed.

Lemma i_loop_some (flat flat' : FlatContraction) (sz : nat) (idxs : list nat) :
  i_loop flat sz idxs = Some flat' ->
  exists i j, In i idxs /\ flat' = combine_indexes flat i j.
Proof.
  induction idxs as [|i rest IH]; simpl; [discriminate|].
  assert (Hrest : i_loop flat sz rest = Some flat' ->
                  exists i0 j, (i = i0 \/ In i0 rest) /\ flat' = combine_indexes flat i0 j).
  { intros H. destruct (IH H) as [i0 [j [Hin E]]]. exists i0, j. auto. }
  destruct (u64 (stride0 flat i) =? 0); [exact Hrest|].
  destruct (j_loop flat i _ _) as [fl|] eqn:Hj; [|exact Hrest].
  intros H; injection H as <-. apply j_loop_some in Hj as [j E].
  exists i, j. auto.
Qed.

(** A merge removes one index. *)
Lemma SimplifyFlat_shrinks (flat flat' : FlatContraction) :
  SimplifyFlat flat = (true, flat') ->
  S (length (ranges flat')) = length (ranges flat).
Proof.
  unfold SimplifyFlat. destruct (0 <? _)%nat; [discriminate|].
  destruct (i_loop _ _ _) as [fl|] eqn:Hi; [|discriminate].
  intros H; injection H as <-.
  apply i_loop_some in Hi as [i [j [Hin ->]]]. apply in_seq in Hin.
  simpl. rewrite erase_length; [apply set_nth_length | rewrite set_nth_length; lia].
Qed.

Lemma SimplifyFlat_unchanged (flat flat' : FlatContraction) :
  SimplifyFlat flat = (false, flat') -> flat' = flat.
Proof.
  unfold SimplifyFlat. destruct (0 <? _)%nat; [now intros H; injection H|].
  destruct (i_loop _ _ _); [discriminate | now intros H; injection H].
Qed.

Lemma simplify_loop_stable (fuel : nat) :
  forall flat, (length (ranges flat) < fuel)%nat ->
    fst (SimplifyFlat (simplify_loop fuel flat)) = false.
Proof.
  induction fuel as [|fuel IH]; intros flat Hlen; [lia|]. simpl.
  destruct (SimplifyFlat flat) as [[|] flat'] eqn:Hs.
  - apply IH. apply SimplifyFlat_shrinks in Hs. lia.
  - apply SimplifyFlat_unchanged in Hs as E. subst flat'. now rewrite Hs.
Qed.

(** What [simplify_all] returns is what the loop of the source leaves:
    a flat contraction on which [SimplifyFlat] reports "unchanged". *)
Lemma simplify_all_stable (flat : FlatContraction) :
  fst (SimplifyFlat (simplify_all flat)) = false.
Proof. apply simplify_loop_stable. lia. Qed.

End SimplifyFacts.

(* ================================================================= *)
(** ** NeedsZero on concrete flat contractions *)

Section ZeroConcrete.
Import Zero.

Lemma NeedsZero_no_constraints_witness :
  NeedsZero Examples.flat_copy Examples.no_shape = true <->
  offset (access0 Examples.flat_copy) <> 0
  \/ (exists i, (i < length (names Examples.flat_copy))%nat
                /\ stride0 Examples.flat_copy i < 0)
  \/ walk_fails (sort_pattern (nonzero_pairs Examples.flat_copy))
                (global_index_limit (access0 Examples.flat_copy)).
Proof.
  exact (proj2 (proj2 (NeedsZero_no_constraints Examples.flat_copy Examples.no_shape
                         wf_flat_copy eq_refl))).
Defined.

Lemma code_output_only_example :
  code_output_only Examples.flat_output_constrained (mkConstraint [1; 0] 3).
Proof.
  intros i Hi Hl. simpl in Hi.
  destruct i as [|[|i]]; [discriminate | exfalso; apply Hl; reflexivity | lia].
Qed.

Lemma NeedsZero_output_only_witness :
  NeedsZero Examples.flat_output_constrained Examples.no_shape = true.
Proof.
  apply (NeedsZero_output_only Examples.flat_output_constrained Examples.no_shape
           (mkConstraint [1; 0] 3)).
  - simpl. left. reflexivity.
  - exact code_output_only_example.
Defined.

(** C2 as stated fails: the constraint [j < 3] of
    [flat_reduce_constrained] mentions only the index [j], whose output
    stride is 0, so it is output-only in the specification's sense; the
    source does not ask for zeroing. *)
Lemma NeedsZero_spec_output_only_counterexample :
  ~ (forall (flat : FlatContraction) (ts : TensorShape) (fc : FlatConstraint),
        wf_flat flat ->
        In fc (constraints flat) -> spec_output_only flat fc ->
        NeedsZero flat ts = true).
Proof.
  intros H.
  specialize (H Examples.flat_reduce_constrained Examples.no_shape (mkConstraint [0; 1] 3)).
  assert (E : NeedsZero Examples.flat_reduce_constrained Examples.no_shape = false)
    by (vm_compute; reflexivity).
  rewrite H in E; [discriminate | exact wf_flat_reduce_constrained | simpl; auto |].
  intros i Hi Hl. simpl in Hi.
  destruct i as [|[|i]]; [exfalso; apply Hl; reflexivity | reflexivity | lia].
Qed.

End ZeroConcrete.

(* ================================================================= *)
(** ** Sets of op indices *)

Lemma NatSet_mem_In (x : nat) (s : NatSet.t) : NatSet.mem x s = true <-> In x s.
Proof.
  unfold NatSet.mem. rewrite existsb_exists. split.
  - intros [y [Hy E]]. apply Nat.eqb_eq in E. now subst.
  - intros H. exists x. split; [exact H | apply Nat.eqb_refl].
Qed.

Lemma NatSet_mem_false (x : nat) (s : NatSet.t) : NatSet.mem x s = false <-> ~ In x s.
Proof.
  rewrite <- NatSet_mem_In. destruct (NatSet.mem x s); split; congruence.
Qed.

Lemma NatSet_insert_In (x y : nat) (s : NatSet.t) :
  In y (NatSet.insert x s) <-> y = x \/ In y s.
Proof.
  induction s as [|z rest IH]; simpl.
  - intuition.
  - destruct (x <? z)%nat; [simpl; intuition|].
    destruct (x =? z)%nat eqn:E.
    + apply Nat.eqb_eq in E. subst. simpl. intuition.
    + simpl. rewrite IH. intuition.
Qed.

Lemma NatSet_insert_all_In (xs : list nat) (y : nat) (s : NatSet.t) :
  In y (NatSet.insert_all xs s) <-> In y xs \/ In y s.
Proof.
  unfold NatSet.insert_all. revert s; induction xs as [|x rest IH]; intros s; simpl.
  - intuition.
  - rewrite IH, NatSet_insert_In. intuition.
Qed.

(* ================================================================= *)
(** ** The unification planner *)

Section PlannerFacts.
Import Planner.

Variable is_special : Function -> bool.
Variable prog : Program.
Variable vars : Bindings.
Variable root_opidx : nat.
Variable previously_computed : NatSet.t.
Variable ud : UseDef.

Let can_unify := OpCanBeUnified is_special prog vars root_opidx.
Let inputs_ok := inputs_ok is_special prog vars root_opidx previously_computed ud.
Let candidates_inv :=
  candidates_inv is_special prog vars root_opidx previously_computed ud.
Let unified_closed :=
  unified_closed is_special prog vars root_opidx previously_computed ud.

(** An op that is not a function is rejected before any lookup. *)
Lemma OpCanBeUnified_not_function (i : nat) :
  tag (op_at prog i) <> FUNCTION -> can_unify i = Ok false.
Proof.
  intros H. unfold can_unify, OpCanBeUnified.
  destruct (OpTag_eqb (tag (op_at prog i)) FUNCTION) eqn:E; [|reflexivity].
  apply OpTag_eqb_eq in E. contradiction.
Qed.

Lemma inputs_ok_mono (S S' : nat -> Prop) (ins : list string) :
  (forall i, S i -> S' i) -> inputs_ok S ins -> inputs_ok S' ins.
Proof.
  intros Hsub H input i Hin Hdef Hroot.
  destruct (H input i Hin Hdef Hroot) as [Hs | Hr]; [left; auto | right; exact Hr].
Qed.

Lemma input_loop_spec (unified : NatSet.t) (ins : list string) :
  forall candidates frontier candidates' frontier',
    input_loop is_special prog vars root_opidx previously_computed ud
               unified ins candidates frontier = Ok (Some (candidates', frontier')) ->
    (forall x, In x candidates -> In x candidates')
    /\ (forall x, In x frontier -> In x frontier')
    /\ (forall x, In x candidates' -> In x candidates \/ In x frontier')
    /\ inputs_ok (fun i => In i unified \/ In i candidates') ins.
Proof.
  induction ins as [|input rest IH]; intros C F C' F'; simpl.
  - intros H; injection H as <- <-.
    repeat split; auto. intros input i [].
  - assert (Hskip :
      forall i, find input (op_defs ud) = None \/
                (find input (op_defs ud) = Some i /\
                 ((i < root_opidx)%nat \/ In i unified \/ In i C
                  \/ In i previously_computed \/ can_unify i = Ok false)) ->
      input_loop is_special prog vars root_opidx previously_computed ud
                 unified rest C F = Ok (Some (C', F')) ->
      (forall x, In x C -> In x C')
      /\ (forall x, In x F -> In x F')
      /\ (forall x, In x C' -> In x C \/ In x F')
      /\ inputs_ok (fun i => In i unified \/ In i C') (input :: rest)).
    { intros i Hcase Hrest. apply IH in Hrest as [H1 [H2 [H3 H4]]].
      repeat split; auto.
      intros inp j [<- | Hin] Hdef Hroot; [|apply (H4 inp j Hin Hdef Hroot)].
      destruct Hcase as [Hnone | [Hsome Hwhy]]; [congruence|].
      rewrite Hsome in Hdef. injection Hdef as <-.
      destruct Hwhy as [Hlt | [Hu | [Hc | [Hp | Hn]]]]; [lia | | | |]; auto. }
    destruct (find input (op_defs ud)) as [i|] eqn:Hdef; [|apply (Hskip 0%nat); auto].
    destruct (_ || _ || _ || _) eqn:Eskip.
    { apply (Hskip i). right. split; [reflexivity|].
      rewrite !orb_true_iff, Nat.ltb_lt, !NatSet_mem_In in Eskip. tauto. }
    destruct (OpTag_eqb (tag (op_at prog i)) CONSTANT) eqn:Etag.
    { apply (Hskip i). right. split; [reflexivity|].
      apply OpTag_eqb_eq in Etag. do 4 right.
      apply OpCanBeUnified_not_function. rewrite Etag. discriminate. }
    fold can_unify. destruct (can_unify i) as [[|]|e] eqn:Hcan; simpl;
      [|discriminate|discriminate].
    intros Hrest. apply IH in Hrest as [H1 [H2 [H3 H4]]].
    split; [intros x Hx; apply H1, NatSet_insert_In; auto|].
    split; [intros x Hx; apply H2; right; exact Hx|].
    split.
    + intros x Hx. destruct (H3 x Hx) as [Hc | Hf]; [|auto].
      apply NatSet_insert_In in Hc as [-> | Hc]; [|auto].
      right. apply H2. left. reflexivity.
    + intros inp j [<- | Hin] Hd Hroot; [|apply (H4 inp j Hin Hd Hroot)].
      rewrite Hdef in Hd. injection Hd as <-.
      left. right. apply H1, NatSet_insert_In. auto.
Qed.

Lemma candidate_loop_spec (fuel : nat) (unified : NatSet.t) :
  forall candidates frontier result,
    candidate_loop is_special prog vars root_opidx previously_computed ud
                   fuel unified candidates frontier = Ok (Some result) ->
    candidates_inv unified candidates frontier ->
    forall x, In x result ->
      inputs_ok (fun i => In i unified \/ In i result) (inputs (op_at prog x)).
Proof.
  induction fuel as [|fuel IH]; intros C F R; destruct F as [|x0 F]; simpl.
  - intros H Hinv; injection H as <-. intros x Hx.
    destruct (Hinv x Hx) as [[] | Hok]; exact Hok.
  - discriminate.
  - intros H Hinv; injection H as <-. intros x Hx.
    destruct (Hinv x Hx) as [[] | Hok]; exact Hok.
  - destruct (input_loop _ _ _ _ _ _ _ _ _ _) as [[[C' F']|]|e] eqn:Hin; simpl;
      [|discriminate|discriminate].
    intros Hloop Hinv. apply input_loop_spec in Hin as [H1 [H2 [H3 H4]]].
    apply (IH _ _ _ Hloop).
    intros x Hx. destruct (H3 x Hx) as [Hc | Hf]; [|left; exact Hf].
    destruct (Hinv x Hc) as [[<- | Hf] | Hok].
    + right. exact H4.
    + left. apply H2, Hf.
    + right. eapply inputs_ok_mono; [|exact Hok].
      intros i [Hu | Hi]; [left; exact Hu | right; apply H1, Hi].
Qed.

Lemma uses_loop_closed (fuel : nat) (consumers : list nat) :
  forall unified frontier unified' frontier',
    uses_loop is_special prog vars root_opidx previously_computed ud
              fuel consumers unified frontier = Ok (unified', frontier') ->
    unified_closed unified -> unified_closed unified'.
Proof.
  induction consumers as [|c_start rest IH]; intros U F U' F'; simpl.
  - intros H Hc; injection H as <- <-. exact Hc.
  - destruct (NatSet.mem c_start U); [apply IH|].
    fold can_unify. destruct (can_unify c_start) as [ok|e]; simpl; [|discriminate].
    destruct (negb ok || NatSet.mem c_start previously_computed); [apply IH|].
    destruct (candidate_loop _ _ _ _ _ _ _ _ _ _) as [[R|]|e] eqn:Hcand; simpl;
      [|apply IH|discriminate].
    intros Hloop Hc. apply (IH _ _ _ _ Hloop).
    assert (HR : forall x, In x R ->
                 inputs_ok (fun i => In i U \/ In i R) (inputs (op_at prog x))).
    { apply (candidate_loop_spec _ _ _ _ _ Hcand).
      intros x [<- | []]. left. left. reflexivity. }
    intros u Hu Hne. apply NatSet_insert_all_In in Hu as [Hu | Hu].
    + eapply inputs_ok_mono; [|apply (HR u Hu)].
      intros i Hi. cbv beta in Hi. apply NatSet_insert_all_In. tauto.
    + eapply inputs_ok_mono; [|apply (Hc u Hu Hne)].
      intros i Hi. cbv beta in Hi. apply NatSet_insert_all_In. tauto.
Qed.

Lemma frontier_loop_closed (fuel : nat) :
  forall unified frontier result,
    frontier_loop is_special prog vars root_opidx previously_computed ud
                  fuel unified frontier = Ok result ->
    unified_closed unified -> unified_closed result.
Proof.
  induction fuel as [|fuel IH]; intros U F R; destruct F as [|u F]; simpl.
  - intros H Hc; injection H as <-. exact Hc.
  - discriminate.
  - intros H Hc; injection H as <-. exact Hc.
  - destruct (at_ (uses ud) _) as [consumers|e]; simpl; [|discriminate].
    destruct (uses_loop _ _ _ _ _ _ _ _ _ _) as [[U' F']|e] eqn:Hu; simpl;
      [|discriminate].
    intros Hloop Hc. apply (IH _ _ _ Hloop).
    apply (uses_loop_closed _ _ _ _ _ _ Hu Hc).
Qed.

(** C5, as the source has it. When the planner returns [U], every input
    of an op of [U] other than the root that is a tensor defined by an op
    [i >= root_opidx] has [i] in [U], or [i] among the ops computed by
    earlier kernels, or [i] rejected by [OpCanBeUnified]. *)
Theorem ConnectedComponents_closure (U : NatSet.t) :
  ConnectedComponents is_special prog vars root_opidx previously_computed ud = Ok U ->
  closure is_special prog vars root_opidx previously_computed ud U.
Proof.
  unfold ConnectedComponents. intros H.
  apply frontier_loop_closed in H.
  - intros u Hu Hne input i Hin [_ [Hdef Hroot]].
    apply (H u Hu Hne input i Hin Hdef Hroot).
  - intros u [<- | []] Hne. contradiction.
Qed.

End PlannerFacts.

(* ================================================================= *)
(** ** The loops of the planner end within their bound *)

Lemma find_In_values {V : Type} (k : string) (m : list (string * V)) (v : V) :
  find k m = Some v -> In v (map snd m).
Proof.
  induction m as [|[k' v'] rest IH]; simpl; [discriminate|].
  destruct (String.eqb k k'); [intros H; injection H as <-; auto | auto].
Qed.

Lemma filter_length_mono {A : Type} (p q : A -> bool) (l : list A) :
  (forall x, In x l -> p x = true -> q x = true) ->
  (length (filter p l) <= length (filter q l))%nat.
Proof.
  induction l as [|a rest IH]; intros H; simpl; [lia|].
  assert (IH' : (length (filter p rest) <= length (filter q rest))%nat)
    by (apply IH; intros x Hx; apply H; right; exact Hx).
  destruct (p a) eqn:Ep.
  - rewrite (H a (or_introl eq_refl) Ep). simpl. lia.
  - destruct (q a); simpl; lia.
Qed.

Lemma filter_length_lt {A : Type} (p q : A -> bool) (l : list A) (a : A) :
  (forall x, In x l -> p x = true -> q x = true) ->
  In a l -> p a = false -> q a = true ->
  (length (filter p l) < length (filter q l))%nat.
Proof.
  induction l as [|b rest IH]; intros H Hin Hp Hq; simpl; [destruct Hin|].
  assert (Hrest : forall x, In x rest -> p x = true -> q x = true)
    by (intros x Hx; apply H; right; exact Hx).
  pose proof (filter_length_mono p q rest Hrest) as Hle.
  destruct Hin as [-> | Hin].
  - rewrite Hp, Hq. simpl. lia.
  - specialize (IH Hrest Hin Hp Hq).
    destruct (p b) eqn:Ep.
    + rewrite (H b (or_introl eq_refl) Ep). simpl. lia.
    + destruct (q b); simpl; lia.
Qed.

Lemma NatSet_insert_length (x : nat) (s : NatSet.t) :
  ~ In x s -> length (NatSet.insert x s) = S (length s).
Proof.
  induction s as [|y rest IH]; simpl; intros Hn; [reflexivity|].
  destruct (x <? y)%nat; [reflexivity|].
  destruct (x =? y)%nat eqn:E.
  - apply Nat.eqb_eq in E. subst. exfalso. apply Hn. left. reflexivity.
  - simpl. rewrite IH; [reflexivity|]. intros H. apply Hn. right. exact H.
Qed.

Section PlannerFuel.
Import Planner.

Variable is_special : Function -> bool.
Variable prog : Program.
Variable vars : Bindings.
Variable root_opidx : nat.
Variable previously_computed : NatSet.t.
Variable ud : UseDef.

Let universe := ud_indices ud.

Let room := room ud.

Lemma room_insert (unified candidates : NatSet.t) (i : nat) :
  In i universe -> ~ In i unified -> ~ In i candidates ->
  (S (room unified (NatSet.insert i candidates)) <= room unified candidates)%nat.
Proof.
  intros Hi Hu Hc. unfold room, Planner.room. apply (filter_length_lt _ _ _ i).
  - intros x _. rewrite !andb_true_iff, !negb_true_iff, !NatSet_mem_false,
      NatSet_insert_In. tauto.
  - exact Hi.
  - apply andb_false_iff. right. apply negb_false_iff, NatSet_mem_In,
      NatSet_insert_In. auto.
  - apply andb_true_iff. split; apply negb_true_iff, NatSet_mem_false; assumption.
Qed.

Lemma room_commit (unified candidates : NatSet.t) :
  room (NatSet.insert_all candidates unified) [] = room unified candidates.
Proof.
  unfold room, Planner.room. apply (f_equal (@length nat)). apply filter_ext. intros x.
  simpl. rewrite andb_true_r.
  destruct (NatSet.mem x (NatSet.insert_all candidates unified)) eqn:E.
  - apply NatSet_mem_In, NatSet_insert_all_In in E. symmetry.
    apply andb_false_iff. destruct E as [E | E]; [right | left];
      apply negb_false_iff, NatSet_mem_In, E.
  - apply NatSet_mem_false in E. rewrite NatSet_insert_all_In in E. symmetry.
    apply andb_true_iff. split; apply negb_true_iff, NatSet_mem_false; tauto.
Qed.

Lemma room_le_universe (unified candidates : NatSet.t) :
  (room unified candidates <= length universe)%nat.
Proof. unfold room, Planner.room. apply List.filter_length_le. Qed.

Lemma at_no_fuel {V : Type} (m : list (string * V)) (k : string) :
  at_ m k <> Err out_of_fuel.
Proof. unfold at_. destruct (find k m); discriminate. Qed.

Lemma inputs_compatible_no_fuel (root_out : Binding) (ins : list string) :
  inputs_compatible vars root_out ins <> Err out_of_fuel.
Proof.
  induction ins as [|input rest IH]; simpl; [discriminate|].
  pose proof (at_no_fuel vars input) as Ha.
  destruct (at_ vars input) as [b|e]; simpl; [|congruence].
  destruct (negb (is_tensor (btag b))); [exact IH|].
  destruct (negb _); [discriminate | exact IH].
Qed.

Lemma OpCanBeUnified_no_fuel (i : nat) :
  OpCanBeUnified is_special prog vars root_opidx i <> Err out_of_fuel.
Proof.
  unfold OpCanBeUnified. destruct (_ || _); [discriminate|].
  pose proof (at_no_fuel vars (output (op_at prog root_opidx))) as H1.
  destruct (at_ vars (output (op_at prog root_opidx))) as [rb|e]; simpl; [|congruence].
  pose proof (at_no_fuel vars (output (op_at prog i))) as H2.
  destruct (at_ vars (output (op_at prog i))) as [tb|e]; simpl; [|congruence].
  destruct (DifferentSize rb tb); [discriminate | apply inputs_compatible_no_fuel].
Qed.

Lemma input_loop_room (unified : NatSet.t) (ins : list string) :
  forall candidates frontier,
    match input_loop is_special prog vars root_opidx previously_computed ud
                     unified ins candidates frontier with
    | Ok (Some (candidates', frontier')) =>
        (length frontier' + room unified candidates'
         <= length frontier + room unified candidates)%nat
        /\ (length candidates' + room unified candidates'
            <= length candidates + room unified candidates)%nat
    | Ok None => True
    | Err e => e <> out_of_fuel
    end.
Proof.
  induction ins as [|input rest IH]; intros C F; simpl; [lia|].
  destruct (find input (op_defs ud)) as [i|] eqn:Hdef; [|apply IH].
  destruct (_ || _ || _ || _) eqn:Eskip; [apply IH|].
  destruct (OpTag_eqb _ CONSTANT); [apply IH|].
  pose proof (OpCanBeUnified_no_fuel i) as Hnf.
  destruct (OpCanBeUnified _ _ _ _ i) as [[|]|e]; simpl; [|exact I|congruence].
  rewrite !orb_false_iff, !NatSet_mem_false in Eskip.
  destruct Eskip as [[[_ Hu] Hc] _].
  assert (Hi : In i universe).
  { unfold universe, ud_indices. apply in_or_app. left.
    eapply find_In_values, Hdef. }
  pose proof (room_insert unified C i Hi Hu Hc) as Hroom.
  pose proof (NatSet_insert_length i C Hc) as Hlen.
  specialize (IH (NatSet.insert i C) (i :: F)).
  destruct (input_loop _ _ _ _ _ _ _ _ _ _) as [[[C' F']|]|e]; [|exact I|exact IH].
  simpl in IH. lia.
Qed.

Lemma candidate_loop_room (fuel : nat) (unified : NatSet.t) :
  forall candidates frontier,
    (length frontier + room unified candidates <= fuel)%nat ->
    match candidate_loop is_special prog vars root_opidx previously_computed ud
                         fuel unified candidates frontier with
    | Ok (Some result) =>
        (length result + room unified result
         <= length candidates + room unified candidates)%nat
    | Ok None => True
    | Err e => e <> out_of_fuel
    end.
Proof.
  induction fuel as [|fuel IH]; intros C F Hfuel; destruct F as [|x F]; simpl in *;
    try lia.
  pose proof (input_loop_room unified (inputs (op_at prog x)) C F) as Hin.
  destruct (input_loop _ _ _ _ _ _ _ _ _ _) as [[[C' F']|]|e]; simpl;
    [|exact I|exact Hin].
  destruct Hin as [Hf Hc].
  specialize (IH C' F' ltac:(lia)).
  destruct (candidate_loop _ _ _ _ _ _ _ _ _ _) as [[R|]|e]; [lia | exact I | exact IH].
Qed.

Lemma push_all_length (xs st : list nat) :
  length (fold_left (fun st c => c :: st) xs st) = (length xs + length st)%nat.
Proof.
  revert st; induction xs as [|x rest IH]; intros st; simpl; [reflexivity|].
  rewrite IH. simpl. lia.
Qed.

Lemma uses_loop_room (fuel : nat) (consumers : list nat) :
  forall unified frontier,
    (forall x, In x consumers -> In x universe) ->
    (room unified [] <= fuel)%nat ->
    match uses_loop is_special prog vars root_opidx previously_computed ud
                    fuel consumers unified frontier with
    | Ok (unified', frontier') =>
        (length frontier' + room unified' [] <= length frontier + room unified [])%nat
    | Err e => e <> out_of_fuel
    end.
Proof.
  induction consumers as [|c_start rest IH]; intros U F Hcs Hfuel; simpl; [lia|].
  assert (Hrest : forall x, In x rest -> In x universe)
    by (intros x Hx; apply Hcs; right; exact Hx).
  destruct (NatSet.mem c_start U) eqn:Hmem; [apply IH; assumption|].
  pose proof (OpCanBeUnified_no_fuel c_start) as Hnf.
  destruct (OpCanBeUnified _ _ _ _ c_start) as [ok|e]; simpl; [|congruence].
  destruct (negb ok || _); [apply IH; assumption|].
  apply NatSet_mem_false in Hmem.
  pose proof (room_insert U [] c_start (Hcs _ (or_introl eq_refl)) Hmem
                ltac:(intros [])) as Hstart.
  simpl in Hstart.
  pose proof (candidate_loop_room fuel U [c_start] [c_start]) as Hcand.
  simpl in Hcand. specialize (Hcand ltac:(lia)).
  destruct (candidate_loop _ _ _ _ _ _ _ _ _ _) as [[R|]|e]; simpl;
    [|apply IH; assumption|exact Hcand].
  pose proof (room_commit U R) as Hcommit.
  specialize (IH (NatSet.insert_all R U)
                 (fold_left (fun st c => c :: st) R F) Hrest ltac:(lia)).
  destruct (uses_loop _ _ _ _ _ _ _ _ _ _) as [[U' F']|e]; [|exact IH].
  rewrite push_all_length in IH. lia.
Qed.

Lemma frontier_loop_room (fuel : nat) :
  forall unified frontier,
    (length frontier + room unified [] <= fuel)%nat ->
    forall e, frontier_loop is_special prog vars root_opidx previously_computed ud
                            fuel unified frontier = Err e ->
              e <> out_of_fuel.
Proof.
  induction fuel as [|fuel IH]; intros U F Hfuel e; destruct F as [|u F]; simpl in *;
    try discriminate; try lia.
  pose proof (at_no_fuel (uses ud) (output (op_at prog u))) as Hat.
  destruct (at_ (uses ud) _) as [consumers|e'] eqn:Hfind; simpl;
    [|intros H; injection H as <-; congruence].
  assert (Hcs : forall x, In x consumers -> In x universe).
  { intros x Hx. unfold universe, ud_indices. apply in_or_app. right.
    apply in_concat. exists consumers. split; [|exact Hx].
    unfold at_ in Hfind. destruct (find _ (uses ud)) as [v|] eqn:Hf; [|discriminate].
    injection Hfind as ->. eapply find_In_values, Hf. }
  pose proof (uses_loop_room (S fuel) consumers U F Hcs ltac:(lia)) as Hu.
  destruct (uses_loop _ _ _ _ _ _ _ _ _ _) as [[U' F']|e']; simpl;
    [|intros H; injection H as <-; exact Hu].
  apply IH. lia.
Qed.

(** The bound [components_fuel] is never the reason for
    [ConnectedComponents] to stop. *)
Lemma ConnectedComponents_fuel :
  ConnectedComponents is_special prog vars root_opidx previously_computed ud
  <> Err out_of_fuel.
Proof.
  unfold ConnectedComponents. intros H.
  apply frontier_loop_room in H; [congruence|].
  unfold components_fuel. simpl.
  pose proof (room_le_universe [root_opidx] []). unfold universe in *. lia.
Qed.

End PlannerFuel.

(* ================================================================= *)
(** ** The planner on a concrete program *)

Section PlannerConcrete.
Import Planner Examples.

(** The kernel rooted at op 0 of [prog_two_roots] absorbs op 2. *)
Example components_first_root :
  components_with vars_two_roots prog_two_roots 0 [] = Ok [0; 2]%nat.
Proof. vm_compute. reflexivity. Qed.

Lemma ConnectedComponents_closure_witness :
  closure is_special_std prog_two_roots vars_two_roots 1 [0; 2]%nat
          (mk_usedef prog_two_roots) [1; 3]%nat.
Proof.
  apply ConnectedComponents_closure. vm_compute. reflexivity.
Defined.

(** C5 as stated fails: with ops 0 and 2 computed by the first kernel,
    the planner rooted at the contraction (op 1) returns [{1, 3}]; op 3
    reads [b], a tensor defined by op 2 >= 1 that is not in the set and
    that [OpCanBeUnified] accepts. *)
Lemma ConnectedComponents_closure_counterexample :
  components_with vars_two_roots prog_two_roots 1 [0; 2]%nat = Ok [1; 3]%nat
  /\ ~ spec_closure is_special_std prog_two_roots vars_two_roots 1
         (mk_usedef prog_two_roots) [1; 3]%nat.
Proof.
  split; [vm_compute; reflexivity|].
  intros H.
  destruct (H 3%nat (or_intror (or_introl eq_refl)) ltac:(discriminate) "b" 2%nat)
    as [Hin | Hcan].
  - simpl. auto.
  - split; [eexists; split; reflexivity|]. split; [reflexivity | lia].
  - simpl in Hin. destruct Hin as [E | [E | []]]; discriminate E.
  - vm_compute in Hcan. discriminate Hcan.
Qed.

End PlannerConcrete.

(* ================================================================= *)
(** ** The driver loop *)

Section DriverFacts.
Import Driver.

Variable is_special : Function -> bool.
Variable byte_width : DataType -> Z.
Variable Polynomial : Type.
Variable poly_zero : Polynomial.
Variable poly_add : Polynomial -> Polynomial -> Polynomial.
Variable poly_scale : Polynomial -> Z -> Polynomial.
Variable poly_floor_coeff : Polynomial -> string -> Z.
Variable poly_var : string -> Polynomial.
Variable CompileContraction :
  Contraction -> list TensorShape -> M (FlatContraction * list Polynomial).
Variable Vectorize : FlatContraction -> Z -> FlatContraction.
Variable TileOptimize : FlatContraction -> bool -> Bindings -> list Tile.
Variable vec_size : Z.
Variable BindProgram : Program -> ShapeMap -> ShapeMap -> M (Program * Bindings).

Variable vars : Bindings.
Variable ud : UseDef.
Variable inputs_map : ShapeMap.
Variable outputs_map : ShapeMap.
Variable kid : string.
Variable tile_trials : nat.

Let step :=
  compile_op is_special byte_width Polynomial poly_zero poly_add poly_scale
    poly_floor_coeff poly_var CompileContraction Vectorize TileOptimize vec_size
    vars ud inputs_map outputs_map kid tile_trials.

Let run :=
  compile_loop is_special byte_width Polynomial poly_zero poly_add poly_scale
    poly_floor_coeff poly_var CompileContraction Vectorize TileOptimize vec_size
    vars ud inputs_map outputs_map kid tile_trials.

Let wrap :=
  ContractionWrap Vectorize TileOptimize vec_size.

Lemma run_app (st : CompileState) (l1 l2 : list nat) :
  run st (l1 ++ l2) = (st' <- run st l1 ;; run st' l2).
Proof.
  revert st; induction l1 as [|i l1 IH]; intros st; simpl; [reflexivity|].
  unfold run in *. simpl. destruct (compile_op _ _ _ _ _ _ _ _ _ _ _ _ _ _ _ _ _ _ st i);
    simpl; [apply IH | reflexivity].
Qed.

(** An exception in the body for op [i] ends the whole loop with it. *)
Lemma run_throws (st0 st : CompileState) (i n : nat) (e : Error) :
  (i < n)%nat ->
  run st0 (seq 0 i) = Ok st ->
  step st i = Err e ->
  run st0 (seq 0 n) = Err e.
Proof.
  intros Hi Hpre Hstep.
  replace n with (i + S (n - S i))%nat by lia.
  rewrite seq_app, run_app, Hpre. simpl.
  unfold run, step in *. simpl. rewrite Hstep. reflexivity.
Qed.

(** *** PRNG groups *)

Lemma scan_test (name tup : string) (nop : Op) :
  String.eqb (fn (f nop)) name && (length (inputs nop) =? 1)%nat
    && String.eqb (nth 0 (inputs nop) "") tup = true
  <-> fn (f nop) = name /\ inputs nop = [tup].
Proof.
  rewrite !andb_true_iff, String.eqb_eq, Nat.eqb_eq, String.eqb_eq.
  split.
  - intros [[Hf Hl] Hn]. split; [exact Hf|].
    destruct (inputs nop) as [|x [|y t]]; simpl in *; try discriminate.
    now subst.
  - intros [Hf Hi]. rewrite Hi. simpl. auto.
Qed.

(** Without a companion in [l] the scan changes nothing. *)
Lemma prng_scan_none (tup : string) (l : list Op) :
  (forall nop, In nop l -> ~ state_of tup nop /\ ~ value_of tup nop) ->
  forall j sout vout pos computed,
    prng_scan tup l j sout vout pos computed = (sout, vout, pos, computed).
Proof.
  induction l as [|nop rest IH]; intros Hno j sout vout pos computed; simpl;
    [reflexivity|].
  destruct (Hno nop (or_introl eq_refl)) as [Hs Hv].
  destruct (_ && _ && _) eqn:Es; [apply scan_test in Es; contradiction|].
  destruct (String.eqb (fn (f nop)) "prng_value" && _ && _) eqn:Ev;
    [apply scan_test in Ev; contradiction|].
  apply IH. intros n Hn. apply Hno. right; exact Hn.
Qed.

(** What the scan reports, when no op has the empty output name. *)
Lemma prng_scan_found (tup : string) (l : list Op) :
  (forall nop, In nop l -> output nop <> "") ->
  forall j sout0 vout0 pos0 computed0,
    let '(sout, vout, _, _) := prng_scan tup l j sout0 vout0 pos0 computed0 in
    (sout <> "" <-> sout0 <> "" \/ exists nop, In nop l /\ state_of tup nop)
    /\ (vout <> "" <-> vout0 <> "" \/ exists nop, In nop l /\ value_of tup nop).
Proof.
  induction l as [|nop rest IH]; intros Hne j sout0 vout0 pos0 computed0.
  - simpl. split; (split; [auto | intros [H | [n [[] _]]]; exact H]).
  - assert (Hrest : forall n, In n rest -> output n <> "")
      by (intros n Hn; apply Hne; right; exact Hn).
    assert (Hout : output nop <> "") by (apply Hne; left; reflexivity).
    simpl.
    destruct (String.eqb (fn (f nop)) "prng_state" && _ && _) eqn:Es.
    + apply scan_test in Es.
      specialize (IH Hrest (S j) (output nop) vout0 j (NatSet.insert j computed0)).
      destruct (prng_scan _ _ _ _ _ _ _) as [[[sout vout] pos] comp].
      destruct IH as [IHs IHv]. split.
      * split; [intros _; right; exists nop; split; [left; reflexivity | exact Es]|].
        intros _. apply IHs. left. exact Hout.
      * rewrite IHv. split.
        -- intros [H | [n [Hn Hv]]]; [left; exact H | right; exists n; split; [right|]; auto].
        -- intros [H | [n [[Hn | Hn] Hv]]]; [left; exact H | | right; exists n; auto].
           subst n. destruct Es as [Ef _], Hv as [Ef' _]. rewrite Ef in Ef'. discriminate.
    + assert (Hns : ~ state_of tup nop).
      { intros H. apply scan_test in H. rewrite H in Es. discriminate. }
      destruct (String.eqb (fn (f nop)) "prng_value" && _ && _) eqn:Ev.
      * apply scan_test in Ev.
        specialize (IH Hrest (S j) sout0 (output nop) pos0 (NatSet.insert j computed0)).
        destruct (prng_scan _ _ _ _ _ _ _) as [[[sout vout] pos] comp].
        destruct IH as [IHs IHv]. split.
        -- rewrite IHs. split.
           ++ intros [H | [n [Hn Hv]]]; [left; exact H | right; exists n; split; [right|]; auto].
           ++ intros [H | [n [[Hn | Hn] Hv]]]; [left; exact H | | right; exists n; auto].
              subst n. contradiction.
        -- split; [intros _; right; exists nop; split; [left; reflexivity | exact Ev]|].
           intros _. apply IHv. left. exact Hout.
      * assert (Hnv : ~ value_of tup nop).
        { intros H. apply scan_test in H. rewrite H in Ev. discriminate. }
        specialize (IH Hrest (S j) sout0 vout0 pos0 computed0).
        destruct (prng_scan _ _ _ _ _ _ _) as [[[sout vout] pos] comp].
        destruct IH as [IHs IHv]. split.
        -- rewrite IHs. split.
           ++ intros [H | [n [Hn Hv]]]; [left; exact H | right; exists n; split; [right|]; auto].
           ++ intros [H | [n [[Hn | Hn] Hv]]]; [left; exact H | | right; exists n; auto].
              subst n. contradiction.
        -- rewrite IHv. split.
           ++ intros [H | [n [Hn Hv]]]; [left; exact H | right; exists n; split; [right|]; auto].
           ++ intros [H | [n [[Hn | Hn] Hv]]]; [left; exact H | | right; exists n; auto].
              subst n. contradiction.
Qed.

(** C10. A [prng_step] op whose tuple no [prng_state] and no
    [prng_value] op consumes is passed over: the loop body returns
    normally with the state it was given, so no kernel is emitted, no
    kernel name is drawn, nothing is marked computed and no exception is
    raised. *)
Theorem lone_prng_step_skipped (st : CompileState) (i : nat) :
  let op := op_at (st_prog st) i in
  tag op = FUNCTION ->
  NatSet.mem i (st_computed st) = false ->
  is_special (f op) = true ->
  fn (f op) = "prng_step" ->
  (forall nop, In nop (ops (st_prog st)) ->
     fn (f nop) = "prng_state" \/ fn (f nop) = "prng_value" ->
     ~ In (output op) (inputs nop)) ->
  step st i = Ok st.
Proof.
  intros op Htag Hcomp Hspec Hfn Hno. subst op.
  assert (Hscan :
    prng_scan (output (op_at (st_prog st) i)) (skipn (S i) (ops (st_prog st))) (S i)
              "" "" 0%nat (st_computed st) = ("", "", 0%nat, st_computed st)).
  { apply prng_scan_none. intros nop Hin. apply In_skipn in Hin.
    unfold state_of, value_of.
    split; intros [Hf Hi]; apply (Hno nop Hin); auto; rewrite Hi; left; reflexivity. }
  unfold step, compile_op. rewrite Htag, Hcomp, Hspec.
  unfold compile_special. rewrite Hfn, Hscan. simpl.
  destruct st; reflexivity.
Qed.

Let compile :=
  Compile is_special byte_width Polynomial poly_zero poly_add poly_scale
    poly_floor_coeff poly_var CompileContraction Vectorize TileOptimize vec_size
    BindProgram.

(** An exception in the loop body is the outcome of [Compile]. *)
Lemma Compile_throws (orig_prog prog : Program) (st : CompileState) (i : nat) (e : Error) :
  BindProgram orig_prog inputs_map outputs_map = Ok (prog, vars) ->
  ud = mk_usedef prog ->
  (i < length (ops prog))%nat ->
  run (mkState prog [] [] [] 0%nat) (seq 0 i) = Ok st ->
  step st i = Err e ->
  compile orig_prog inputs_map outputs_map kid tile_trials = Err e.
Proof.
  intros Hbind Hud Hi Hpre Hstep.
  unfold compile, Compile. rewrite Hbind. simpl. rewrite <- Hud.
  pose proof (run_throws _ _ _ _ _ Hi Hpre Hstep) as Hrun.
  unfold run in Hrun. rewrite Hrun. reflexivity.
Qed.

Lemma special_step (st : CompileState) (i : nat) :
  tag (op_at (st_prog st) i) = FUNCTION ->
  NatSet.mem i (st_computed st) = false ->
  is_special (f (op_at (st_prog st) i)) = true ->
  step st i = compile_special kid st i.
Proof.
  intros Htag Hcomp Hspec. unfold step, compile_op. now rewrite Htag, Hcomp, Hspec.
Qed.

Lemma eqb_empty (s : string) : String.eqb s "" = false <-> s <> "".
Proof. apply String.eqb_neq. Qed.

(** The outcome of the special branch, by situation. *)
Lemma compile_special_outcome (st : CompileState) (i : nat) :
  let op := op_at (st_prog st) i in
  (forall nop, In nop (ops (st_prog st)) -> output nop <> "") ->
  ((fn (f op) = "prng_state" \/ fn (f op) = "prng_value") ->
     compile_special kid st i = Err (runtime_error msg_threes))
  /\ (fn (f op) = "prng_step" ->
      (exists nop, In nop (skipn (S i) (ops (st_prog st))) /\ value_of (output op) nop) ->
      ~ (exists nop, In nop (skipn (S i) (ops (st_prog st))) /\ state_of (output op) nop) ->
      compile_special kid st i = Err (runtime_error msg_companions))
  /\ (~ prng_misuse (st_prog st) i -> exists st', compile_special kid st i = Ok st').
Proof.
  intros op Hne. subst op.
  pose proof (prng_scan_found (output (op_at (st_prog st) i))
                (skipn (S i) (ops (st_prog st)))
                (fun nop H => Hne nop (In_skipn _ _ _ H))
                (S i) "" "" 0%nat (st_computed st)) as Hscan.
  unfold compile_special.
  destruct (prng_scan _ _ _ _ _ _ _) as [[[sout vout] pos] comp].
  destruct Hscan as [Hs Hv].
  assert (Hs' : sout <> "" <->
                exists nop, In nop (skipn (S i) (ops (st_prog st)))
                            /\ state_of (output (op_at (st_prog st) i)) nop).
  { rewrite Hs. split; [intros [H | H]; [congruence | exact H] | auto]. }
  assert (Hv' : vout <> "" <->
                exists nop, In nop (skipn (S i) (ops (st_prog st)))
                            /\ value_of (output (op_at (st_prog st) i)) nop).
  { rewrite Hv. split; [intros [H | H]; [congruence | exact H] | auto]. }
  clear Hs Hv.
  split; [|split].
  - intros [Hf | Hf]; rewrite Hf; reflexivity.
  - intros Hf Hval Hnos. rewrite Hf. simpl.
    apply Hv', eqb_empty in Hval. rewrite Hval. simpl.
    destruct (String.eqb sout "") eqn:Es; [reflexivity|].
    apply eqb_empty, Hs' in Es. contradiction.
  - intros Hnm. unfold prng_misuse in Hnm.
    destruct (String.eqb (fn (f (op_at (st_prog st) i))) "prng_state") eqn:E1.
    { apply String.eqb_eq in E1. exfalso. apply Hnm. left; left; exact E1. }
    destruct (String.eqb (fn (f (op_at (st_prog st) i))) "prng_value") eqn:E2.
    { apply String.eqb_eq in E2. exfalso. apply Hnm. left; right; exact E2. }
    simpl.
    destruct (String.eqb (fn (f (op_at (st_prog st) i))) "prng_step") eqn:E3;
      [|eexists; reflexivity].
    apply String.eqb_eq in E3.
    destruct (String.eqb vout "") eqn:Ev; simpl.
    + destruct (String.eqb sout ""); eexists; reflexivity.
    + destruct (String.eqb sout "") eqn:Es; [|eexists; reflexivity].
      exfalso. apply Hnm. right. split; [exact E3|]. split.
      * apply Hv', eqb_empty, Ev.
      * intros H. apply Hs' in H. apply String.eqb_eq in Es. contradiction.
Qed.

(** C8. When the driver reaches, in state [st], a special function op
    [i] that no earlier group marked computed, then: a [prng_state] or
    [prng_value] op makes [Compile] throw; a [prng_step] whose tuple a later
    [prng_value] consumes and no later [prng_state] consumes makes
    [Compile] throw; the outcome of [Compile] is then the exception alone,
    without a kernel list; and in every other situation the loop body for
    the op returns normally. *)
Theorem prng_misuse_fatal (orig_prog prog : Program) (st : CompileState) (i : nat) :
  BindProgram orig_prog inputs_map outputs_map = Ok (prog, vars) ->
  ud = mk_usedef prog ->
  (i < length (ops prog))%nat ->
  run (mkState prog [] [] [] 0%nat) (seq 0 i) = Ok st ->
  let op := op_at (st_prog st) i in
  tag op = FUNCTION ->
  NatSet.mem i (st_computed st) = false ->
  is_special (f op) = true ->
  (forall nop, In nop (ops (st_prog st)) -> output nop <> "") ->
  ((fn (f op) = "prng_state" \/ fn (f op) = "prng_value") ->
     compile orig_prog inputs_map outputs_map kid tile_trials
     = Err (runtime_error msg_threes))
  /\ (fn (f op) = "prng_step" ->
      (exists nop, In nop (skipn (S i) (ops (st_prog st))) /\ value_of (output op) nop) ->
      ~ (exists nop, In nop (skipn (S i) (ops (st_prog st))) /\ state_of (output op) nop) ->
      compile orig_prog inputs_map outputs_map kid tile_trials
      = Err (runtime_error msg_companions))
  /\ (~ prng_misuse (st_prog st) i -> exists st', step st i = Ok st').
Proof.
  intros Hbind Hud Hi Hpre op Htag Hcomp Hspec Hne. subst op.
  pose proof (special_step st i Htag Hcomp Hspec) as Hstep.
  destruct (compile_special_outcome st i Hne) as [H1 [H2 H3]].
  split; [|split].
  - intros Hf. eapply Compile_throws; eauto. rewrite Hstep. apply H1, Hf.
  - intros Hf Hv Hs. eapply Compile_throws; eauto. rewrite Hstep. apply H2; assumption.
  - intros Hnm. rewrite Hstep. apply H3, Hnm.
Qed.

(** *** Contractions whose output needs initializing *)

(** What [ContractionWrap] adds to the list: nothing, or one kernel that
    is not a prelude kernel and, when it is a contraction kernel, has the
    name it was given. *)
Lemma ContractionWrap_adds (ks ks' : list KernelInfo) (c : option Contraction)
    (flat : FlatContraction) (kname : string) (vr : VarRewrites.t) (war : list string) :
  wrap ks c flat kname vars tile_trials vr war = Ok ks' ->
  exists added, ks' = ks ++ added
    /\ (length added <= 1)%nat
    /\ Forall (fun k => is_prelude k = false
                       /\ (k = DefaultKernel war
                           \/ exists tile more kins,
                                k = ContractionKernel kname c
                                      (vectorize_all Vectorize vec_size
                                         (Simplify.simplify_all flat))
                                      tile more kins war)) added.
Proof.
  unfold wrap, ContractionWrap.
  destruct (negb (generate_contraction flat) && _).
  - intros H; injection H as <-. exists []. rewrite app_nil_r.
    split; [reflexivity | split; [simpl; lia | constructor]].
  - destruct (match c with Some _ => _ | None => _ end) as [ins|e]; simpl; [|discriminate].
    destruct (firstn tile_trials _) as [|tile more].
    + intros H; injection H as <-. exists [DefaultKernel war].
      split; [reflexivity | split; [simpl; lia|]].
      constructor; [|constructor]. split; [reflexivity | left; reflexivity].
    + destruct (kernel_inputs_of _ _ _ _) as [kins|e]; simpl; [|discriminate].
      intros H; injection H as <-. eexists [_].
      split; [reflexivity | split; [simpl; lia|]].
      constructor; [|constructor]. split; [reflexivity|].
      right. exists tile, more, kins. reflexivity.
Qed.

(** C4. For a [CONTRACTION] op whose flat contraction [NeedsZero], the
    loop body appends the prelude kernel -- [GenCopy] named
    [copy_<kname>] from [use_default] when that is nonempty, [GenZero]
    named [zero_<kname>] otherwise -- and then hands to [ContractionWrap]
    the flat contraction with the op's output appended to its
    [kernel_outputs] and its post-ops untouched; [DoUnification] is not
    called, so [var_rewrites] and [computed] stay as they were.  When the
    body returns, the list has gained exactly that one prelude kernel,
    followed by at most one kernel, the contraction kernel named
    [<kname>]. *)
Theorem needs_zero_prelude (st : CompileState) (i : nat) (tshapes : list TensorShape)
    (flat0 : FlatContraction) (out_poly : list Polynomial) :
  let op := op_at (st_prog st) i in
  let flat := set_output flat0 (output op) in
  let ts0 := nth 0 tshapes no_tshape in
  let kname := kname_for kid (st_knum st) in
  let prelude :=
    if negb (String.eqb (use_default (c op)) "")
    then CopyKernel ts0 (output op) (use_default (c op)) (String.append "copy_" kname)
    else ZeroKernel ts0 (output op) (String.append "zero_" kname) in
  let flat' := push_kernel_output flat (output op) in
  tag op = CONTRACTION ->
  MakeTShapes (specs (c op)) vars = Ok tshapes ->
  CompileContraction (c op) tshapes = Ok (flat0, out_poly) ->
  Zero.NeedsZero flat ts0 = true ->
  step st i =
    (ks <- wrap (st_kernels st ++ [prelude]) (Some (c op)) flat' kname vars
             tile_trials (st_var_rewrites st) [] ;;
     Ok (mkState (st_prog st) ks (st_var_rewrites st) (st_computed st)
                 (S (st_knum st))))
  /\ kernel_outputs flat' = kernel_outputs flat0 ++ [output op]
  /\ post_ops flat' = post_ops flat0
  /\ forall st', step st i = Ok st' ->
       (exists rest,
          st_kernels st' = st_kernels st ++ prelude :: rest
          /\ (length rest <= 1)%nat
          /\ Forall (fun k => is_prelude k = false
                             /\ (k = DefaultKernel []
                                 \/ exists tile more kins,
                                      k = ContractionKernel kname (Some (c op))
                                            (vectorize_all Vectorize vec_size
                                               (Simplify.simplify_all flat'))
                                            tile more kins [])) rest)
       /\ st_var_rewrites st' = st_var_rewrites st
       /\ st_computed st' = st_computed st
       /\ st_prog st' = st_prog st.
Proof.
  intros op flat ts0 kname prelude flat' Htag Hts Hcc Hnz.
  assert (Hstep : step st i =
    (ks <- wrap (st_kernels st ++ [prelude]) (Some (c op)) flat' kname vars
             tile_trials (st_var_rewrites st) [] ;;
     Ok (mkState (st_prog st) ks (st_var_rewrites st) (st_computed st)
                 (S (st_knum st))))).
  { unfold step, compile_op. fold op. rewrite Htag.
    unfold compile_contraction. fold op. rewrite Hts. simpl. rewrite Hcc. simpl.
    fold flat. fold ts0. rewrite Hnz. reflexivity. }
  split; [exact Hstep|]. split; [reflexivity|]. split; [reflexivity|].
  intros st' Hok. rewrite Hstep in Hok.
  destruct (wrap _ _ _ _ _ _ _ _) as [ks|e] eqn:Hw; simpl in Hok; [|discriminate].
  injection Hok as <-. simpl.
  apply ContractionWrap_adds in Hw as [added [-> [Hlen Hall]]].
  split; [|auto].
  exists added. rewrite <- app_assoc. simpl. auto.
Qed.

(** *** Kernel names *)

Lemma numbered_weaken (lo lo' hi hi' : nat) (ks : list KernelInfo) :
  (lo' <= lo)%nat -> (hi <= hi')%nat ->
  numbered kid lo hi ks -> numbered kid lo' hi' ks.
Proof.
  revert lo lo'; induction ks as [|k rest IH]; intros lo lo' Hlo Hhi; simpl; [auto|].
  intros [N [HN [Hk Hrest]]]. exists N. split; [lia|]. split; [exact Hk|].
  apply (IH N N); [lia | exact Hhi | exact Hrest].
Qed.

Lemma numbered_app (lo mid hi : nat) (l1 l2 : list KernelInfo) :
  (lo <= mid)%nat -> (mid <= hi)%nat ->
  numbered kid lo mid l1 -> numbered kid mid hi l2 ->
  numbered kid lo hi (l1 ++ l2).
Proof.
  revert lo; induction l1 as [|k rest IH]; intros lo Hlo Hhi H1 H2; simpl.
  - apply (numbered_weaken mid lo hi hi); [exact Hlo | lia | exact H2].
  - destruct H1 as [N [HN [Hk Hrest]]]. exists N. split; [lia|]. split; [exact Hk|].
    apply IH; [lia | exact Hhi | exact Hrest | exact H2].
Qed.

Lemma numbered_same (N : nat) (ks : list KernelInfo) :
  Forall (kernel_named kid N) ks -> numbered kid N (S N) ks.
Proof.
  induction 1 as [|k rest Hk _ IH]; simpl; [exact I|].
  exists N. split; [lia|]. split; [exact Hk | exact IH].
Qed.

Section Naming.

Hypothesis trials_pos : (0 < tile_trials)%nat.
Hypothesis tiles_nonempty : forall flat b vs, TileOptimize flat b vs <> [].

(** With at least one tile tried, what [ContractionWrap] adds is named
    [kname]. *)
Lemma ContractionWrap_named (ks ks' : list KernelInfo) (c : option Contraction)
    (flat : FlatContraction) (N : nat) (vr : VarRewrites.t) (war : list string) :
  wrap ks c flat (kname_for kid N) vars tile_trials vr war = Ok ks' ->
  exists added, ks' = ks ++ added /\ Forall (kernel_named kid N) added.
Proof.
  intros H.
  assert (Hnd : forall added, ks' = ks ++ added -> ~ In (DefaultKernel war) added).
  { intros added -> Hin. revert H. unfold wrap, ContractionWrap.
    destruct (negb (generate_contraction flat) && _).
    - intros H; injection H as H. apply (f_equal (@length _)) in H.
      rewrite length_app in H. destruct added; [destruct Hin | simpl in H; lia].
    - destruct (match c with Some _ => _ | None => _ end) as [ins|e]; simpl;
        [|discriminate].
      destruct (firstn tile_trials _) as [|tile more] eqn:Ef.
      + exfalso. destruct tile_trials as [|n]; [lia|].
        destruct (TileOptimize _ _ _) as [|t ts] eqn:Et;
          [apply tiles_nonempty in Et; exact Et | discriminate Ef].
      + destruct (kernel_inputs_of _ _ _ _) as [kins|e]; simpl; [|discriminate].
        intros H; injection H as H. apply app_inv_head in H. subst added.
        destruct Hin as [Hin | []]. discriminate Hin. }
  apply ContractionWrap_adds in H as [added [-> [_ Hall]]].
  exists added. split; [reflexivity|].
  specialize (Hnd added eq_refl).
  rewrite Forall_forall in *. intros k Hk. destruct (Hall k Hk) as [_ [Hd | Hc]].
  - subst k. contradiction.
  - destruct Hc as [tile [more [kins ->]]]. reflexivity.
Qed.

(** One round of the loop: the counter advances by at most one, and the
    kernels the round adds are named after the value it had. *)
Lemma step_named (st st' : CompileState) (i : nat) :
  step st i = Ok st' ->
  exists added,
    st_kernels st' = st_kernels st ++ added
    /\ (st_knum st <= st_knum st' <= S (st_knum st))%nat
    /\ (added <> [] -> st_knum st' = S (st_knum st))
    /\ Forall (kernel_named kid (st_knum st)) added.
Proof.
  assert (Hsame : forall s, exists added : list KernelInfo,
            st_kernels s = st_kernels s ++ added
            /\ (st_knum s <= st_knum s <= S (st_knum s))%nat
            /\ (added <> [] -> st_knum s = S (st_knum s))
            /\ Forall (kernel_named kid (st_knum s)) added).
  { intros s. exists []. rewrite app_nil_r.
    split; [reflexivity | split; [lia | split; [congruence | constructor]]]. }
  unfold step, compile_op.
  destruct (tag (op_at (st_prog st) i)) eqn:Htag.
  - (* CONTRACTION *)
    unfold compile_contraction.
    destruct (MakeTShapes _ _) as [tshapes|e]; simpl; [|discriminate].
    destruct (CompileContraction _ _) as [[flat0 out_poly]|e]; simpl; [|discriminate].
    destruct (Zero.NeedsZero _ _).
    + destruct (ContractionWrap _ _ _ _ _ _ _ _ _ _ _) as [ks|e] eqn:Hw; simpl;
        [|discriminate].
      intros H; injection H as <-. simpl.
      apply ContractionWrap_named in Hw as [added [-> Hall]].
      exists (prelude_kernel (op_at (st_prog st) i) (nth 0 tshapes no_tshape)
                (kname_for kid (st_knum st)) :: added).
      rewrite <- app_assoc. simpl.
      split; [reflexivity | split; [lia | split; [reflexivity|]]].
      constructor; [|exact Hall].
      unfold prelude_kernel. destruct (negb _); reflexivity.
    + destruct (unify _ _ _ _ _ _ _ _ _ _ _ _ _ _ _) as [[[[flat' comp'] vr'] war]|e];
        simpl; [|discriminate].
      destruct (ContractionWrap _ _ _ _ _ _ _ _ _ _ _) as [ks|e] eqn:Hw; simpl;
        [|discriminate].
      intros H; injection H as <-. simpl.
      apply ContractionWrap_named in Hw as [added [-> Hall]].
      exists added. split; [reflexivity | split; [lia | split; [reflexivity | exact Hall]]].
  - (* FUNCTION *)
    destruct (NatSet.mem i (st_computed st)).
    { intros H; injection H as <-. apply Hsame. }
    destruct (is_special _).
    + unfold compile_special.
      destruct (_ || _); [discriminate|].
      destruct (String.eqb (fn (f (op_at (st_prog st) i))) "prng_step").
      * destruct (prng_scan _ _ _ _ _ _ _) as [[[sout vout] pos] comp].
        destruct (String.eqb vout "" && String.eqb sout "").
        { intros H; injection H as <-. simpl. exists []. rewrite app_nil_r.
          split; [reflexivity | split; [lia | split; [congruence | constructor]]]. }
        destruct (String.eqb vout "").
        { intros H; injection H as <-. simpl. exists []. rewrite app_nil_r.
          split; [reflexivity | split; [lia | split; [congruence | constructor]]]. }
        destruct (String.eqb sout ""); [discriminate|].
        intros H; injection H as <-. simpl. eexists [_].
        split; [reflexivity | split; [lia | split; [reflexivity|]]].
        constructor; [reflexivity | constructor].
      * intros H; injection H as <-. simpl. eexists [_].
        split; [reflexivity | split; [lia | split; [reflexivity|]]].
        constructor; [reflexivity | constructor].
    + unfold compile_elementwise.
      destruct (at_ vars _) as [b|e]; simpl; [|discriminate].
      destruct (unify _ _ _ _ _ _ _ _ _ _ _ _ _ _ _) as [[[[flat' comp'] vr'] war]|e];
        simpl; [|discriminate].
      destruct (ContractionWrap _ _ _ _ _ _ _ _ _ _ _) as [ks|e] eqn:Hw; simpl;
        [|discriminate].
      intros H; injection H as <-. simpl.
      apply ContractionWrap_named in Hw as [added [-> Hall]].
      exists added. split; [reflexivity | split; [lia | split; [reflexivity | exact Hall]]].
  - (* CONSTANT *)
    intros H; injection H as <-. apply Hsame.
Qed.

Lemma run_named (idxs : list nat) :
  forall st st', run st idxs = Ok st' ->
    exists added,
      st_kernels st' = st_kernels st ++ added
      /\ (st_knum st <= st_knum st')%nat
      /\ numbered kid (st_knum st) (st_knum st') added.
Proof.
  induction idxs as [|i rest IH]; intros st st'.
  - intros H; injection H as <-. exists []. rewrite app_nil_r.
    split; [reflexivity | split; [lia | exact I]].
  - unfold run. simpl. fold (step st i).
    destruct (step st i) as [st1|e] eqn:Hs; simpl; [|discriminate].
    intros Hr. apply step_named in Hs as [a1 [Hk1 [Hn1 [Hne1 Hall1]]]].
    apply IH in Hr as [a2 [Hk2 [Hn2 Hnum2]]].
    exists (a1 ++ a2). rewrite Hk2, Hk1, app_assoc.
    split; [reflexivity | split; [lia|]].
    destruct a1 as [|k a1'].
    + simpl. apply (numbered_weaken (st_knum st1) _ (st_knum st') _); [lia | lia | exact Hnum2].
    + assert (E : st_knum st1 = S (st_knum st)) by (apply Hne1; discriminate).
      apply (numbered_app _ (st_knum st1)); [lia | lia | | exact Hnum2].
      rewrite E. apply numbered_same, Hall1.
Qed.

(** With at least one tile tried, [ContractionWrap] adds at most one
    kernel; it is not a prelude kernel and carries the name it was given. *)
Lemma ContractionWrap_group (ks ks' : list KernelInfo) (c : option Contraction)
    (flat : FlatContraction) (N : nat) (vr : VarRewrites.t) (war : list string) :
  wrap ks c flat (kname_for kid N) vars tile_trials vr war = Ok ks' ->
  exists main,
    ks' = ks ++ main /\ (length main <= 1)%nat
    /\ Forall (fun k => is_prelude k = false /\ kernel_named kid N k) main.
Proof.
  intros H.
  destruct (ContractionWrap_named _ _ _ _ _ _ _ H) as [a1 [E1 Hn]].
  destruct (ContractionWrap_adds _ _ _ _ _ _ _ H) as [a2 [E2 [Hlen Hp]]].
  assert (a1 = a2) by (apply (app_inv_head ks); congruence). subst a2.
  exists a1. split; [exact E1|]. split; [exact Hlen|].
  rewrite Forall_forall in *. intros k Hk.
  split; [apply (Hp k Hk) | apply (Hn k Hk)].
Qed.

Lemma draw_group_nil (N : nat) : Draws.draw_group kid N [].
Proof.
  exists [], []. simpl. repeat split; auto.
Qed.

Lemma draw_group_main (N : nat) (main : list KernelInfo) :
  (length main <= 1)%nat ->
  Forall (fun k => is_prelude k = false /\ kernel_named kid N k) main ->
  Draws.draw_group kid N main.
Proof.
  intros Hl Hm. exists [], main. simpl. repeat split; auto.
Qed.

(** One round of the loop: the counter advances exactly when the round
    draws a name, and the kernels it adds are the group of that name. *)
Lemma step_group (st st' : CompileState) (i : nat) :
  step st i = Ok st' ->
  exists added,
    st_kernels st' = st_kernels st ++ added
    /\ st_knum st' = (st_knum st + if Draws.draws_name is_special st i then 1 else 0)%nat
    /\ (Draws.draws_name is_special st i = false -> added = [])
    /\ Draws.draw_group kid (st_knum st) added.
Proof.
  unfold step, compile_op, Draws.draws_name.
  destruct (tag (op_at (st_prog st) i)) eqn:Htag.
  - (* CONTRACTION *)
    unfold compile_contraction.
    destruct (MakeTShapes _ _) as [tshapes|e]; simpl; [|discriminate].
    destruct (CompileContraction _ _) as [[flat0 out_poly]|e]; simpl; [|discriminate].
    destruct (Zero.NeedsZero _ _).
    + destruct (ContractionWrap _ _ _ _ _ _ _ _ _ _ _) as [ks|e] eqn:Hw; simpl;
        [|discriminate].
      intros H; injection H as <-. simpl.
      apply ContractionWrap_group in Hw as [main [-> [Hlen Hall]]].
      exists (prelude_kernel (op_at (st_prog st) i) (nth 0 tshapes no_tshape)
                (kname_for kid (st_knum st)) :: main).
      rewrite <- app_assoc. simpl.
      split; [reflexivity | split; [lia | split; [discriminate|]]].
      exists [prelude_kernel (op_at (st_prog st) i) (nth 0 tshapes no_tshape)
                (kname_for kid (st_knum st))], main.
      split; [reflexivity|]. split; [simpl; lia|]. split; [exact Hlen|].
      split; [|exact Hall].
      constructor; [|constructor].
      unfold prelude_kernel. destruct (negb _); split; reflexivity.
    + destruct (unify _ _ _ _ _ _ _ _ _ _ _ _ _ _ _) as [[[[flat' comp'] vr'] war]|e];
        simpl; [|discriminate].
      destruct (ContractionWrap _ _ _ _ _ _ _ _ _ _ _) as [ks|e] eqn:Hw; simpl;
        [|discriminate].
      intros H; injection H as <-. simpl.
      apply ContractionWrap_group in Hw as [main [-> [Hlen Hall]]].
      exists main. split; [reflexivity | split; [lia | split; [discriminate|]]].
      apply draw_group_main; assumption.
  - (* FUNCTION *)
    destruct (NatSet.mem i (st_computed st)).
    { intros H; injection H as <-. exists []. rewrite app_nil_r.
      split; [reflexivity | split; [lia | split; [reflexivity | apply draw_group_nil]]]. }
    destruct (is_special _).
    + unfold compile_special.
      destruct (_ || _); [discriminate|].
      destruct (String.eqb (fn (f (op_at (st_prog st) i))) "prng_step").
      * destruct (prng_scan _ _ _ _ _ _ _) as [[[sout vout] pos] comp].
        destruct (String.eqb vout "") eqn:Ev; simpl.
        { destruct (String.eqb sout "");
            intros H; injection H as <-; simpl; exists []; rewrite app_nil_r;
            (split; [reflexivity
                    | split; [lia | split; [reflexivity | apply draw_group_nil]]]). }
        destruct (String.eqb sout ""); [discriminate|].
        intros H; injection H as <-. simpl. eexists [_].
        split; [reflexivity | split; [lia | split; [discriminate|]]].
        apply draw_group_main; [simpl; lia|].
        constructor; [split; reflexivity | constructor].
      * intros H; injection H as <-. simpl. eexists [_].
        split; [reflexivity | split; [lia | split; [discriminate|]]].
        apply draw_group_main; [simpl; lia|].
        constructor; [split; reflexivity | constructor].
    + unfold compile_elementwise.
      destruct (at_ vars _) as [b|e]; simpl; [|discriminate].
      destruct (unify _ _ _ _ _ _ _ _ _ _ _ _ _ _ _) as [[[[flat' comp'] vr'] war]|e];
        simpl; [|discriminate].
      destruct (ContractionWrap _ _ _ _ _ _ _ _ _ _ _) as [ks|e] eqn:Hw; simpl;
        [|discriminate].
      intros H; injection H as <-. simpl.
      apply ContractionWrap_group in Hw as [main [-> [Hlen Hall]]].
      exists main. split; [reflexivity | split; [lia | split; [discriminate|]]].
      apply draw_group_main; assumption.
  - (* CONSTANT *)
    intros H; injection H as <-. exists []. rewrite app_nil_r.
    split; [reflexivity | split; [lia | split; [reflexivity | apply draw_group_nil]]].
Qed.

(** The loop: the kernels it adds are the groups of the names it draws,
    one group per draw, in the order of the counter. *)
Lemma run_groups (idxs : list nat) :
  forall st st', run st idxs = Ok st' ->
    exists groups,
      st_kernels st' = st_kernels st ++ concat groups
      /\ st_knum st' = (st_knum st + length groups)%nat
      /\ Draws.draw_groups kid (st_knum st) groups.
Proof.
  induction idxs as [|i rest IH]; intros st st'.
  - intros H; injection H as <-. exists []. simpl. rewrite app_nil_r.
    split; [reflexivity | split; [lia | exact I]].
  - unfold run. simpl. fold (step st i). fold run.
    destruct (step st i) as [st1|e] eqn:Hs; simpl; [|discriminate].
    intros Hr. apply step_group in Hs as [a1 [Hk1 [Hn1 [Hno1 Hg1]]]].
    apply IH in Hr as [groups [Hk2 [Hn2 Hg2]]].
    destruct (Draws.draws_name is_special st i).
    + exists (a1 :: groups). simpl. rewrite Hk2, Hk1, app_assoc.
      split; [reflexivity | split; [lia|]].
      split; [exact Hg1|]. replace (S (st_knum st)) with (st_knum st1) by lia.
      exact Hg2.
    + rewrite (Hno1 eq_refl), app_nil_r in Hk1.
      exists groups. rewrite Hk2, Hk1.
      split; [reflexivity | split; [lia|]].
      replace (st_knum st) with (st_knum st1) by lia. exact Hg2.
Qed.

End Naming.

Lemma sanitize_length (id : string) : String.length (sanitize id) = String.length id.
Proof. induction id as [|ch rest IH]; simpl; [reflexivity | now rewrite IH]. Qed.

Lemma sanitize_get (id : string) (n : nat) :
  String.get n (sanitize id) =
  option_map (fun ch => if is_alnum ch then ch else "_"%char) (String.get n id).
Proof.
  revert n; induction id as [|ch rest IH]; intros n; simpl; [reflexivity|].
  destruct n as [|n]; simpl; [|apply IH].
  destruct (is_alnum ch); reflexivity.
Qed.

Let generate :=
  GenerateProgram is_special byte_width Polynomial poly_zero poly_add poly_scale
    poly_floor_coeff poly_var CompileContraction Vectorize TileOptimize vec_size
    BindProgram.

(** C9, as the source has it. [kid] is ["kernel_"] followed by [id] with
    every non-alphanumeric character replaced by ['_'].  Kernel names are
    drawn from the counter of the driver, which starts at 0 and advances
    by one in exactly the rounds of the loop that draw a name: the rounds
    of a contraction op, of a special op that is dispatched, and of an
    elementwise op reached uncomputed, whether or not a kernel ends up
    emitted.  When at least one tile is tried per kernel, the kernel list
    of the result is the concatenation of one group per name drawn, in
    the order [N = 0, 1, ...] of the counter, and the number of groups is
    the final value of the counter; the group of [N] holds at most one
    prelude kernel, named [zero_<kid>_<N>] or [copy_<kid>_<N>], followed by
    at most one other kernel, named [<kid>_<N>].  So every kernel carries
    an [N] below the number of names drawn, non-decreasing along the
    list.  [N] counts the names drawn, not the kernels emitted. *)
Theorem kernel_names (orig_prog prog : Program) (id : string) (r : KernelList) :
  (0 < tile_trials)%nat ->
  (forall flat b vs, TileOptimize flat b vs <> []) ->
  BindProgram orig_prog inputs_map outputs_map = Ok (prog, vars) ->
  ud = mk_usedef prog ->
  kid = make_kid id ->
  generate orig_prog inputs_map outputs_map id tile_trials = Ok r ->
  kid = String.append "kernel_" (sanitize id)
  /\ String.length (sanitize id) = String.length id
  /\ (forall n, String.get n (sanitize id) =
                option_map (fun ch => if is_alnum ch then ch else "_"%char)
                           (String.get n id))
  /\ (exists st groups,
        run (mkState prog [] [] [] 0%nat) (seq 0 (length (ops prog))) = Ok st
        /\ kernels r = st_kernels st
        /\ kernels r = concat groups
        /\ length groups = st_knum st
        /\ Draws.draw_groups kid 0 groups
        /\ numbered kid 0 (st_knum st) (kernels r))
  /\ (forall st_i st' i,
        step st_i i = Ok st' ->
        st_knum st'
        = (st_knum st_i + if Draws.draws_name is_special st_i i then 1 else 0)%nat).
Proof.
  intros Htrials Htiles Hbind Hud Hkid Hgen.
  split; [exact Hkid|]. split; [apply sanitize_length|]. split; [apply sanitize_get|].
  split.
  - unfold generate, GenerateProgram, Compile in Hgen.
    rewrite Hbind in Hgen. simpl in Hgen. rewrite <- Hud, <- Hkid in Hgen.
    fold run in Hgen.
    destruct (run _ _) as [st|e] eqn:Hrun; simpl in Hgen; [|discriminate].
    injection Hgen as <-. simpl.
    destruct (run_groups Htrials Htiles _ _ _ Hrun) as [groups [Hk [Hn Hg]]].
    destruct (run_named Htrials Htiles _ _ _ Hrun) as [added [Hk' [_ Hnum]]].
    simpl in Hk, Hn, Hg, Hk', Hnum. subst added.
    exists st, groups. repeat split; auto.
  - intros st_i st' i Hs.
    destruct (step_group Htrials Htiles _ _ _ Hs) as [added [_ [Hn _]]]. exact Hn.
Qed.

End DriverFacts.

(* ================================================================= *)
(** ** The driver on concrete programs *)

Section DriverConcrete.
Import Driver Examples.

Lemma lone_prng_step_skipped_witness :
  step_with vars_prng prog_step_alone [] [] "k" (initial prog_step_alone) 0
  = Ok (initial prog_step_alone).
Proof.
  unfold step_with.
  apply lone_prng_step_skipped; try reflexivity.
  simpl. intros nop [H | [H | []]] [E | E]; subst nop; discriminate E.
Defined.

Lemma prng_misuse_fatal_witness :
  compile_with vars_prng prog_step_value [] [] "k" 1
  = Err (runtime_error msg_companions).
Proof.
  unfold compile_with.
  refine (proj1 (proj2
    (prng_misuse_fatal is_special_std byte_width_std Poly poly_zero poly_add
       poly_scale poly_floor_coeff poly_var compile_strided no_vectorize unit_tile 1
       (bind_with vars_prng) vars_prng (mk_usedef prog_step_value) [] [] "k" 1%nat
       prog_step_value prog_step_value (initial prog_step_value) 0%nat
       eq_refl eq_refl _ eq_refl eq_refl eq_refl eq_refl _)) eq_refl _ _).
  - simpl. lia.
  - simpl. intros nop [H | [H | []]]; subst nop; discriminate.
  - exists (fun_op "prng_value" "v" ["t"]). split; [left; reflexivity|].
    split; reflexivity.
  - simpl. intros [nop [[H | []] [Hf _]]]. subst nop. discriminate Hf.
Defined.

Lemma needs_zero_prelude_witness :
  step_with vars_strided prog_strided [] [] "kernel_p" (initial prog_strided) 0 =
  (ks <- ContractionWrap no_vectorize unit_tile 1
           [ZeroKernel (shape (tensor [8])) "O" "zero_kernel_p_0"]
           (Some (mkContraction ["O"; "A"] ""))
           (push_kernel_output (set_output flat_strided "O") "O")
           "kernel_p_0" vars_strided 1 [] [] ;;
   Ok (mkState prog_strided ks [] [] 1%nat)).
Proof.
  unfold step_with.
  exact (proj1
    (needs_zero_prelude is_special_std byte_width_std Poly poly_zero poly_add
       poly_scale poly_floor_coeff poly_var compile_strided no_vectorize unit_tile 1
       vars_strided (mk_usedef prog_strided) [] [] "kernel_p" 1%nat
       (initial prog_strided) 0%nat
       [shape (tensor [8]); shape (tensor [4])] flat_strided [[("i", 2)]]
       eq_refl eq_refl eq_refl eq_refl)).
Defined.

Lemma kernel_names_witness :
  exists st groups,
    run_with vars_elided prog_elided ins_elided outs_elided "kernel_my_prog"
             (initial prog_elided) (seq 0 (length (ops prog_elided))) = Ok st
    /\ kernels result_elided = st_kernels st
    /\ kernels result_elided = concat groups
    /\ length groups = st_knum st
    /\ Draws.draw_groups "kernel_my_prog" 0 groups
    /\ numbered "kernel_my_prog" 0 (st_knum st) (kernels result_elided).
Proof.
  refine (proj1 (proj2 (proj2 (proj2
    (kernel_names is_special_std byte_width_std Poly poly_zero poly_add
       poly_scale poly_floor_coeff poly_var compile_strided no_vectorize unit_tile 1
       (bind_with vars_elided) vars_elided (mk_usedef prog_elided)
       ins_elided outs_elided "kernel_my_prog" 1%nat
       prog_elided prog_elided "my-prog" result_elided
       _ _ eq_refl eq_refl eq_refl _))))).
  - lia.
  - intros flat b vs. unfold unit_tile. discriminate.
  - vm_compute. reflexivity.
Defined.

(** C9 as stated fails: for [prog_elided] the elided reshape draws the
    name [kernel_my_prog_0] and emits no kernel, so the first kernel
    emitted is the one of the [gather], named [kernel_my_prog_1]. *)
Lemma kernel_numbering_counterexample :
  generate_with vars_elided prog_elided ins_elided outs_elided "my-prog" 1
  = Ok result_elided
  /\ ~ spec_numbering (make_kid "my-prog") (kernels result_elided).
Proof.
  split; [vm_compute; reflexivity|].
  intros H. specialize (H 0%nat _ eq_refl). vm_compute in H. discriminate H.
Qed.

End DriverConcrete.

(* ================================================================= *)
(** ** Maps *)

Lemma find_assign_same {V : Type} (k : string) (v : V) (m : list (string * V)) :
  find k (assign k v m) = Some v.
Proof.
  induction m as [|[k' v'] rest IH]; simpl.
  - now rewrite String.eqb_refl.
  - destruct (String.eqb k k') eqn:E; simpl.
    + now rewrite String.eqb_refl.
    + destruct (String.ltb k k'); simpl.
      * now rewrite String.eqb_refl.
      * rewrite E. exact IH.
Qed.

Lemma find_assign_other {V : Type} (k k0 : string) (v : V) (m : list (string * V)) :
  k0 <> k -> find k0 (assign k v m) = find k0 m.
Proof.
  intros Hne. apply String.eqb_neq in Hne.
  induction m as [|[k' v'] rest IH]; simpl.
  - now rewrite Hne.
  - destruct (String.eqb k k') eqn:E; simpl.
    + apply String.eqb_eq in E. subst k'. now rewrite Hne.
    + destruct (String.ltb k k'); simpl.
      * now rewrite Hne.
      * destruct (String.eqb k0 k'); [reflexivity | exact IH].
Qed.

Lemma find_emplace_fresh {V : Type} (k : string) (v : V) (m : list (string * V)) :
  find k m = None -> find k (emplace k v m) = Some v.
Proof.
  induction m as [|[k' v'] rest IH]; simpl.
  - now rewrite String.eqb_refl.
  - destruct (String.eqb k k') eqn:E; [discriminate|].
    intros Hn. destruct (String.ltb k k'); simpl.
    + now rewrite String.eqb_refl.
    + rewrite E. apply IH, Hn.
Qed.

Lemma find_emplace_other {V : Type} (k k0 : string) (v : V) (m : list (string * V)) :
  k0 <> k -> find k0 (emplace k v m) = find k0 m.
Proof.
  intros Hne. apply String.eqb_neq in Hne.
  induction m as [|[k' v'] rest IH]; simpl.
  - now rewrite Hne.
  - destruct (String.eqb k k') eqn:E; simpl; [reflexivity|].
    destruct (String.ltb k k'); simpl.
    + now rewrite Hne.
    + destruct (String.eqb k0 k'); [reflexivity | exact IH].
Qed.

Lemma assign_nonempty {V : Type} (k : string) (v : V) (m : list (string * V)) :
  (0 < length (assign k v m))%nat.
Proof.
  destruct m as [|[k' v'] rest]; simpl; [lia|].
  destruct (String.eqb k k'); [simpl; lia|].
  destruct (String.ltb k k'); simpl; lia.
Qed.

(** A key without entry is its own [Lookup]. *)
Lemma Lookup_unmapped (m : VarRewrites.t) (k : string) :
  find k m = None -> VarRewrites.Lookup m k = k.
Proof.
  unfold VarRewrites.Lookup. intros H.
  destruct (length m); simpl; [reflexivity | now rewrite H].
Qed.

(** A key mapped to a fixed point of the map looks up to it. *)
Lemma Lookup_one_step (m : VarRewrites.t) (k k' : string) :
  find k m = Some k' ->
  (k' = k \/ find k' m = None \/ find k' m = Some k') ->
  VarRewrites.Lookup m k = k'.
Proof.
  unfold VarRewrites.Lookup. intros Hk Hk'.
  destruct m as [|e rest]; [discriminate|].
  change (length (e :: rest)) with (S (length rest)).
  cbn [VarRewrites.walk]. rewrite Hk.
  destruct (String.eqb k' k) eqn:E; [apply String.eqb_eq in E; congruence|].
  destruct Hk' as [-> | [Hn | Hs]]; [now rewrite String.eqb_refl in E | |].
  - destruct (length rest); cbn [VarRewrites.walk]; [reflexivity | now rewrite Hn].
  - destruct (length rest); cbn [VarRewrites.walk]; [reflexivity|].
    now rewrite Hs, String.eqb_refl.
Qed.

(* ================================================================= *)
(** ** The post-op integrator *)

Section UnifyFacts.
Import Unify.

Variable byte_width : DataType -> Z.
Variable prog : Program.
Variable ud : UseDef.
Variable vars : Bindings.
Variable inputs_map : ShapeMap.
Variable outputs_map : ShapeMap.
Variable unified_opidxs : NatSet.t.

Let step := unify_op byte_width prog ud vars inputs_map outputs_map unified_opidxs.
Let loop := unify_loop byte_width prog ud vars inputs_map outputs_map unified_opidxs.
Let checks := reshape_checks byte_width vars.
Let elide := elide_test inputs_map outputs_map.
Let rewrite_ins := rewrite_inputs ud vars unified_opidxs.

Lemma reshape_checks_pass (vr : VarRewrites.t) (op : Op) (in0 : string)
    (rest : list string) (inb outb : Binding) :
  inputs op = in0 :: rest ->
  find in0 vars = Some inb ->
  find (output op) vars = Some outb ->
  btag inb = TENSOR ->
  byte_size byte_width (shape inb) = byte_size byte_width (shape outb) ->
  elem_size (shape inb) = elem_size (shape outb) ->
  checks vr op = Ok (VarRewrites.Lookup vr in0).
Proof.
  intros Hin Hinb Houtb Htag Hbytes Helems.
  unfold checks, reshape_checks, at_. rewrite Hin, Hinb, Houtb. simpl.
  rewrite Htag, Hbytes, Helems, !Z.eqb_refl. reflexivity.
Qed.

(** The body of the loop on a reshape or ident op that passes its checks. *)
Lemma unify_op_reshape (st : UnifyState) (idx : nat) (input : string) :
  let op := op_at prog idx in
  tag op = FUNCTION ->
  is_reshape_or_ident op = true ->
  checks (var_rewrites st) op = Ok input ->
  step st idx =
    if elide op input then Ok (elided_state st (output op) input)
    else
      r <- rewrite_ins (local_var_rewrites st) (inputs op)
             (war_safe_reads st) (post_contraction_inputs st) ;;
      Ok (retained_state st op r).
Proof.
  intros op Htag Hfn Hchk. unfold step, unify_op. fold op.
  rewrite Htag, Hfn. simpl. fold checks. rewrite Hchk. simpl. fold elide.
  destruct (elide op input); simpl; [reflexivity|].
  fold rewrite_ins.
  destruct (rewrite_ins _ _ _ _) as [[[ins war] pci]|e]; reflexivity.
Qed.

(** An iteration touches the rewrite maps at most at the output of its op. *)
Lemma unify_op_other (st st' : UnifyState) (idx : nat) (k : string) :
  step st idx = Ok st' ->
  k <> output (op_at prog idx) ->
  find k (var_rewrites st') = find k (var_rewrites st)
  /\ find k (local_var_rewrites st') = find k (local_var_rewrites st).
Proof.
  unfold step, unify_op. intros H Hne.
  destruct (negb (OpTag_eqb _ FUNCTION)); [injection H as <-; auto|].
  destruct (if is_reshape_or_ident _ then _ else _) as [[input|]|e]; simpl in H;
    [| |discriminate].
  - injection H as <-. simpl. unfold VarRewrites.Insert.
    split; [apply find_assign_other | apply find_emplace_other]; exact Hne.
  - destruct (rewrite_inputs _ _ _ _ _ _ _) as [[[ins war] pci]|e]; simpl in H;
      [|discriminate].
    injection H as <-. auto.
Qed.

Lemma unify_loop_other (idxs : list nat) (k : string) :
  forall st st', loop st idxs = Ok st' ->
    (forall j, In j idxs -> output (op_at prog j) <> k) ->
    find k (var_rewrites st') = find k (var_rewrites st)
    /\ find k (local_var_rewrites st') = find k (local_var_rewrites st).
Proof.
  induction idxs as [|i rest IH]; intros st st'; simpl.
  - intros H _; injection H as <-. auto.
  - unfold loop. simpl. fold (step st i). fold loop.
    destruct (step st i) as [st1|e] eqn:Hs; simpl; [|discriminate].
    intros Hl Hout.
    destruct (IH _ _ Hl (fun j Hj => Hout j (or_intror Hj))) as [H1 H2].
    destruct (unify_op_other _ _ _ k Hs) as [H3 H4].
    { intros E. apply (Hout i (or_introl eq_refl)). now symmetry. }
    split; congruence.
Qed.

(** C6. While [DoUnification] walks the unified ops -- [st] is the
    state reached from its initial state, with an empty local rewrite
    map, after the ops [pre], none of which has the output of the op at
    hand -- a reshape or ident op whose input passes the tensor,
    byte_size and elem_size checks is elided exactly when its output is
    not a program output or the looked-up input is neither a program
    output nor a program input: then both [var_rewrites] and the local map
    send its output to [input = Lookup(op.inputs[0])] and the post-ops
    stay as they are; otherwise the maps stay as they are and the op,
    with its inputs rewritten, is appended to the post-ops. *)
Theorem reshape_elision (vr0 : VarRewrites.t) (post0 : list Op) (war0 : StrSet.t)
    (pre : list nat) (st : UnifyState) (idx : nat)
    (in0 : string) (rest : list string) (inb outb : Binding) :
  let op := op_at prog idx in
  let input := VarRewrites.Lookup (var_rewrites st) in0 in
  loop (mkUnify vr0 [] post0 war0 []) pre = Ok st ->
  (forall j, In j pre -> output (op_at prog j) <> output op) ->
  tag op = FUNCTION ->
  fn (f op) = "reshape" \/ fn (f op) = "ident" ->
  inputs op = in0 :: rest ->
  find in0 vars = Some inb ->
  find (output op) vars = Some outb ->
  btag inb = TENSOR ->
  byte_size byte_width (shape inb) = byte_size byte_width (shape outb) ->
  elem_size (shape inb) = elem_size (shape outb) ->
  (elide op input = true <->
     count outputs_map (output op) = false
     \/ (count outputs_map input = false /\ count inputs_map input = false))
  /\ (elide op input = true ->
      exists st', step st idx = Ok st'
        /\ find (output op) (var_rewrites st') = Some input
        /\ find (output op) (local_var_rewrites st') = Some input
        /\ unified_post_ops st' = unified_post_ops st)
  /\ (elide op input = false ->
      step st idx =
        (r <- rewrite_ins (local_var_rewrites st) (inputs op)
                (war_safe_reads st) (post_contraction_inputs st) ;;
         Ok (retained_state st op r))
      /\ forall st', step st idx = Ok st' ->
           var_rewrites st' = var_rewrites st
           /\ local_var_rewrites st' = local_var_rewrites st
           /\ exists ins, unified_post_ops st' =
                          unified_post_ops st ++ [with_inputs op ins]).
Proof.
  intros op input Hpre Hfresh Htag Hfn Hin Hinb Houtb Hten Hbytes Helems.
  assert (Hro : is_reshape_or_ident op = true).
  { unfold is_reshape_or_ident. destruct Hfn as [-> | ->]; reflexivity. }
  pose proof (reshape_checks_pass (var_rewrites st) op in0 rest inb outb
                Hin Hinb Houtb Hten Hbytes Helems) as Hchk.
  pose proof (unify_op_reshape st idx input Htag Hro Hchk) as Hstep.
  fold op in Hstep.
  split; [|split].
  - unfold elide, elide_test.
    rewrite orb_true_iff, andb_true_iff, !negb_true_iff. reflexivity.
  - intros He. rewrite He in Hstep. eexists. split; [exact Hstep|].
    simpl. split; [apply find_assign_same|]. split; [|reflexivity].
    apply find_emplace_fresh.
    destruct (unify_loop_other pre (output op) _ _ Hpre Hfresh) as [_ Hl].
    rewrite Hl. reflexivity.
  - intros He. rewrite He in Hstep. split; [exact Hstep|].
    intros st' Hok. rewrite Hstep in Hok.
    destruct (rewrite_ins _ _ _ _) as [r|e]; simpl in Hok; [|discriminate].
    injection Hok as <-. simpl. split; [reflexivity|]. split; [reflexivity|].
    eexists. reflexivity.
Qed.

Lemma unify_loop_app (l1 l2 : list nat) :
  forall st, loop st (l1 ++ l2) = (st1 <- loop st l1 ;; loop st1 l2).
Proof.
  induction l1 as [|i rest IH]; intros st; simpl; [reflexivity|].
  unfold loop. simpl. fold (step st i). fold loop.
  destruct (step st i); simpl; [apply IH | reflexivity].
Qed.

Lemma reshape_checks_result (vr : VarRewrites.t) (op : Op) (input in0 : string) :
  checks vr op = Ok input -> hd_error (inputs op) = Some in0 ->
  input = VarRewrites.Lookup vr in0.
Proof.
  unfold checks, reshape_checks. destruct (inputs op) as [|x rest]; [discriminate|].
  simpl. intros H Hhd. injection Hhd as ->.
  destruct (at_ vars in0) as [inb|e]; simpl in H; [|discriminate].
  destruct (at_ vars (output op)) as [outb|e]; simpl in H; [|discriminate].
  destruct (negb (is_tensor _)); [discriminate|].
  destruct (negb (byte_size _ _ =? _)); [discriminate|].
  destruct (negb (elem_size _ =? _)); [discriminate|].
  now injection H as <-.
Qed.

(** A reshape whose looked-up input makes the elision test succeed
    leaves the state of an elision, if the iteration returns at all. *)
Lemma unify_op_elides (st st' : UnifyState) (idx : nat) (src dst input : string) :
  reshape_of (op_at prog idx) src dst ->
  step st idx = Ok st' ->
  input = VarRewrites.Lookup (var_rewrites st) src ->
  elide (op_at prog idx) input = true ->
  st' = elided_state st dst input.
Proof.
  intros [Htag [Hfn [Hhd Hout]]] Hstep Hinput He.
  assert (Hro : is_reshape_or_ident (op_at prog idx) = true)
    by (unfold is_reshape_or_ident; now rewrite Hfn).
  destruct (checks (var_rewrites st) (op_at prog idx)) as [input'|e] eqn:Hchk.
  - pose proof (reshape_checks_result _ _ _ _ Hchk Hhd) as Hi.
    rewrite <- Hinput in Hi. subst input'.
    rewrite (unify_op_reshape st idx input Htag Hro Hchk), He, Hout in Hstep.
    now injection Hstep as <-.
  - unfold step, unify_op in Hstep. rewrite Htag, Hro in Hstep. simpl in Hstep.
    fold checks in Hstep. rewrite Hchk in Hstep. discriminate Hstep.
Qed.

(** C7, as the source has it. For a fused chain [b = reshape(a)],
    [c = reshape(b)] in which neither [a] nor [b] is a program output or
    program input, [a] has no rewrite of its own when the op of [b] is
    processed, and no op processed between the two defines [a] or [b]:
    once both ops are processed, [var_rewrites.Lookup(c)] is [a]. *)
Theorem reshape_chain (st0 st' : UnifyState) (ib ic : nat) (mid : list nat)
    (a b c_ : string) :
  loop st0 (ib :: mid ++ [ic]) = Ok st' ->
  reshape_of (op_at prog ib) a b ->
  reshape_of (op_at prog ic) b c_ ->
  internal inputs_map outputs_map a ->
  internal inputs_map outputs_map b ->
  find a (var_rewrites st0) = None ->
  (forall j, In j mid -> output (op_at prog j) <> a /\ output (op_at prog j) <> b) ->
  VarRewrites.Lookup (var_rewrites st') c_ = a.
Proof.
  intros Hloop Hb Hc [Hao Hai] [Hbo _] Ha0 Hmid.
  change (ib :: mid ++ [ic]) with ([ib] ++ mid ++ [ic]) in Hloop.
  rewrite unify_loop_app in Hloop.
  unfold loop at 1 in Hloop. simpl in Hloop. fold (step st0 ib) in Hloop.
  destruct (step st0 ib) as [st1|e] eqn:Hs1; simpl in Hloop; [|discriminate].
  rewrite unify_loop_app in Hloop.
  destruct (loop st1 mid) as [st2|e] eqn:Hl2; simpl in Hloop; [|discriminate].
  unfold loop in Hloop. simpl in Hloop. fold (step st2 ic) in Hloop.
  destruct (step st2 ic) as [st3|e] eqn:Hs3; simpl in Hloop; [|discriminate].
  injection Hloop as <-.
  (* the op of [b] *)
  assert (E1 : st1 = elided_state st0 b a).
  { apply (unify_op_elides st0 st1 ib a b a Hb Hs1).
    - symmetry. apply Lookup_unmapped, Ha0.
    - unfold elide, elide_test. destruct Hb as [_ [_ [_ ->]]]. now rewrite Hbo. }
  assert (Hb1 : find b (var_rewrites st1) = Some a).
  { subst st1. simpl. apply find_assign_same. }
  assert (Ha1 : a = b \/ find a (var_rewrites st1) = None).
  { destruct (String.eqb_spec a b) as [E | N]; [left; exact E | right].
    subst st1. simpl. unfold VarRewrites.Insert.
    now rewrite find_assign_other. }
  (* the ops in between *)
  destruct (unify_loop_other mid b _ _ Hl2 (fun j Hj => proj2 (Hmid j Hj))) as [Hb2 _].
  destruct (unify_loop_other mid a _ _ Hl2 (fun j Hj => proj1 (Hmid j Hj))) as [Ha2 _].
  rewrite Hb1 in Hb2.
  (* the op of [c] *)
  assert (L2 : VarRewrites.Lookup (var_rewrites st2) b = a).
  { apply Lookup_one_step; [exact Hb2|].
    destruct Ha1 as [E | N]; [left; exact E | right; left; congruence]. }
  assert (E3 : st3 = elided_state st2 c_ a).
  { apply (unify_op_elides st2 st3 ic b c_ a Hc Hs3).
    - symmetry. exact L2.
    - unfold elide, elide_test. rewrite Hao, Hai. simpl. apply orb_true_r. }
  subst st3. simpl. unfold VarRewrites.Insert.
  apply Lookup_one_step; [apply find_assign_same|].
  destruct (String.eqb_spec a c_) as [E | N]; [left; exact E | right].
  rewrite find_assign_other by exact N. rewrite Ha2.
  destruct Ha1 as [E | Hn]; [right | left; exact Hn].
  subst b. exact Hb1.
Qed.

End UnifyFacts.

(* ================================================================= *)
(** ** The integrator on concrete programs *)

Section UnifyConcrete.
Import Unify Examples.

Lemma reshape_elision_witness :
  exists st',
    unify_op_with vars_elided prog_elided ins_elided outs_elided [0%nat] unify_start 0
    = Ok st'
    /\ find "y" (var_rewrites st') = Some "x"
    /\ find "y" (local_var_rewrites st') = Some "x"
    /\ unified_post_ops st' = [].
Proof.
  unfold unify_op_with.
  refine (proj1 (proj2
    (reshape_elision byte_width_std prog_elided (mk_usedef prog_elided) vars_elided
       ins_elided outs_elided [0%nat] [] [] [] [] unify_start 0%nat
       "x" [] (tensor [16]) (tensor [4; 4])
       eq_refl _ eq_refl (or_introl eq_refl) eq_refl eq_refl eq_refl eq_refl
       eq_refl eq_refl)) eq_refl).
  intros j [].
Defined.

Lemma reshape_chain_witness :
  VarRewrites.Lookup [("b", "a"); ("c", "a")] "c" = "a".
Proof.
  refine (reshape_chain byte_width_std prog_chain2 (mk_usedef prog_chain2) vars_chain
            ins_chain outs_chain [0; 1; 2]%nat unify_start
            (mkUnify [("b", "a"); ("c", "a")] [("b", "a"); ("c", "a")] [] [] [])
            1%nat 2%nat [] "a" "b" "c" eq_refl _ _ _ _ eq_refl _).
  - repeat split.
  - repeat split.
  - split; reflexivity.
  - split; reflexivity.
  - intros j [].
Defined.

(** C7 as stated fails: in [prog_chain] the chain [b = reshape(a)],
    [c = reshape(b)] is fused, [a] and [b] are neither program inputs nor
    program outputs and are read by fused ops only; [a] is itself the
    elided reshape of [x], and [Lookup(c)] is [x]. *)
Lemma reshape_chain_counterexample :
  (exists flat war,
     unification_with vars_chain prog_chain ins_chain outs_chain 0
     = Ok (flat, [0; 1; 2; 3]%nat, [("a", "x"); ("b", "x"); ("c", "x")], war))
  /\ ~ spec_chain_law prog_chain ins_chain outs_chain [0; 1; 2; 3]%nat
         [("a", "x"); ("b", "x"); ("c", "x")].
Proof.
  split; [do 2 eexists; vm_compute; reflexivity|].
  intros H. specialize (H 1%nat 2%nat "a" "b" "c").
  assert (Hchain : fused_chain prog_chain ins_chain outs_chain [0; 1; 2; 3]%nat
                     1 2 "a" "b" "c").
  { unfold fused_chain, reshape_of, internal, no_external_use.
    repeat split; simpl; auto.
    - intros j Hj Hin.
      do 5 (destruct j as [|j]; [simpl in Hin; intuition discriminate|]).
      simpl in Hj. lia.
    - intros j Hj Hin.
      do 5 (destruct j as [|j]; [simpl in Hin; intuition discriminate|]).
      simpl in Hj. lia. }
  specialize (H Hchain). vm_compute in H. discriminate H.
Qed.

End UnifyConcrete.

(* ================================================================= *)
(** * Further properties *)

(** ** SimplifyFlat: which pair is merged *)

Section SimplifyPairs.
Import Simplify Address.

Variable flat : FlatContraction.

Lemma mergeable_zero_stride (i j : nat) :
  u64 (stride0 flat i) = 0 -> mergeable flat i j = false.
Proof. intros H. unfold mergeable. rewrite H. reflexivity. Qed.

(** The inner loop returns the merge at the first [j] that passes. *)
Lemma j_loop_first (i : nat) (n : nat) :
  (u64 (stride0 flat i) =? 0) = false ->
  forall b,
    match j_loop flat i (u64 (stride0 flat i)) (seq b n) with
    | Some flat' =>
        exists j, (b <= j < b + n)%nat /\ mergeable flat i j = true
          /\ (forall j', (b <= j' < j)%nat -> mergeable flat i j' = false)
          /\ flat' = combine_indexes flat i j
    | None => forall j, (b <= j < b + n)%nat -> mergeable flat i j = false
    end.
Proof.
  intros Hi. induction n as [|n IH]; intros b; simpl; [intros j Hj; lia|].
  assert (Hskip : mergeable flat i b = false ->
    match j_loop flat i (u64 (stride0 flat i)) (seq (S b) n) with
    | Some flat' =>
        exists j, (b <= j < b + S n)%nat /\ mergeable flat i j = true
          /\ (forall j', (b <= j' < j)%nat -> mergeable flat i j' = false)
          /\ flat' = combine_indexes flat i j
    | None => forall j, (b <= j < b + S n)%nat -> mergeable flat i j = false
    end).
  { intros Hb. specialize (IH (S b)).
    destruct (j_loop flat i _ (seq (S b) n)) as [fl|].
    - destruct IH as [j [Hj [Hm [Hfirst ->]]]]. exists j.
      split; [lia|]. split; [exact Hm|]. split; [|reflexivity].
      intros j' Hj'. destruct (Nat.eq_dec j' b) as [-> | Hne]; [exact Hb|].
      apply Hfirst. lia.
    - intros j Hj. destruct (Nat.eq_dec j b) as [-> | Hne]; [exact Hb|].
      apply IH. lia. }
  destruct (u64 (stride0 flat b) =? 0) eqn:Eb.
  { apply Hskip. unfold mergeable. rewrite Eb. simpl.
    now rewrite andb_false_r. }
  destruct (u64 (stride0 flat i) =? u64 (range_at flat b * u64 (stride0 flat b))) eqn:Ec;
    simpl.
  2:{ apply Hskip. unfold mergeable. rewrite Ec. simpl. now rewrite andb_false_r. }
  destruct (all_good flat i b _ _) eqn:Eg; simpl.
  2:{ apply Hskip. unfold mergeable. rewrite Eg. now rewrite andb_false_r. }
  exists b. split; [lia|]. split.
  - unfold mergeable. now rewrite Hi, Eb, Ec, Eg.
  - split; [intros j' Hj'; lia | reflexivity].
Qed.

(** The outer loop returns the merge at the first pair that passes. *)
Lemma i_loop_first (sz n : nat) :
  forall a,
    match i_loop flat sz (seq a n) with
    | Some flat' =>
        exists i j, (a <= i < a + n)%nat /\ (j < sz)%nat /\ mergeable flat i j = true
          /\ (forall i' j', (a <= i')%nat -> (j' < sz)%nat -> before i' j' i j ->
                            mergeable flat i' j' = false)
          /\ flat' = combine_indexes flat i j
    | None => forall i j, (a <= i < a + n)%nat -> (j < sz)%nat ->
                          mergeable flat i j = false
    end.
Proof.
  induction n as [|n IH]; intros a; simpl; [intros i j Hi; lia|].
  assert (Hskip : (forall j, (j < sz)%nat -> mergeable flat a j = false) ->
    match i_loop flat sz (seq (S a) n) with
    | Some flat' =>
        exists i j, (a <= i < a + S n)%nat /\ (j < sz)%nat /\ mergeable flat i j = true
          /\ (forall i' j', (a <= i')%nat -> (j' < sz)%nat -> before i' j' i j ->
                            mergeable flat i' j' = false)
          /\ flat' = combine_indexes flat i j
    | None => forall i j, (a <= i < a + S n)%nat -> (j < sz)%nat ->
                          mergeable flat i j = false
    end).
  { intros Ha. specialize (IH (S a)).
    destruct (i_loop flat sz (seq (S a) n)) as [fl|].
    - destruct IH as [i [j [Hi [Hj [Hm [Hfirst ->]]]]]]. exists i, j.
      split; [lia|]. split; [exact Hj|]. split; [exact Hm|]. split; [|reflexivity].
      intros i' j' Hi' Hj' Hb. destruct (Nat.eq_dec i' a) as [-> | Hne];
        [apply Ha, Hj'|]. apply Hfirst; [lia | exact Hj' | exact Hb].
    - intros i j Hi Hj. destruct (Nat.eq_dec i a) as [-> | Hne]; [apply Ha, Hj|].
      apply IH; [lia | exact Hj]. }
  destruct (u64 (stride0 flat a) =? 0) eqn:Ea.
  { apply Hskip. intros j _. apply mergeable_zero_stride. now apply Z.eqb_eq. }
  pose proof (j_loop_first a sz Ea 0%nat) as Hj.
  destruct (j_loop flat a _ (seq 0 sz)) as [fl|].
  - destruct Hj as [j [Hj [Hm [Hfirst ->]]]]. exists a, j.
    split; [lia|]. split; [lia|]. split; [exact Hm|]. split; [|reflexivity].
    intros i' j' Hi' Hj' [Hlt | [-> Hlt]]; [lia|]. apply Hfirst. lia.
  - apply Hskip. intros j Hlt. apply Hj. lia.
Qed.

(** A reported change is the merge of a pair that passes the test. *)
Lemma SimplifyFlat_true_inv (flat' : FlatContraction) :
  SimplifyFlat flat = (true, flat') ->
  exists i j,
    (i < length (ranges flat))%nat /\ (j < length (ranges flat))%nat
    /\ mergeable flat i j = true /\ flat' = combine_indexes flat i j.
Proof.
  unfold SimplifyFlat. destruct (0 <? _)%nat; [discriminate|].
  pose proof (i_loop_first (length (ranges flat)) (length (ranges flat)) 0%nat) as H.
  destruct (i_loop flat _ _) as [fl|]; [|discriminate].
  intros E; injection E as <-.
  destruct H as [i [j [Hi [Hj [Hm [_ ->]]]]]]. exists i, j.
  split; [lia|]. auto.
Qed.

(** X1. [SimplifyFlat] reports a change exactly when there are no
    constraints and some pair of indices passes its test; it then merges
    the first such pair in the order of its two loops (ascending [i],
    then ascending [j]). *)
Theorem SimplifyFlat_merges_first_pair (flat' : FlatContraction) :
  SimplifyFlat flat = (true, flat') <->
  constraints flat = []
  /\ exists i j,
       (i < length (ranges flat))%nat /\ (j < length (ranges flat))%nat
       /\ mergeable flat i j = true
       /\ (forall i' j', (i' < length (ranges flat))%nat ->
                         (j' < length (ranges flat))%nat ->
                         before i' j' i j -> mergeable flat i' j' = false)
       /\ flat' = combine_indexes flat i j.
Proof.
  unfold SimplifyFlat.
  pose proof (i_loop_first (length (ranges flat)) (length (ranges flat)) 0%nat) as H.
  destruct (constraints flat) as [|fc rest] eqn:Ec; simpl.
  - destruct (i_loop flat _ _) as [fl|].
    + destruct H as [i [j [Hi [Hj [Hm [Hfirst ->]]]]]]. split.
      * intros E; injection E as <-. split; [reflexivity|]. exists i, j.
        split; [lia|]. split; [exact Hj|]. split; [exact Hm|]. split; [|reflexivity].
        intros i' j' _ Hj' Hb. apply Hfirst; [lia | exact Hj' | exact Hb].
      * intros [_ [i0 [j0 [Hi0 [Hj0 [Hm0 [Hfirst0 ->]]]]]]].
        assert (E : i0 = i /\ j0 = j).
        { destruct (lt_eq_lt_dec i0 i) as [[Hlt | Heq] | Hgt].
          - rewrite (Hfirst i0 j0) in Hm0; [discriminate | lia | exact Hj0 |].
            left. exact Hlt.
          - subst i0. destruct (lt_eq_lt_dec j0 j) as [[Hlt | Heq] | Hgt].
            + rewrite (Hfirst i j0) in Hm0; [discriminate | lia | exact Hj0 |].
              right. auto.
            + auto.
            + rewrite (Hfirst0 i j) in Hm; [discriminate | lia | exact Hj |].
              right. auto.
          - rewrite (Hfirst0 i j) in Hm; [discriminate | lia | exact Hj |].
            left. exact Hgt. }
        destruct E as [-> ->]. reflexivity.
    + split; [discriminate|].
      intros [_ [i [j [Hi [Hj [Hm _]]]]]]. rewrite H in Hm; [discriminate | lia | exact Hj].
  - split; [discriminate | intros [E _]; discriminate E].
Qed.

End SimplifyPairs.

(** ** SimplifyFlat: what a merge keeps *)

Section SimplifyKeeps.
Import Simplify Address.

Lemma erase_nil {A : Type} (i : nat) : erase i (@nil A) = [].
Proof. unfold erase. destruct i; reflexivity. Qed.

Lemma erase_cons_0 {A : Type} (a : A) (l : list A) : erase 0 (a :: l) = l.
Proof. reflexivity. Qed.

Lemma erase_cons_S {A : Type} (i : nat) (a : A) (l : list A) :
  erase (S i) (a :: l) = a :: erase i l.
Proof. reflexivity. Qed.

Lemma combine_indexes_lengths (flat : FlatContraction) (i j : nat) :
  wf_lengths flat -> (i < length (ranges flat))%nat ->
  wf_lengths (combine_indexes flat i j)
  /\ S (length (names (combine_indexes flat i j))) = length (names flat).
Proof.
  intros [Hr [Ha Hp]] Hi.
  assert (Hn : S (length (names (combine_indexes flat i j))) = length (names flat)).
  { simpl. rewrite erase_length; [apply set_nth_length | rewrite set_nth_length; lia]. }
  split; [|exact Hn]. unfold wf_lengths.
  assert (Hfix : forall a, length (strides a) = length (names flat) ->
                 length (strides (fixup i a)) = length (names (combine_indexes flat i j))).
  { intros a Hlen. simpl strides. apply eq_add_S. rewrite Hn, <- Hlen.
    apply erase_length. lia. }
  split; [|split].
  - apply eq_add_S. rewrite Hn, <- Hr. simpl.
    rewrite erase_length; [apply set_nth_length | rewrite set_nth_length; lia].
  - simpl access. apply Forall_map. eapply Forall_impl; [|exact Ha]. exact Hfix.
  - simpl post_op_inputs. apply Forall_map. eapply Forall_impl; [|exact Hp].
    intros kv Hlen. simpl. apply Hfix, Hlen.
Qed.

Lemma combine_indexes_frame (flat : FlatContraction) (i j : nat) :
  same_frame flat (combine_indexes flat i j).
Proof.
  unfold same_frame. simpl. rewrite !map_map. simpl.
  repeat split; reflexivity.
Qed.

Lemma same_frame_trans (f1 f2 f3 : FlatContraction) :
  same_frame f1 f2 -> same_frame f2 f3 -> same_frame f1 f3.
Proof.
  unfold same_frame. intros H1 H2.
  repeat match goal with H : _ /\ _ |- _ => destruct H end.
  repeat split; congruence.
Qed.

Lemma same_frame_refl (flat : FlatContraction) : same_frame flat flat.
Proof. unfold same_frame. repeat split; reflexivity. Qed.

Lemma simplify_loop_keeps (fuel : nat) :
  forall flat, wf_lengths flat ->
    wf_lengths (simplify_loop fuel flat)
    /\ same_frame flat (simplify_loop fuel flat)
    /\ (length (names (simplify_loop fuel flat)) <= length (names flat))%nat.
Proof.
  induction fuel as [|fuel IH]; intros flat W; simpl.
  - split; [exact W|]. split; [apply same_frame_refl | lia].
  - destruct (SimplifyFlat flat) as [[|] flat'] eqn:Hs.
    + apply SimplifyFlat_true_inv in Hs as [i [j [Hi [_ [_ ->]]]]].
      destruct (combine_indexes_lengths flat i j W Hi) as [W' Hlen].
      destruct (IH _ W') as [W'' [Hf Hle]].
      split; [exact W''|]. split; [|lia].
      eapply same_frame_trans; [apply combine_indexes_frame | exact Hf].
    + apply SimplifyFlat_unchanged in Hs. subst flat'.
      split; [exact W|]. split; [apply same_frame_refl | lia].
Qed.

(** X2. The flattening loop of [ContractionWrap] ends on a flat
    contraction that [SimplifyFlat] leaves unchanged; from a flat
    contraction that satisfies the length invariants it keeps them, never
    adds an index, and changes nothing but index names, ranges and
    strides: offsets, index limits, the keys of the post-op inputs,
    constraints, post-ops, kernel outputs and the output name stay. *)
Theorem simplify_all_keeps (flat : FlatContraction) :
  wf_lengths flat ->
  fst (SimplifyFlat (simplify_all flat)) = false
  /\ wf_lengths (simplify_all flat)
  /\ same_frame flat (simplify_all flat)
  /\ (length (names (simplify_all flat)) <= length (names flat))%nat.
Proof.
  intros W. split; [apply simplify_all_stable|].
  apply simplify_loop_keeps, W.
Qed.

End SimplifyKeeps.

(** ** SimplifyFlat: a merge keeps every address *)

Section SimplifyAddresses.
Import Simplify Address.

Lemma u64_inj_i64 (a b : Z) : in_i64 a -> in_i64 b -> u64 a = u64 b -> a = b.
Proof.
  unfold in_i64, u64. intros Ha Hb E.
  pose proof (Z.div_mod a (2 ^ 64) ltac:(discriminate)) as Da.
  pose proof (Z.div_mod b (2 ^ 64) ltac:(discriminate)) as Db.
  rewrite E in Da.
  change (2 ^ 64) with 18446744073709551616 in *.
  change (2 ^ 63) with 9223372036854775808 in *.
  lia.
Qed.

Lemma u64_mul_u64 (r s : Z) : u64 (r * u64 s) = u64 (r * s).
Proof. unfold u64. apply Z.mul_mod_idemp_r. discriminate. Qed.

Lemma nth_i64 (l : list Z) (k : nat) : Forall in_i64 l -> in_i64 (nth k l 0).
Proof.
  intros H. destruct (Nat.lt_ge_cases k (length l)) as [Hlt | Hge].
  - rewrite Forall_forall in H. apply H, nth_In, Hlt.
  - rewrite nth_overflow by exact Hge. unfold in_i64.
    change (2 ^ 63) with 9223372036854775808. lia.
Qed.

Lemma dot_nil_r (sts : list Z) : dot sts [] = 0.
Proof. destruct sts; reflexivity. Qed.

Lemma dot_erase (sts : list Z) :
  forall v i, dot sts v = nth i sts 0 * nth i v 0 + dot (erase i sts) (erase i v).
Proof.
  induction sts as [|s sts IH]; intros v i.
  - rewrite erase_nil. simpl. destruct i; reflexivity.
  - destruct v as [|x v].
    + rewrite erase_nil, !dot_nil_r. destruct i; simpl; lia.
    + destruct i as [|i].
      * rewrite !erase_cons_0. simpl. lia.
      * rewrite !erase_cons_S. simpl. rewrite (IH v i). lia.
Qed.

Lemma dot_set_nth (sts : list Z) :
  forall v j x, (j < length v)%nat ->
    dot sts (set_nth j x v) = dot sts v + nth j sts 0 * (x - nth j v 0).
Proof.
  induction sts as [|s sts IH]; intros v j x Hj.
  - simpl. destruct j; simpl; lia.
  - destruct v as [|y v]; [simpl in Hj; lia|].
    destruct j as [|j]; simpl.
    + lia.
    + rewrite (IH v j x) by (simpl in Hj; lia). lia.
Qed.

Lemma nth_set_nth_same {A : Type} (d x : A) (l : list A) :
  forall j, (j < length l)%nat -> nth j (set_nth j x l) d = x.
Proof.
  induction l as [|a t IH]; intros j Hj; [simpl in Hj; lia|].
  destruct j as [|j]; simpl; [reflexivity | apply IH; simpl in Hj; lia].
Qed.

Lemma nth_set_nth_other {A : Type} (d x : A) (l : list A) :
  forall i j, i <> j -> nth i (set_nth j x l) d = nth i l d.
Proof.
  induction l as [|a t IH]; intros i j Hne; [destruct j; reflexivity|].
  destruct j as [|j], i as [|i]; simpl; try reflexivity; try lia.
  apply IH. lia.
Qed.

(** Merging index [i] into [j] keeps the sum, when the stride at [i] is
    [r] times the stride at [j]. *)
Lemma dot_merge (sts v : list Z) (i j : nat) (r : Z) :
  (j < length v)%nat ->
  nth i sts 0 = r * nth j sts 0 ->
  (i = j -> nth i v 0 = 0) ->
  dot (erase i sts) (erase i (set_nth j (r * nth i v 0 + nth j v 0) v)) = dot sts v.
Proof.
  intros Hj Hs Hsame.
  pose proof (dot_erase sts (set_nth j (r * nth i v 0 + nth j v 0) v) i) as He.
  rewrite dot_set_nth in He by exact Hj.
  destruct (Nat.eq_dec i j) as [E | N].
  - subst j. rewrite nth_set_nth_same in He by exact Hj.
    rewrite (Hsame eq_refl) in *. lia.
  - rewrite nth_set_nth_other in He by exact N. rewrite Hs in He. lia.
Qed.

Section OnePair.

Variable flat : FlatContraction.
Variables i j : nat.

Hypothesis W : wf_flat flat.
Hypothesis no_overflow : forall k, in_i64 (range_at flat k * stride0 flat k).
Hypothesis Hm : mergeable flat i j = true.

Lemma access0_strides_i64 : Forall in_i64 (strides (access0 flat)).
Proof.
  unfold access0. pose proof (wf_strides_i64 _ W) as H. rewrite Forall_forall in H.
  apply H. destruct (access flat) as [|a t] eqn:E; [now apply wf_access in W|].
  simpl. auto.
Qed.

Lemma merged_strides : stride0 flat i = range_at flat j * stride0 flat j.
Proof.
  unfold mergeable in Hm. rewrite !andb_true_iff in Hm.
  destruct Hm as [[[_ _] Hc] _]. apply Z.eqb_eq in Hc.
  rewrite u64_mul_u64 in Hc.
  apply u64_inj_i64; [apply nth_i64, access0_strides_i64 | apply no_overflow | exact Hc].
Qed.

Lemma merged_stride_nonzero : stride0 flat i <> 0.
Proof.
  unfold mergeable in Hm. rewrite !andb_true_iff in Hm.
  destruct Hm as [[[Hi _] _] _]. apply negb_true_iff, Z.eqb_neq in Hi.
  intros E. apply Hi. rewrite E. reflexivity.
Qed.

(** An access that passes [is_safe] has the strides of the output at
    [i] and [j]. *)
Lemma safe_strides (a : FlatTensorAccess) :
  Forall in_i64 (strides a) ->
  is_safe i j (u64 (stride0 flat i)) (u64 (stride0 flat j)) a = true ->
  nth i (strides a) 0 = range_at flat j * nth j (strides a) 0.
Proof.
  intros Ha Hs. rewrite is_safe_perfect_match, andb_true_iff, !Z.eqb_eq in Hs.
  destruct Hs as [Hi Hj].
  apply u64_inj_i64 in Hi; [|apply nth_i64, Ha | apply nth_i64, access0_strides_i64].
  apply u64_inj_i64 in Hj; [|apply nth_i64, Ha | apply nth_i64, access0_strides_i64].
  rewrite Hi, Hj. apply merged_strides.
Qed.

Lemma merged_address (a : FlatTensorAccess) (v : list Z) :
  nth i (strides a) 0 = range_at flat j * nth j (strides a) 0 ->
  (j < length (ranges flat))%nat ->
  in_ranges flat v ->
  address (fixup i a) (merge_index flat i j v) = address a v.
Proof.
  intros Hs Hj [Hlen Hv]. unfold address, merge_index. simpl.
  f_equal. apply dot_merge; [lia | exact Hs|].
  intros E.
  pose proof merged_strides as M. pose proof merged_stride_nonzero as NZ.
  rewrite <- E in M.
  assert (R : range_at flat i = 1) by nia.
  specialize (Hv i ltac:(lia)). lia.
Qed.

End OnePair.

(** X3. A merge renames the iteration space without moving any access:
    on a well-formed flat contraction whose strides are 64-bit signed and
    whose products [range * output stride] do not overflow, when
    [SimplifyFlat] merges index [i] into [j], every index vector [v]
    within the ranges and the merged vector (value
    [range[j] * v[i] + v[j]] at [j], index [i] dropped) give the same
    linear address in every access and in every post-op input. *)
Theorem SimplifyFlat_keeps_addresses (flat flat' : FlatContraction) :
  wf_flat flat ->
  Forall (fun kv => Forall in_i64 (strides (snd kv))) (post_op_inputs flat) ->
  (forall k, in_i64 (range_at flat k * stride0 flat k)) ->
  SimplifyFlat flat = (true, flat') ->
  exists i j,
    flat' = combine_indexes flat i j
    /\ forall v, in_ranges flat v ->
         (forall k, address (nth k (access flat') default_access) (merge_index flat i j v)
                    = address (nth k (access flat) default_access) v)
         /\ (forall k name a, nth_error (post_op_inputs flat) k = Some (name, a) ->
               exists a', nth_error (post_op_inputs flat') k = Some (name, a')
                 /\ address a' (merge_index flat i j v) = address a v).
Proof.
  intros W Hp Hno Hs.
  apply SimplifyFlat_true_inv in Hs as [i [j [Hi [Hj [Hm ->]]]]].
  exists i, j. split; [reflexivity|]. intros v Hv.
  assert (Hgood :
    Simplify.all_good flat i j (u64 (stride0 flat i)) (u64 (stride0 flat j)) = true).
  { unfold mergeable in Hm. rewrite !andb_true_iff in Hm. tauto. }
  unfold Simplify.all_good in Hgood. rewrite andb_true_iff, !forallb_forall in Hgood.
  destruct Hgood as [Hacc Hpost].
  split.
  - intros k. simpl access.
    destruct (Nat.lt_ge_cases k (length (access flat))) as [Hk | Hk].
    + replace default_access with (fixup i default_access) at 1
        by (unfold fixup; simpl; now rewrite erase_nil).
      rewrite map_nth. apply (merged_address flat i j W Hno Hm); [|exact Hj | exact Hv].
      destruct k as [|k].
      * apply (merged_strides flat i j W Hno Hm).
      * assert (Hin : In (nth (S k) (access flat) default_access) (skipn 1 (access flat))).
        { destruct (access flat) as [|a0 t]; [simpl in Hk; lia|].
          simpl. apply nth_In. simpl in Hk. lia. }
        apply (safe_strides flat i j W Hno Hm); [|apply Hacc, Hin].
        pose proof (wf_strides_i64 _ W) as HF. rewrite Forall_forall in HF.
        apply HF, nth_In, Hk.
    + rewrite !nth_overflow by (try rewrite length_map; exact Hk).
      unfold address. simpl. reflexivity.
  - intros k name a Hk. simpl post_op_inputs.
    exists (fixup i a). split.
    + rewrite nth_error_map, Hk. reflexivity.
    + apply nth_error_In in Hk.
      apply (merged_address flat i j W Hno Hm); [|exact Hj | exact Hv].
      apply (safe_strides flat i j W Hno Hm).
      * rewrite Forall_forall in Hp. apply (Hp _ Hk).
      * apply (Hpost _ Hk).
Qed.

End SimplifyAddresses.

Section SimplifyRanges.
Import Simplify Address.

Lemma nth_erase {A : Type} (d : A) (l : list A) :
  forall i k, nth k (erase i l) d = nth (if (k <? i)%nat then k else S k) l d.
Proof.
  induction l as [|a t IH]; intros i k.
  - rewrite erase_nil. destruct (k <? i)%nat, k; reflexivity.
  - destruct i as [|i].
    + rewrite erase_cons_0. reflexivity.
    + rewrite erase_cons_S. destruct k as [|k]; [reflexivity|].
      simpl nth at 1. rewrite IH.
      change (S k <? S i)%nat with (k <? i)%nat.
      destruct (k <? i)%nat; reflexivity.
Qed.

(** X4. The merged index vector lies within the merged ranges: when
    the products of two ranges fit in 64 bits, a merge of [i] into [j]
    sends every index vector within the ranges of the flat contraction to
    a vector within the ranges of the merged one. *)
Theorem SimplifyFlat_keeps_ranges (flat flat' : FlatContraction) :
  wf_flat flat ->
  (forall a b, in_u64 (range_at flat a * range_at flat b)) ->
  SimplifyFlat flat = (true, flat') ->
  exists i j,
    flat' = combine_indexes flat i j
    /\ forall v, in_ranges flat v -> in_ranges flat' (merge_index flat i j v).
Proof.
  intros W Hfit Hs.
  apply SimplifyFlat_true_inv in Hs as [i [j [Hi [Hj [_ ->]]]]].
  exists i, j. split; [reflexivity|]. intros v [Hlen Hv].
  assert (Hl : length (merge_index flat i j v)
               = length (ranges (combine_indexes flat i j))).
  { unfold merge_index. simpl. apply eq_add_S.
    rewrite !erase_length by (rewrite set_nth_length; lia).
    now rewrite !set_nth_length. }
  split; [exact Hl|].
  assert (Hlm : S (length (merge_index flat i j v)) = length v).
  { unfold merge_index. rewrite erase_length; rewrite set_nth_length; lia. }
  intros k Hk.
  assert (Hk' : ((if (k <? i)%nat then k else S k) < length v)%nat).
  { destruct (k <? i)%nat eqn:E; [apply Nat.ltb_lt in E; lia | lia]. }
  unfold range_at, merge_index in *. simpl ranges.
  rewrite !nth_erase.
  set (k' := if (k <? i)%nat then k else S k) in *.
  destruct (Nat.eq_dec k' j) as [E | N].
  - rewrite E, !nth_set_nth_same by lia.
    pose proof (Hv i ltac:(lia)) as Bi. pose proof (Hv j ltac:(lia)) as Bj.
    unfold range_at in Bi, Bj.
    rewrite u64_id by apply (Hfit j i).
    assert (0 <= nth j (ranges flat) 0 * nth i v 0)
      by (apply Z.mul_nonneg_nonneg; lia).
    assert (nth j (ranges flat) 0 * nth i v 0
            <= nth j (ranges flat) 0 * (nth i (ranges flat) 0 - 1))
      by (apply Z.mul_le_mono_nonneg_l; lia).
    unfold range_at. lia.
  - rewrite !nth_set_nth_other by exact N. apply Hv, Hk'.
Qed.

End SimplifyRanges.

(* ================================================================= *)
(** ** NeedsZero: what a negative answer guarantees *)

Section ZeroCover.
Import Zero Address.

(** X5. Whatever the constraints, a nonzero output offset or a negative
    output stride makes [NeedsZero] answer true. *)
Theorem NeedsZero_offset_or_negative (flat : FlatContraction) (ts : TensorShape) :
  offset (access0 flat) <> 0
  \/ (exists i, (i < length (names flat))%nat /\ stride0 flat i < 0) ->
  NeedsZero flat ts = true.
Proof.
  intros [Hoff | [i [Hi Hneg]]]; unfold NeedsZero.
  - apply Z.eqb_neq in Hoff. now rewrite Hoff.
  - destruct (negb (offset (access0 flat) =? 0)); [reflexivity|].
    assert (N : pattern_loop flat (seq 0 (length (names flat))) [] = None).
    { apply pattern_loop_none. exists i. split; [apply in_seq; lia | exact Hneg]. }
    now rewrite N.
Qed.

Lemma prod_ranges_pos (ps : list (Z * Z)) :
  (forall p, In p ps -> 1 <= snd p) -> 1 <= prod_ranges ps.
Proof.
  induction ps as [|p rest IH]; intros H; simpl; [lia|].
  assert (1 <= snd p) by (apply H; left; reflexivity).
  assert (1 <= prod_ranges rest) by (apply IH; intros q Hq; apply H; right; exact Hq).
  nia.
Qed.

Lemma prod_ranges_perm (l l' : list (Z * Z)) :
  Permutation l l' -> prod_ranges l = prod_ranges l'.
Proof.
  induction 1; simpl; try lia.
Qed.

Lemma span_perm (l l' : list (Z * Z)) : Permutation l l' -> span l = span l'.
Proof.
  induction 1; simpl; try lia.
Qed.

(** A walk that succeeds without overflow ends at the product of the
    ranges, and the pairs reach exactly up to the address before it. *)
Lemma walk_exact (ps : list (Z * Z)) :
  forall cur cur',
    (forall p, In p ps -> 1 <= snd p) ->
    1 <= cur ->
    cur * prod_ranges ps < 2 ^ 64 ->
    walk cur ps = Some cur' ->
    cur' = cur * prod_ranges ps /\ span ps = cur' - cur.
Proof.
  induction ps as [|p rest IH]; intros cur cur' Hr Hc Hfit; simpl.
  - intros H; injection H as <-. lia.
  - destruct (cur =? fst p) eqn:E; simpl; [|discriminate].
    apply Z.eqb_eq in E.
    assert (Hp : 1 <= snd p) by (apply Hr; left; reflexivity).
    assert (Hrest : forall q, In q rest -> 1 <= snd q)
      by (intros q Hq; apply Hr; right; exact Hq).
    pose proof (prod_ranges_pos rest Hrest) as Hprod.
    simpl in Hfit.
    assert (Hstep : u64 (cur * snd p) = cur * snd p).
    { apply u64_id. unfold in_u64. split; [nia|].
      assert (cur * snd p <= cur * (snd p * prod_ranges rest)) by nia. lia. }
    rewrite Hstep. intros Hw.
    apply IH in Hw; [|exact Hrest | nia | ].
    + destruct Hw as [Hc' Hs]. split; [rewrite Hc'; ring|].
      rewrite Hs, E. ring.
    + replace (cur * snd p * prod_ranges rest) with (cur * (snd p * prod_ranges rest))
        by ring. exact Hfit.
Qed.

(** The pairs of the indices, as a list. *)
Lemma index_pairs (sts rs : list Z) :
  length sts = length rs ->
  map (fun i => (nth i sts 0, nth i rs 0)) (seq 0 (length sts)) = combine sts rs.
Proof.
  revert rs; induction sts as [|s sts IH]; intros rs Hlen; [reflexivity|].
  destruct rs as [|r rs]; [discriminate|]. simpl in Hlen. injection Hlen as Hlen.
  simpl. f_equal. rewrite <- seq_shift, map_map. simpl. apply IH, Hlen.
Qed.

Lemma span_filter_nonzero (ps : list (Z * Z)) :
  span (filter (fun p => negb (fst p =? 0)) ps) = span ps.
Proof.
  induction ps as [|p rest IH]; simpl; [reflexivity|].
  destruct (fst p =? 0) eqn:E; simpl; rewrite IH; [|reflexivity].
  apply Z.eqb_eq in E. rewrite E. ring.
Qed.

Lemma filter_map_comm {A B : Type} (g : A -> B) (p : B -> bool) (l : list A) :
  map g (filter (fun x => p (g x)) l) = filter p (map g l).
Proof.
  induction l as [|a t IH]; simpl; [reflexivity|].
  destruct (p (g a)); simpl; now rewrite IH.
Qed.

Lemma dot_bound (sts : list Z) :
  forall rs v,
    length sts = length rs -> length v = length rs ->
    Forall (fun s => 0 <= s) sts ->
    (forall k, (k < length v)%nat -> 0 <= nth k v 0 < nth k rs 0) ->
    0 <= dot sts v <= span (combine sts rs).
Proof.
  induction sts as [|s sts IH]; intros rs v Hs Hv Hpos Hin; [simpl; lia|].
  destruct rs as [|r rs]; [discriminate|].
  destruct v as [|x v]; [discriminate|].
  simpl in *. injection Hs as Hs. injection Hv as Hv.
  inversion Hpos as [|? ? Hs0 Hpos']; subst.
  pose proof (Hin 0%nat ltac:(lia)) as H0. simpl in H0.
  specialize (IH rs v Hs Hv Hpos' (fun k Hk => Hin (S k) ltac:(lia))).
  assert (0 <= s * x) by (apply Z.mul_nonneg_nonneg; lia).
  assert (s * x <= s * (r - 1)) by (apply Z.mul_le_mono_nonneg_l; lia).
  lia.
Qed.

(** The pairs of a flat contraction whose lengths agree. *)
Lemma nonzero_pairs_combine (flat : FlatContraction) :
  wf_flat flat ->
  nonzero_pairs flat =
  filter (fun p => negb (fst p =? 0)) (combine (strides (access0 flat)) (ranges flat)).
Proof.
  intros W.
  assert (Hlen : length (strides (access0 flat)) = length (names flat)).
  { pose proof (wf_strides_len _ W) as H. rewrite Forall_forall in H.
    apply H. unfold access0.
    destruct (access flat) as [|a t] eqn:E; [now apply wf_access in W|]. simpl. auto. }
  unfold nonzero_pairs.
  rewrite (filter_map_comm (fun i => (stride0 flat i, range_at flat i))
                           (fun p => negb (fst p =? 0))).
  f_equal. unfold stride0, range_at. rewrite <- Hlen.
  apply index_pairs. rewrite Hlen. symmetry. apply (wf_ranges_len _ W).
Qed.

(** What a negative answer of [NeedsZero] says about the flat contraction. *)
Lemma NeedsZero_false_inv (flat : FlatContraction) (ts : TensorShape) :
  wf_flat flat ->
  NeedsZero flat ts = false ->
  offset (access0 flat) = 0
  /\ (forall i, (i < length (names flat))%nat -> 0 <= stride0 flat i)
  /\ walk 1 (sort_pattern (nonzero_pairs flat))
     = Some (global_index_limit (access0 flat)).
Proof.
  intros W. unfold NeedsZero.
  destruct (offset (access0 flat) =? 0) eqn:Eo; simpl; [|discriminate].
  destruct (pattern_loop flat _ []) as [pat|] eqn:P; [|discriminate].
  destruct (existsb _ _); [discriminate|].
  pose proof (pattern_is_nonzero_pairs _ _ W P) as ->.
  destruct (walk 1 _) as [cur|]; [|discriminate].
  intros H. apply negb_false_iff, Z.eqb_eq in H. subst cur.
  split; [now apply Z.eqb_eq|]. split; [|reflexivity].
  intros i Hi. destruct (Z.lt_ge_cases (stride0 flat i) 0) as [Hneg|]; [|assumption].
  assert (N : pattern_loop flat (seq 0 (length (names flat))) [] = None)
    by (apply pattern_loop_none; exists i; split; [apply in_seq; lia | exact Hneg]).
  rewrite N in P. discriminate.
Qed.

Lemma nonzero_pairs_ranges (flat : FlatContraction) (p : Z * Z) :
  wf_flat flat -> In p (nonzero_pairs flat) -> 1 <= snd p.
Proof.
  intros W Hin. unfold nonzero_pairs in Hin. apply in_map_iff in Hin as [i [<- Hi]].
  apply filter_In in Hi as [Hi _]. apply in_seq in Hi. simpl.
  pose proof (wf_ranges_pos _ W) as H. rewrite Forall_forall in H.
  assert (0 < range_at flat i < 2 ^ 64); [|lia].
  apply H. unfold range_at. apply nth_In. rewrite (wf_ranges_len _ W). lia.
Qed.

(** X6. When [NeedsZero] answers false for a well-formed flat
    contraction whose output iteration count fits in 64 bits, every
    index vector within the ranges writes the output at an address in
    [[0, global_index_limit)], and [global_index_limit] is the product of
    the ranges of the output indices. *)
Theorem NeedsZero_false_in_bounds (flat : FlatContraction) (ts : TensorShape) :
  wf_flat flat ->
  prod_ranges (nonzero_pairs flat) < 2 ^ 64 ->
  NeedsZero flat ts = false ->
  global_index_limit (access0 flat) = prod_ranges (nonzero_pairs flat)
  /\ forall v, in_ranges flat v ->
       0 <= address (access0 flat) v < global_index_limit (access0 flat).
Proof.
  intros W Hfit Hnz.
  destruct (NeedsZero_false_inv flat ts W Hnz) as [Hoff [Hpos Hwalk]].
  pose proof (sort_pattern_perm (nonzero_pairs flat)) as Hperm.
  apply walk_exact in Hwalk.
  - destruct Hwalk as [Hlim Hspan].
    rewrite (prod_ranges_perm _ _ Hperm) in Hlim.
    rewrite (span_perm _ _ Hperm) in Hspan.
    split; [lia|].
    intros v [Hlen Hv]. unfold address. rewrite Hoff.
    assert (Hsl : length (strides (access0 flat)) = length (names flat)).
    { pose proof (wf_strides_len _ W) as H. rewrite Forall_forall in H.
      apply H. unfold access0.
      destruct (access flat) as [|a t] eqn:E; [now apply wf_access in W|].
      simpl. auto. }
    pose proof (dot_bound (strides (access0 flat)) (ranges flat) v) as Hb.
    rewrite (nonzero_pairs_combine flat W), span_filter_nonzero in Hspan.
    assert (Hforall : Forall (fun s => 0 <= s) (strides (access0 flat))).
    { apply Forall_forall. intros s Hs. apply (In_nth _ _ 0) in Hs as [k [Hk <-]].
      apply Hpos. lia. }
    specialize (Hb ltac:(rewrite Hsl; symmetry; apply (wf_ranges_len _ W)) Hlen
                   Hforall Hv).
    lia.
  - intros p Hp. apply (nonzero_pairs_ranges flat p W).
    eapply Permutation_in; [exact Hperm | exact Hp].
  - lia.
  - rewrite (prod_ranges_perm _ _ Hperm). lia.
Qed.

Lemma digits_sum_perm (a : Z) (l l' : list (Z * Z)) :
  Permutation l l' -> digits_sum a l = digits_sum a l'.
Proof.
  induction 1; simpl; try lia.
Qed.

Lemma digits_sum_filter_nonzero (a : Z) (ps : list (Z * Z)) :
  digits_sum a (filter (fun p => negb (fst p =? 0)) ps) = digits_sum a ps.
Proof.
  induction ps as [|p rest IH]; simpl; [reflexivity|].
  destruct (fst p =? 0) eqn:E; simpl; rewrite IH; [|reflexivity].
  apply Z.eqb_eq in E. rewrite E. ring.
Qed.

Lemma dot_digits (a : Z) (sts : list Z) :
  forall rs, length sts = length rs ->
    dot sts (map (fun p => (a / fst p) mod snd p) (combine sts rs))
    = digits_sum a (combine sts rs).
Proof.
  induction sts as [|s sts IH]; intros rs Hlen; [reflexivity|].
  destruct rs as [|r rs]; [discriminate|]. simpl in *. injection Hlen as Hlen.
  now rewrite IH.
Qed.

Lemma digits_in_ranges (a : Z) (sts : list Z) :
  forall rs k, length sts = length rs -> Forall (fun r => 0 < r) rs ->
    (k < length rs)%nat ->
    0 <= nth k (map (fun p => (a / fst p) mod snd p) (combine sts rs)) 0
      < nth k rs 0.
Proof.
  induction sts as [|s sts IH]; intros rs k Hlen Hpos Hk;
    destruct rs as [|r rs]; try discriminate; simpl in *; [lia|].
  injection Hlen as Hlen. inversion Hpos; subst.
  destruct k as [|k]; [apply Z.mod_pos_bound; assumption|].
  apply IH; [assumption | assumption | lia].
Qed.

(** The digits of [a] along a walk add up to [a] reduced by the final
    and the initial position. *)
Lemma walk_digits (a : Z) (ps : list (Z * Z)) :
  forall cur cur',
    (forall p, In p ps -> 1 <= snd p) ->
    1 <= cur ->
    cur * prod_ranges ps < 2 ^ 64 ->
    walk cur ps = Some cur' ->
    digits_sum a ps = a mod cur' - a mod cur.
Proof.
  induction ps as [|p rest IH]; intros cur cur' Hr Hc Hfit; simpl.
  - intros H; injection H as <-. lia.
  - destruct (cur =? fst p) eqn:E; simpl; [|discriminate].
    apply Z.eqb_eq in E.
    assert (Hp : 1 <= snd p) by (apply Hr; left; reflexivity).
    assert (Hrest : forall q, In q rest -> 1 <= snd q)
      by (intros q Hq; apply Hr; right; exact Hq).
    pose proof (prod_ranges_pos rest Hrest) as Hprod.
    simpl in Hfit.
    assert (Hstep : u64 (cur * snd p) = cur * snd p).
    { apply u64_id. unfold in_u64. split; [nia|].
      assert (cur * snd p <= cur * (snd p * prod_ranges rest)) by nia. lia. }
    rewrite Hstep. intros Hw.
    apply IH in Hw; [|exact Hrest | nia | ].
    + rewrite Hw, <- E. rewrite (Z.rem_mul_r a cur (snd p)); lia.
    + replace (cur * snd p * prod_ranges rest) with (cur * (snd p * prod_ranges rest))
        by ring. exact Hfit.
Qed.

(** X7. For a well-formed flat contraction without constraints whose
    output iteration count fits in 64 bits, when [NeedsZero] answers
    false every address below [global_index_limit] is the output address
    of an index vector within the ranges: [decode flat a] lies within
    the ranges and its output address is [a].  The statement is about
    contractions without constraints only: a constraint can exclude the
    index vectors of an address while [NeedsZero] still answers false. *)
Theorem NeedsZero_false_covers (flat : FlatContraction) (ts : TensorShape) (a : Z) :
  wf_flat flat ->
  constraints flat = [] ->
  prod_ranges (nonzero_pairs flat) < 2 ^ 64 ->
  NeedsZero flat ts = false ->
  0 <= a < global_index_limit (access0 flat) ->
  in_ranges flat (decode flat a)
  /\ address (access0 flat) (decode flat a) = a.
Proof.
  intros W _ Hfit Hnz Ha.
  destruct (NeedsZero_false_inv flat ts W Hnz) as [Hoff [Hpos Hwalk]].
  pose proof (sort_pattern_perm (nonzero_pairs flat)) as Hperm.
  assert (Hsl : length (strides (access0 flat)) = length (ranges flat)).
  { rewrite (wf_ranges_len _ W).
    pose proof (wf_strides_len _ W) as H. rewrite Forall_forall in H.
    apply H. unfold access0.
    destruct (access flat) as [|x t] eqn:E; [now apply wf_access in W|].
    simpl. auto. }
  assert (Hrpos : Forall (fun r => 0 < r) (ranges flat)).
  { eapply Forall_impl; [|apply (wf_ranges_pos _ W)]. simpl. intros r Hr. lia. }
  split.
  - unfold in_ranges, decode. rewrite length_map, length_combine, Hsl, Nat.min_id.
    split; [reflexivity|]. intros k Hk. unfold range_at.
    apply digits_in_ranges; assumption.
  - unfold address, decode. rewrite Hoff, (dot_digits a _ _ Hsl).
    rewrite <- digits_sum_filter_nonzero, <- (nonzero_pairs_combine flat W).
    rewrite <- (digits_sum_perm a _ _ Hperm).
    rewrite (walk_digits a _ 1 _ (fun p Hp => nonzero_pairs_ranges flat p W
               (Permutation_in p Hperm Hp)) ltac:(lia)
               ltac:(rewrite (prod_ranges_perm _ _ Hperm); lia) Hwalk).
    rewrite Z.mod_1_r, Z.mod_small; lia.
Qed.

Lemma value_perm (d : (Z * Z) * (Z * Z) -> Z) (l l' : list ((Z * Z) * (Z * Z))) :
  Permutation l l' -> value d l = value d l'.
Proof.
  induction 1; simpl; try lia.
Qed.

Lemma value_filter_nonzero (d : (Z * Z) * (Z * Z) -> Z) (qs : list ((Z * Z) * (Z * Z))) :
  value d (filter (fun q => negb (fst (fst q) =? 0)) qs) = value d qs.
Proof.
  induction qs as [|q rest IH]; simpl; [reflexivity|].
  destruct (fst (fst q) =? 0) eqn:E; simpl; rewrite IH; [|reflexivity].
  apply Z.eqb_eq in E. rewrite E. ring.
Qed.

Lemma fold_right_map_seq (F : nat -> Z -> Z) (g : nat -> nat) (l : list nat) :
  fold_right F 0 (map g l) = fold_right (fun k acc => F (g k) acc) 0 l.
Proof.
  induction l as [|a t IH]; simpl; [reflexivity | now rewrite IH].
Qed.

Lemma dot_index_sum (sts : list Z) :
  forall v, length v = length sts ->
    fold_right (fun k acc => nth k sts 0 * nth k v 0 + acc) 0 (seq 0 (length sts))
    = dot sts v.
Proof.
  induction sts as [|s sts IH]; intros v Hlen; [reflexivity|].
  destruct v as [|x v]; [discriminate|]. simpl in Hlen. injection Hlen as Hlen.
  cbn [length seq fold_right dot nth].
  rewrite <- seq_shift, fold_right_map_seq. cbn [nth].
  now rewrite IH.
Qed.

(** Along a walk every sum of digits is a multiple of the start. *)
Lemma chain_multiple (d : (Z * Z) * (Z * Z) -> Z) (qs : list ((Z * Z) * (Z * Z))) :
  forall cur cur',
    (forall q, In q qs -> 0 <= d q < snd (fst q)) ->
    1 <= cur ->
    cur * prod_ranges (map fst qs) < 2 ^ 64 ->
    walk cur (map fst qs) = Some cur' ->
    exists m, value d qs = cur * m /\ 0 <= m < prod_ranges (map fst qs).
Proof.
  induction qs as [|q rest IH]; intros cur cur' Hd Hc Hfit; simpl.
  - intros _. exists 0. lia.
  - destruct (cur =? fst (fst q)) eqn:E; simpl; [|discriminate].
    apply Z.eqb_eq in E.
    assert (Hq : 0 <= d q < snd (fst q)) by (apply Hd; left; reflexivity).
    assert (Hrest : forall p, In p (map fst rest) -> 1 <= snd p).
    { intros p Hp. apply in_map_iff in Hp as [q' [<- Hq']].
      assert (0 <= d q' < snd (fst q')) by (apply Hd; right; exact Hq'). lia. }
    pose proof (prod_ranges_pos _ Hrest) as Hprod.
    change (prod_ranges (map fst (q :: rest)))
      with (snd (fst q) * prod_ranges (map fst rest)) in Hfit.
    assert (Hstep : u64 (cur * snd (fst q)) = cur * snd (fst q)).
    { apply u64_id. unfold in_u64. split; [nia|].
      assert (cur * snd (fst q) <= cur * (snd (fst q) * prod_ranges (map fst rest)))
        by (apply Z.mul_le_mono_nonneg_l; nia). lia. }
    rewrite Hstep. intros Hw.
    apply IH in Hw; [| intros q' Hq'; apply Hd; right; exact Hq' | nia | ].
    + destruct Hw as [m [Hv Hm]]. exists (d q + snd (fst q) * m).
      split; [rewrite Hv, <- E; ring | nia].
    + replace (cur * snd (fst q) * prod_ranges (map fst rest))
        with (cur * (snd (fst q) * prod_ranges (map fst rest))) by ring.
      exact Hfit.
Qed.

(** Along a walk two digit assignments with the same sum agree. *)
Lemma chain_injective (d1 d2 : (Z * Z) * (Z * Z) -> Z) (qs : list ((Z * Z) * (Z * Z))) :
  forall cur cur',
    (forall q, In q qs -> 0 <= d1 q < snd (fst q)) ->
    (forall q, In q qs -> 0 <= d2 q < snd (fst q)) ->
    1 <= cur ->
    cur * prod_ranges (map fst qs) < 2 ^ 64 ->
    walk cur (map fst qs) = Some cur' ->
    value d1 qs = value d2 qs ->
    forall q, In q qs -> d1 q = d2 q.
Proof.
  induction qs as [|q rest IH]; intros cur cur' H1 H2 Hc Hfit Hw Hv q0 Hq0;
    [destruct Hq0|].
  simpl in Hw. destruct (cur =? fst (fst q)) eqn:E; simpl in Hw; [|discriminate].
  apply Z.eqb_eq in E.
  assert (Hq1 : 0 <= d1 q < snd (fst q)) by (apply H1; left; reflexivity).
  assert (Hq2 : 0 <= d2 q < snd (fst q)) by (apply H2; left; reflexivity).
  assert (Hrest : forall p, In p (map fst rest) -> 1 <= snd p).
  { intros p Hp. apply in_map_iff in Hp as [q' [<- Hq']].
    assert (0 <= d1 q' < snd (fst q')) by (apply H1; right; exact Hq'). lia. }
  pose proof (prod_ranges_pos _ Hrest) as Hprod.
  change (prod_ranges (map fst (q :: rest)))
    with (snd (fst q) * prod_ranges (map fst rest)) in Hfit.
  assert (Hstep : u64 (cur * snd (fst q)) = cur * snd (fst q)).
  { apply u64_id. unfold in_u64. split; [nia|].
    assert (cur * snd (fst q) <= cur * (snd (fst q) * prod_ranges (map fst rest)))
      by (apply Z.mul_le_mono_nonneg_l; nia). lia. }
  rewrite Hstep in Hw.
  assert (Hfit' : cur * snd (fst q) * prod_ranges (map fst rest) < 2 ^ 64).
  { replace (cur * snd (fst q) * prod_ranges (map fst rest))
      with (cur * (snd (fst q) * prod_ranges (map fst rest))) by ring.
    exact Hfit. }
  assert (Hc' : 1 <= cur * snd (fst q)) by nia.
  destruct (chain_multiple d1 rest _ _ (fun q' Hq' => H1 q' (or_intror Hq'))
              Hc' Hfit' Hw) as [m1 [Hv1 Hm1]].
  destruct (chain_multiple d2 rest _ _ (fun q' Hq' => H2 q' (or_intror Hq'))
              Hc' Hfit' Hw) as [m2 [Hv2 Hm2]].
  simpl in Hv. rewrite Hv1, Hv2, <- E in Hv.
  assert (Hcancel : d1 q + snd (fst q) * m1 = d2 q + snd (fst q) * m2).
  { apply (Z.mul_cancel_l _ _ cur); [lia|]. lia. }
  assert (Hm : m1 = m2) by nia.
  subst m2.
  destruct Hq0 as [<- | Hq0]; [lia|].
  apply (IH _ _ (fun q' Hq' => H1 q' (or_intror Hq'))
            (fun q' Hq' => H2 q' (or_intror Hq')) Hc' Hfit' Hw); [lia | exact Hq0].
Qed.

Lemma index_digits_pairs (flat : FlatContraction) (v v' : list Z) :
  map fst (filter (fun q => negb (fst (fst q) =? 0)) (index_digits flat v v'))
  = nonzero_pairs flat.
Proof.
  unfold index_digits, nonzero_pairs.
  rewrite <- (filter_map_comm
                (fun k => ((stride0 flat k, range_at flat k), (nth k v 0, nth k v' 0)))
                (fun q => negb (fst (fst q) =? 0))).
  rewrite map_map. reflexivity.
Qed.

Lemma index_digits_value (flat : FlatContraction) (v v' : list Z) :
  length (strides (access0 flat)) = length (names flat) ->
  length v = length (names flat) ->
  length v' = length (names flat) ->
  value (fun q => fst (snd q)) (index_digits flat v v') = dot (strides (access0 flat)) v
  /\ value (fun q => snd (snd q)) (index_digits flat v v')
     = dot (strides (access0 flat)) v'.
Proof.
  intros Hs Hv Hv'. unfold value, index_digits, stride0.
  rewrite <- Hs, <- (dot_index_sum _ v), <- (dot_index_sum _ v') by lia.
  split; induction (seq 0 (length (strides (access0 flat)))) as [|k l IH]; simpl;
    try reflexivity; now rewrite IH.
Qed.

(** X8. When [NeedsZero] answers false for a well-formed flat
    contraction whose output iteration count fits in 64 bits, two index
    vectors within the ranges that write the same output address agree
    on every index whose output stride is not zero: no output element is
    written from two different output positions. *)
Theorem NeedsZero_false_injective (flat : FlatContraction) (ts : TensorShape)
    (v v' : list Z) :
  wf_flat flat ->
  prod_ranges (nonzero_pairs flat) < 2 ^ 64 ->
  NeedsZero flat ts = false ->
  in_ranges flat v -> in_ranges flat v' ->
  address (access0 flat) v = address (access0 flat) v' ->
  forall k, stride0 flat k <> 0 -> nth k v 0 = nth k v' 0.
Proof.
  intros W Hfit Hnz [Hlv Hv] [Hlv' Hv'] Haddr k Hk.
  destruct (NeedsZero_false_inv flat ts W Hnz) as [Hoff [Hpos Hwalk]].
  pose proof (sort_pattern_perm (nonzero_pairs flat)) as Hperm.
  assert (Hsl : length (strides (access0 flat)) = length (names flat)).
  { pose proof (wf_strides_len _ W) as H. rewrite Forall_forall in H.
    apply H. unfold access0.
    destruct (access flat) as [|x t] eqn:E; [now apply wf_access in W|].
    simpl. auto. }
  pose proof (wf_ranges_len _ W) as Hrl.
  assert (Hkn : (k < length (names flat))%nat).
  { destruct (Nat.lt_ge_cases k (length (names flat))) as [|Hge]; [assumption|].
    exfalso. apply Hk. unfold stride0. apply nth_overflow. lia. }
  set (qs := filter (fun q => negb (fst (fst q) =? 0)) (index_digits flat v v')).
  rewrite <- (index_digits_pairs flat v v') in Hperm, Hwalk, Hfit. fold qs in Hperm, Hwalk, Hfit.
  destruct (Permutation_map_inv _ _ Hperm) as [qs' [Hsorted Hqs']].
  rewrite Hsorted in Hwalk.
  assert (Hin : forall q, In q qs' ->
            0 <= fst (snd q) < snd (fst q) /\ 0 <= snd (snd q) < snd (fst q)).
  { intros q Hq. apply (Permutation_in _ (Permutation_sym Hqs')) in Hq.
    apply filter_In in Hq as [Hq _]. apply in_map_iff in Hq as [n [<- Hn]].
    apply in_seq in Hn. simpl. split; [apply Hv | apply Hv']; lia. }
  destruct (index_digits_value flat v v' Hsl ltac:(lia) ltac:(lia)) as [E1 E2].
  unfold address in Haddr.
  assert (Hval : value (fun q => fst (snd q)) qs' = value (fun q => snd (snd q)) qs').
  { rewrite <- !(value_perm _ _ _ Hqs'). unfold qs.
    rewrite !value_filter_nonzero, E1, E2. lia. }
  assert (Hfit' : 1 * prod_ranges (map fst qs') < 2 ^ 64).
  { rewrite <- Hsorted, (prod_ranges_perm _ _ Hperm). lia. }
  pose proof (chain_injective _ _ qs' 1 _
                (fun q Hq => proj1 (Hin q Hq)) (fun q Hq => proj2 (Hin q Hq))
                ltac:(lia) Hfit' Hwalk Hval) as Hinj.
  specialize (Hinj ((stride0 flat k, range_at flat k), (nth k v 0, nth k v' 0))).
  simpl in Hinj. apply Hinj.
  apply (Permutation_in _ Hqs'). unfold qs. apply filter_In. split.
  - unfold index_digits. apply in_map_iff. exists k. split; [reflexivity|].
    apply in_seq. lia.
  - simpl. apply negb_true_iff, Z.eqb_neq, Hk.
Qed.

End ZeroCover.

(* ================================================================= *)
(** ** ConnectedComponents: what the result is made of *)

Section PlannerCover.
Import Planner Reach.

Variable is_special : Function -> bool.
Variable prog : Program.
Variable vars : Bindings.
Variable root_opidx : nat.
Variable previously_computed : NatSet.t.
Variable ud : UseDef.

Let can_unify := OpCanBeUnified is_special prog vars root_opidx.
Let admitted := admitted is_special prog vars root_opidx previously_computed.
Let cand_ok := cand_ok is_special prog vars root_opidx previously_computed ud.
Let frontier_inv := frontier_inv is_special prog vars root_opidx previously_computed ud.
Let linked := linked prog ud.
Let feeds := feeds prog ud.

Lemma push_all_In (xs st : list nat) (x : nat) :
  In x (fold_left (fun st c => c :: st) xs st) <-> In x xs \/ In x st.
Proof.
  revert st; induction xs as [|a t IH]; intros st; simpl; [tauto|].
  rewrite IH. simpl. tauto.
Qed.

Lemma linked_mono (U U' : NatSet.t) (x : nat) :
  (forall y, In y U -> In y U') -> linked U x -> linked U' x.
Proof.
  intros Hsub [[w [Hw Hc]] | [c [Hc Hf]]];
    [left; exists w | right; exists c]; auto.
Qed.

Lemma cand_ok_mono (c_start : nat) (C C' : NatSet.t) (x : nat) :
  (forall y, In y C -> In y C') -> cand_ok c_start C x -> cand_ok c_start C' x.
Proof.
  intros Hsub [Ha [-> | [c [Hc Hf]]]]; split; auto.
  right. exists c. auto.
Qed.

(** What the scan of the inputs of one candidate adds. *)
Lemma input_loop_members (unified : NatSet.t) (ins : list string) :
  forall candidates frontier candidates' frontier',
    input_loop is_special prog vars root_opidx previously_computed ud
               unified ins candidates frontier = Ok (Some (candidates', frontier')) ->
    (forall x, In x frontier' -> In x frontier \/ In x candidates')
    /\ (forall x, In x candidates' ->
          In x candidates
          \/ (admitted x
              /\ exists input, In input ins /\ find input (op_defs ud) = Some x)).
Proof.
  induction ins as [|input rest IH]; intros C F C' F'; simpl.
  - intros H; injection H as <- <-. split; auto.
  - assert (Hskip :
      input_loop is_special prog vars root_opidx previously_computed ud
                 unified rest C F = Ok (Some (C', F')) ->
      (forall x, In x F' -> In x F \/ In x C')
      /\ (forall x, In x C' ->
            In x C
            \/ (admitted x
                /\ exists inp, (input = inp \/ In inp rest)
                               /\ find inp (op_defs ud) = Some x))).
    { intros Hrest. apply IH in Hrest as [H1 H2]. split; [exact H1|].
      intros x Hx. destruct (H2 x Hx) as [Hc | [Ha [inp [Hin Hd]]]]; [auto|].
      right. split; [exact Ha|]. exists inp. auto. }
    destruct (find input (op_defs ud)) as [i|] eqn:Hdef; [|exact Hskip].
    destruct (_ || _ || _ || _) eqn:Eskip; [exact Hskip|].
    destruct (OpTag_eqb (tag (op_at prog i)) CONSTANT); [exact Hskip|].
    fold can_unify. destruct (can_unify i) as [[|]|e] eqn:Hcan; simpl;
      [|discriminate|discriminate].
    intros Hrest.
    pose proof (input_loop_spec _ _ _ _ _ _ _ _ _ _ _ _ Hrest) as [S1 _].
    apply IH in Hrest as [H1 H2].
    rewrite !orb_false_iff in Eskip. destruct Eskip as [_ Hprev].
    apply NatSet_mem_false in Hprev.
    split.
    + intros x Hx. destruct (H1 x Hx) as [[<- | Hf] | Hc]; auto.
      right. apply S1, NatSet_insert_In. auto.
    + intros x Hx. destruct (H2 x Hx) as [Hc | [Ha [inp [Hin Hd]]]].
      * apply NatSet_insert_In in Hc as [-> | Hc]; [|auto].
        right. split; [split; assumption|]. exists input. auto.
      * right. split; [exact Ha|]. exists inp. auto.
Qed.

(** The candidate set that the inner [while] loop returns. *)
Lemma candidate_loop_members (fuel : nat) (unified : NatSet.t) (c_start : nat) :
  forall candidates frontier result,
    candidate_loop is_special prog vars root_opidx previously_computed ud
                   fuel unified candidates frontier = Ok (Some result) ->
    (forall x, In x frontier -> In x candidates) ->
    (forall x, In x candidates -> cand_ok c_start candidates x) ->
    (forall x, In x candidates -> In x result)
    /\ (forall x, In x result -> cand_ok c_start result x).
Proof.
  induction fuel as [|fuel IH]; intros C F R; destruct F as [|x0 F]; simpl.
  - intros H; injection H as <-. auto.
  - discriminate.
  - intros H; injection H as <-. auto.
  - destruct (input_loop _ _ _ _ _ _ _ _ _ _) as [[[C' F']|]|e] eqn:Hin; simpl;
      [|discriminate|discriminate].
    intros Hloop HF HC.
    pose proof (input_loop_spec _ _ _ _ _ _ _ _ _ _ _ _ Hin) as [S1 [S2 _]].
    apply input_loop_members in Hin as [M1 M2].
    apply IH in Hloop.
    + destruct Hloop as [R1 R2]. split; [intros x Hx; apply R1, S1, Hx | exact R2].
    + intros x Hx. destruct (M1 x Hx) as [Hf | Hc]; [|exact Hc].
      apply S1, HF. right. exact Hf.
    + intros x Hx. destruct (M2 x Hx) as [Hc | [Ha [inp [Hi Hd]]]].
      * apply (cand_ok_mono c_start C C'); auto.
      * split; [exact Ha|]. right. exists x0. split.
        -- apply S1, HF. left. reflexivity.
        -- exists inp. auto.
Qed.

(** The loop over the consumers of a member's output keeps the
    invariant of the frontier loop. *)
Lemma uses_loop_inv (fuel : nat) (w : nat) (cs : NatSet.t) (consumers : list nat) :
  find (output (op_at prog w)) (uses ud) = Some cs ->
  (forall c, In c consumers -> In c cs) ->
  forall unified frontier unified' frontier',
    uses_loop is_special prog vars root_opidx previously_computed ud
              fuel consumers unified frontier = Ok (unified', frontier') ->
    In w unified ->
    frontier_inv unified frontier -> frontier_inv unified' frontier'.
Proof.
  intros Hcs. induction consumers as [|c_start rest IH]; intros Hsub U F U' F'; simpl.
  - intros H; injection H as <- <-. auto.
  - assert (Hrest : forall c, In c rest -> In c cs)
      by (intros c Hc; apply Hsub; right; exact Hc).
    destruct (NatSet.mem c_start U); [apply (IH Hrest)|].
    fold can_unify. destruct (can_unify c_start) as [ok|e] eqn:Hcan; simpl;
      [|discriminate].
    destruct (negb ok || NatSet.mem c_start previously_computed) eqn:Eok;
      [apply (IH Hrest)|].
    destruct (candidate_loop _ _ _ _ _ _ _ _ _ _) as [[R|]|e] eqn:Hcand; simpl;
      [|apply (IH Hrest)|discriminate].
    intros Hloop Hw [I1 [I2 [I3 I4]]].
    apply orb_false_iff in Eok as [Eok Hprev].
    apply negb_false_iff in Eok. subst ok. apply NatSet_mem_false in Hprev.
    apply (candidate_loop_members _ _ c_start) in Hcand as [_ HR].
    2:{ intros x Hx. exact Hx. }
    2:{ intros x [<- | []]. split; [split; assumption | left; reflexivity]. }
    apply (IH Hrest _ _ _ _ Hloop).
    + apply NatSet_insert_all_In. right. exact Hw.
    + split; [apply NatSet_insert_all_In; right; exact I1|].
      split.
      { intros x Hx. apply push_all_In in Hx as [Hx | Hx];
          apply NatSet_insert_all_In; [left; exact Hx | right; apply I2, Hx]. }
      split.
      { intros x Hx. apply NatSet_insert_all_In in Hx as [Hx | Hx].
        - left. apply push_all_In. left. exact Hx.
        - destruct (I3 x Hx) as [Hf | Hu]; [|right; exact Hu].
          left. apply push_all_In. right. exact Hf. }
      intros x Hx. apply NatSet_insert_all_In in Hx as [Hx | Hx].
      * right. destruct (HR x Hx) as [Ha [-> | [c [Hc Hf]]]]; split; try exact Ha.
        -- left. exists w. split; [apply NatSet_insert_all_In; right; exact Hw|].
           exists cs. split; [exact Hcs | apply Hsub; left; reflexivity].
        -- right. exists c. split; [apply NatSet_insert_all_In; left; exact Hc|].
           exact Hf.
      * destruct (I4 x Hx) as [-> | [Ha Hl]]; [left; reflexivity|].
        right. split; [exact Ha|].
        apply (linked_mono U); [|exact Hl].
        intros y Hy. apply NatSet_insert_all_In. right. exact Hy.
Qed.

Lemma frontier_loop_inv (fuel : nat) :
  forall unified frontier result,
    frontier_loop is_special prog vars root_opidx previously_computed ud
                  fuel unified frontier = Ok result ->
    frontier_inv unified frontier -> frontier_inv result [].
Proof.
  induction fuel as [|fuel IH]; intros U F R; destruct F as [|u F]; simpl.
  - intros H; injection H as <-. auto.
  - discriminate.
  - intros H; injection H as <-. auto.
  - unfold at_. destruct (find (output (op_at prog u)) (uses ud)) as [consumers|] eqn:Hcs;
      simpl; [|discriminate].
    destruct (uses_loop _ _ _ _ _ _ _ _ _ _) as [[U' F']|e] eqn:Hu; simpl;
      [|discriminate].
    intros Hloop [I1 [I2 [I3 I4]]]. apply (IH _ _ _ Hloop).
    apply (uses_loop_inv _ u consumers consumers Hcs (fun c Hc => Hc) _ _ _ _ Hu).
    + apply I2. left. reflexivity.
    + split; [exact I1|]. split; [intros x Hx; apply I2; right; exact Hx|].
      split; [|exact I4].
      intros x Hx. destruct (I3 x Hx) as [[<- | Hf] | Hh]; auto.
      right. exists consumers. exact Hcs.
Qed.

Lemma ConnectedComponents_inv (U : NatSet.t) :
  ConnectedComponents is_special prog vars root_opidx previously_computed ud = Ok U ->
  frontier_inv U [].
Proof.
  unfold ConnectedComponents. intros H. apply frontier_loop_inv in H; [exact H|].
  split; [left; reflexivity|]. split; [auto|].
  split; intros x [<- | []]; left; [left|]; reflexivity.
Qed.

(** X9. The set that [ConnectedComponents] returns contains the root,
    and every other member was accepted by [OpCanBeUnified] against the
    root and is not among the ops computed by earlier kernels. *)
Theorem ConnectedComponents_members (U : NatSet.t) :
  ConnectedComponents is_special prog vars root_opidx previously_computed ud = Ok U ->
  In root_opidx U
  /\ forall u, In u U -> u <> root_opidx ->
       OpCanBeUnified is_special prog vars root_opidx u = Ok true
       /\ ~ In u previously_computed.
Proof.
  intros H. apply ConnectedComponents_inv in H as [I1 [_ [_ I4]]].
  split; [exact I1|]. intros u Hu Hne.
  destruct (I4 u Hu) as [-> | [Ha _]]; [contradiction | exact Ha].
Qed.

(** X10. The set that [ConnectedComponents] returns is connected: every
    member other than the root consumes the output of a member or
    defines an input of a member. *)
Theorem ConnectedComponents_connected (U : NatSet.t) :
  ConnectedComponents is_special prog vars root_opidx previously_computed ud = Ok U ->
  forall u, In u U -> u <> root_opidx ->
    (exists w cs, In w U /\ find (output (op_at prog w)) (uses ud) = Some cs /\ In u cs)
    \/ (exists c input, In c U /\ In input (inputs (op_at prog c))
                        /\ find input (op_defs ud) = Some u).
Proof.
  intros H u Hu Hne. apply ConnectedComponents_inv in H as [_ [_ [_ I4]]].
  destruct (I4 u Hu) as [-> | [_ [[w [Hw [cs [Hcs Hin]]]] | [c [Hc [inp [Hi Hd]]]]]]];
    [contradiction | left; exists w, cs; auto | right; exists c, inp; auto].
Qed.

(** X11. [ConnectedComponents] looks up the consumers of every member
    with [uses().at(...)]: when it returns, the output of every member
    has an entry in [uses]. *)
Theorem ConnectedComponents_uses (U : NatSet.t) :
  ConnectedComponents is_special prog vars root_opidx previously_computed ud = Ok U ->
  forall u, In u U ->
    exists cs, find (output (op_at prog u)) (uses ud) = Some cs.
Proof.
  intros H u Hu. apply ConnectedComponents_inv in H as [_ [_ [I3 _]]].
  destruct (I3 u Hu) as [[] | Hh]. exact Hh.
Qed.

End PlannerCover.

(* ================================================================= *)
(** ** The planner's tests and failures *)

Section PlannerTests.
Import Planner.

Variable is_special : Function -> bool.

Lemma broadcast_loop_spec (in_dims : list TensorDimension) :
  forall out_dims,
    broadcast_loop in_dims out_dims = true <->
    forall i d, nth_error in_dims i = Some d ->
      exists o, nth_error out_dims i = Some o
                /\ (dim_size d = 1 \/ dim_size d = dim_size o).
Proof.
  induction in_dims as [|d rest IH]; intros out_dims; simpl.
  - split; [|reflexivity]. intros _ [|i] d'; discriminate.
  - destruct out_dims as [|o out_rest].
    + split; [discriminate|]. intros H.
      destruct (H 0%nat d eq_refl) as [o [Ho _]]. discriminate.
    + destruct (dim_size d =? 1) eqn:E1; simpl.
      * apply Z.eqb_eq in E1. rewrite IH. split.
        -- intros H [|i] d' Hd; simpl in *; [|apply H, Hd].
           injection Hd as <-. exists o. auto.
        -- intros H i d' Hd. apply (H (S i) d' Hd).
      * destruct (dim_size d =? dim_size o) eqn:E2; simpl.
        -- apply Z.eqb_eq in E2. rewrite IH. split.
           ++ intros H [|i] d' Hd; simpl in *; [|apply H, Hd].
              injection Hd as <-. exists o. auto.
           ++ intros H i d' Hd. apply (H (S i) d' Hd).
        -- apply Z.eqb_neq in E1, E2. split; [discriminate|]. intros H.
           destruct (H 0%nat d eq_refl) as [o' [Ho [H1 | H2]]]; simpl in Ho;
             injection Ho as <-; contradiction.
Qed.

(** X12. [SameSizeOrBroadcastCompatible] accepts an input exactly when
    it has as many elements as the output, or its rank is at most the
    rank of the output and, with the dimensions aligned at the last one,
    each of its dimensions has size 1 or the size of the output's
    dimension. *)
Theorem SameSizeOrBroadcastCompatible_spec (input output : Binding) :
  SameSizeOrBroadcastCompatible input output = true <->
  elem_size (shape input) = elem_size (shape output)
  \/ ((length (dims (shape input)) <= length (dims (shape output)))%nat
      /\ forall i d, nth_error (dims (shape input)) i = Some d ->
           exists o,
             nth_error (dims (shape output))
                       (length (dims (shape output)) - length (dims (shape input)) + i)
             = Some o
             /\ (dim_size d = 1 \/ dim_size d = dim_size o)).
Proof.
  unfold SameSizeOrBroadcastCompatible.
  destruct (elem_size (shape input) =? elem_size (shape output)) eqn:E.
  - apply Z.eqb_eq in E. split; auto.
  - apply Z.eqb_neq in E.
    destruct (length (dims (shape output)) <? length (dims (shape input)))%nat eqn:L.
    + apply Nat.ltb_lt in L. split; [discriminate|].
      intros [H | [H _]]; [contradiction | lia].
    + apply Nat.ltb_ge in L. rewrite broadcast_loop_spec. split.
      * intros H. right. split; [exact L|]. intros i d Hd.
        destruct (H i d Hd) as [o [Ho Hs]]. exists o. split; [|exact Hs].
        rewrite nth_error_skipn in Ho. exact Ho.
      * intros [H | [_ H]] i d Hd; [contradiction|].
        destruct (H i d Hd) as [o [Ho Hs]]. exists o. split; [|exact Hs].
        rewrite nth_error_skipn. exact Ho.
Qed.

Lemma inputs_compatible_true (vars : Bindings) (root_out : Binding) (ins : list string) :
  inputs_compatible vars root_out ins = Ok true <->
  Forall (fun input => exists b, find input vars = Some b
                       /\ (btag b = TENSOR ->
                           SameSizeOrBroadcastCompatible b root_out = true)) ins.
Proof.
  induction ins as [|input rest IH]; simpl.
  - split; [constructor | reflexivity].
  - unfold at_. destruct (find input vars) as [b|] eqn:Hb; simpl.
    + assert (Htag : is_tensor (btag b) = true <-> btag b = TENSOR)
        by (destruct (btag b); simpl; split; congruence).
      destruct (is_tensor (btag b)) eqn:Et; simpl.
      * destruct (SameSizeOrBroadcastCompatible b root_out) eqn:Ec; simpl.
        -- rewrite IH. split.
           ++ intros H. constructor; [exists b; auto | exact H].
           ++ intros H. inversion H; assumption.
        -- split; [discriminate|]. intros H. inversion H as [|? ? [b' [Hb' Hc]] _]; subst.
           rewrite Hb in Hb'. injection Hb' as <-.
           rewrite Hc in Ec; [discriminate | apply Htag; reflexivity].
      * rewrite IH. split.
        -- intros H. constructor; [|exact H]. exists b. split; [exact Hb|].
           intros Ht. apply Htag in Ht. discriminate.
        -- intros H. inversion H; assumption.
    + split; [discriminate|]. intros H. inversion H as [|? ? [b' [Hb' _]] _].
      congruence.
Qed.

(** X13. [OpCanBeUnified] returns true exactly when the tested op is a
    function that is not special, the outputs of the root and of the
    tested op are both bound to tensors with the same number of
    elements, and every input of the tested op is bound and, when bound
    to a tensor, accepted by [SameSizeOrBroadcastCompatible] against the
    root's output. *)
Theorem OpCanBeUnified_true (prog : Program) (vars : Bindings) (root_opidx test_opidx : nat) :
  OpCanBeUnified is_special prog vars root_opidx test_opidx = Ok true <->
  tag (op_at prog test_opidx) = FUNCTION
  /\ is_special (f (op_at prog test_opidx)) = false
  /\ exists root_b test_b,
       find (output (op_at prog root_opidx)) vars = Some root_b
       /\ find (output (op_at prog test_opidx)) vars = Some test_b
       /\ btag root_b = TENSOR /\ btag test_b = TENSOR
       /\ elem_size (shape root_b) = elem_size (shape test_b)
       /\ Forall (fun input => exists b, find input vars = Some b
                    /\ (btag b = TENSOR ->
                        SameSizeOrBroadcastCompatible b root_b = true))
                 (inputs (op_at prog test_opidx)).
Proof.
  unfold OpCanBeUnified.
  destruct (OpTag_eqb (tag (op_at prog test_opidx)) FUNCTION) eqn:Etag; simpl.
  2:{ split; [discriminate|]. intros [H _].
      rewrite H in Etag. discriminate. }
  apply OpTag_eqb_eq in Etag.
  destruct (is_special (f (op_at prog test_opidx))) eqn:Esp.
  { split; [discriminate|]. intros [_ [H _]]. discriminate. }
  unfold at_.
  destruct (find (output (op_at prog root_opidx)) vars) as [rb|] eqn:Hr; simpl.
  2:{ split; [discriminate|]. intros [_ [_ [rb [tb [H _]]]]]. discriminate. }
  destruct (find (output (op_at prog test_opidx)) vars) as [tb|] eqn:Ht; simpl.
  2:{ split; [discriminate|]. intros [_ [_ [rb' [tb [_ [H _]]]]]]. discriminate. }
  unfold DifferentSize.
  assert (Htag : forall b, is_tensor (btag b) = true <-> btag b = TENSOR)
    by (intros b; destruct (btag b); simpl; split; congruence).
  destruct (is_tensor (btag rb)) eqn:Er; simpl.
  2:{ split; [discriminate|].
      intros [_ [_ [rb' [tb' [H1 [_ [H2 _]]]]]]]. injection H1 as <-.
      apply Htag in H2. congruence. }
  destruct (is_tensor (btag tb)) eqn:Etb; simpl.
  2:{ split; [discriminate|].
      intros [_ [_ [rb' [tb' [_ [H1 [_ [H2 _]]]]]]]]. injection H1 as <-.
      apply Htag in H2. congruence. }
  destruct (elem_size (shape rb) =? elem_size (shape tb)) eqn:Es; simpl.
  2:{ apply Z.eqb_neq in Es. split; [discriminate|].
      intros [_ [_ [rb' [tb' [H1 [H2 [_ [_ [H3 _]]]]]]]]].
      injection H1 as <-. injection H2 as <-. contradiction. }
  apply Z.eqb_eq in Es. rewrite inputs_compatible_true. split.
  - intros H. split; [exact Etag|]. split; [reflexivity|].
    exists rb, tb. repeat split; auto; now apply Htag.
  - intros [_ [_ [rb' [tb' [H1 [_ [_ [_ [_ H]]]]]]]]]. injection H1 as <-. exact H.
Qed.

Variable prog : Program.
Variable vars : Bindings.
Variable root_opidx : nat.
Variable previously_computed : NatSet.t.
Variable ud : UseDef.

Lemma at_failure {V : Type} (m : list (string * V)) (k : string) (e : Error) :
  at_ m k = Err e -> e = out_of_range.
Proof.
  unfold at_. destruct (find k m); [discriminate|]. intros H; injection H as <-.
  reflexivity.
Qed.

Lemma inputs_compatible_failure (root_out : Binding) (ins : list string) (e : Error) :
  inputs_compatible vars root_out ins = Err e -> e = out_of_range.
Proof.
  induction ins as [|input rest IH]; simpl; [discriminate|].
  destruct (at_ vars input) as [b|e'] eqn:Hb; simpl.
  - destruct (negb (is_tensor (btag b))); [exact IH|].
    destruct (negb (SameSizeOrBroadcastCompatible b root_out)); [discriminate | exact IH].
  - intros H; injection H as <-. apply (at_failure _ _ _ Hb).
Qed.

Lemma OpCanBeUnified_failure (i : nat) (e : Error) :
  OpCanBeUnified is_special prog vars root_opidx i = Err e -> e = out_of_range.
Proof.
  unfold OpCanBeUnified. destruct (_ || _); [discriminate|].
  destruct (at_ vars (output (op_at prog root_opidx))) as [rb|e1] eqn:H1; simpl;
    [|intros H; injection H as <-; apply (at_failure _ _ _ H1)].
  destruct (at_ vars (output (op_at prog i))) as [tb|e2] eqn:H2; simpl;
    [|intros H; injection H as <-; apply (at_failure _ _ _ H2)].
  destruct (DifferentSize rb tb); [discriminate|].
  apply inputs_compatible_failure.
Qed.

Lemma input_loop_failure (unified : NatSet.t) (ins : list string) :
  forall candidates frontier,
    Reach.lookup_failure (input_loop is_special prog vars root_opidx previously_computed ud
                               unified ins candidates frontier).
Proof.
  induction ins as [|input rest IH]; intros C F e; simpl; [discriminate|].
  destruct (find input (op_defs ud)) as [i|]; [|apply IH].
  destruct (_ || _ || _ || _); [apply IH|].
  destruct (OpTag_eqb (tag (op_at prog i)) CONSTANT); [apply IH|].
  destruct (OpCanBeUnified is_special prog vars root_opidx i) as [ok|e'] eqn:Hc; simpl.
  - destruct (negb ok); [discriminate | apply IH].
  - intros H; injection H as <-. left. apply (OpCanBeUnified_failure _ _ Hc).
Qed.

Lemma candidate_loop_failure (fuel : nat) (unified : NatSet.t) :
  forall candidates frontier,
    Reach.lookup_failure (candidate_loop is_special prog vars root_opidx previously_computed ud
                                   fuel unified candidates frontier).
Proof.
  induction fuel as [|fuel IH]; intros C F e; destruct F as [|x F]; simpl;
    try discriminate.
  - intros H; injection H as <-. auto.
  - destruct (input_loop _ _ _ _ _ _ _ _ _ _) as [[[C' F']|]|e'] eqn:Hi; simpl.
    + apply IH.
    + discriminate.
    + intros H; injection H as <-. apply (input_loop_failure _ _ _ _ _ Hi).
Qed.

Lemma uses_loop_failure (fuel : nat) (consumers : list nat) :
  forall unified frontier,
    Reach.lookup_failure (uses_loop is_special prog vars root_opidx previously_computed ud
                              fuel consumers unified frontier).
Proof.
  induction consumers as [|c_start rest IH]; intros U F e; simpl; [discriminate|].
  destruct (NatSet.mem c_start U); [apply IH|].
  destruct (OpCanBeUnified is_special prog vars root_opidx c_start) as [ok|e'] eqn:Hc;
    simpl.
  - destruct (negb ok || NatSet.mem c_start previously_computed); [apply IH|].
    destruct (candidate_loop _ _ _ _ _ _ _ _ _ _) as [[R|]|e'] eqn:Hcand; simpl;
      [apply IH | apply IH |].
    intros H; injection H as <-. apply (candidate_loop_failure _ _ _ _ _ Hcand).
  - intros H; injection H as <-. left. apply (OpCanBeUnified_failure _ _ Hc).
Qed.

Lemma frontier_loop_failure (fuel : nat) :
  forall unified frontier,
    Reach.lookup_failure (frontier_loop is_special prog vars root_opidx previously_computed ud
                                  fuel unified frontier).
Proof.
  induction fuel as [|fuel IH]; intros U F e; destruct F as [|u F]; simpl;
    try discriminate.
  - intros H; injection H as <-. auto.
  - destruct (at_ (uses ud) (output (op_at prog u))) as [consumers|e'] eqn:Ha; simpl.
    + destruct (uses_loop _ _ _ _ _ _ _ _ _ _) as [[U' F']|e'] eqn:Hu; simpl.
      * apply IH.
      * intros H; injection H as <-. apply (uses_loop_failure _ _ _ _ _ Hu).
    + intros H; injection H as <-. left. apply (at_failure _ _ _ Ha).
Qed.

(** X14. [ConnectedComponents] always terminates, and the only exception
    it raises is the [std::out_of_range] of a failed [at]: on [vars] in
    [OpCanBeUnified], or on [uses]. *)
Theorem ConnectedComponents_failure (e : Error) :
  ConnectedComponents is_special prog vars root_opidx previously_computed ud = Err e ->
  e = out_of_range.
Proof.
  intros H. destruct (frontier_loop_failure _ _ _ _ H) as [-> | ->]; [reflexivity|].
  exfalso. exact (ConnectedComponents_fuel _ _ _ _ _ _ H).
Qed.

(** X15. When the output of the root op has no entry in [uses],
    [ConnectedComponents] raises [std::out_of_range]. *)
Theorem ConnectedComponents_root_unused :
  find (output (op_at prog root_opidx)) (uses ud) = None ->
  ConnectedComponents is_special prog vars root_opidx previously_computed ud
  = Err out_of_range.
Proof.
  intros H. unfold ConnectedComponents, components_fuel. simpl.
  unfold at_. rewrite H. reflexivity.
Qed.

End PlannerTests.

(* ================================================================= *)
(** ** DoUnification: what the call leaves behind *)

Lemma StrSet_insert_In (x y : string) (s : StrSet.t) :
  In y (StrSet.insert x s) <-> y = x \/ In y s.
Proof.
  induction s as [|z rest IH]; simpl.
  - intuition.
  - destruct (String.eqb x z) eqn:E.
    + apply String.eqb_eq in E. subst z. simpl. intuition.
    + destruct (String.ltb x z); simpl; [intuition|].
      rewrite IH. intuition.
Qed.

Lemma find_emplace_some {V : Type} (k : string) (v : V) (m : list (string * V)) :
  exists v', find k (emplace k v m) = Some v'.
Proof.
  induction m as [|[k' w] rest IH]; simpl.
  - rewrite String.eqb_refl. eauto.
  - destruct (String.eqb k k') eqn:E; simpl.
    + rewrite E. eauto.
    + destruct (String.ltb k k'); simpl.
      * rewrite String.eqb_refl. eauto.
      * rewrite E. exact IH.
Qed.

Lemma find_emplace_cases {V : Type} (k k0 : string) (v w : V) (m : list (string * V)) :
  find k0 (emplace k v m) = Some w ->
  find k0 m = Some w \/ (k0 = k /\ w = v).
Proof.
  destruct (String.eqb k0 k) eqn:E.
  - apply String.eqb_eq in E. subst k0.
    induction m as [|[k' w'] rest IH]; simpl.
    + rewrite String.eqb_refl. intros H; injection H as <-. auto.
    + destruct (String.eqb k k') eqn:E'; simpl.
      * rewrite E'. auto.
      * destruct (String.ltb k k'); simpl.
        -- rewrite String.eqb_refl. intros H; injection H as <-. auto.
        -- rewrite E'. exact IH.
  - apply String.eqb_neq in E. rewrite (find_emplace_other _ _ _ _ E). auto.
Qed.

Section UnifyCover.
Import Unify Fused.

Variable is_special : Function -> bool.
Variable byte_width : DataType -> Z.
Variable Polynomial : Type.
Variable poly_zero : Polynomial.
Variable poly_add : Polynomial -> Polynomial -> Polynomial.
Variable poly_scale : Polynomial -> Z -> Polynomial.
Variable poly_floor_coeff : Polynomial -> string -> Z.

Variable prog : Program.
Variable ud : UseDef.
Variable vars : Bindings.
Variable inputs_map : ShapeMap.
Variable outputs_map : ShapeMap.

Section Loops.

Variable U : NatSet.t.

Let step := unify_op byte_width prog ud vars inputs_map outputs_map U.
Let loop := unify_loop byte_width prog ud vars inputs_map outputs_map U.
Let defined_inside := defined_inside ud U.
Let outer_tensor := outer_tensor ud vars U.
Let input_served := input_served ud vars U.
Let fused_from := fused_from prog.

Lemma input_served_mono (war war' pci pci' : StrSet.t) (x : string) :
  (forall y, In y war -> In y war') -> (forall y, In y pci -> In y pci') ->
  input_served war pci x -> input_served war' pci' x.
Proof.
  intros Hw Hp [b [Hb H]]. exists b. split; [exact Hb|].
  intros Ht. destruct (H Ht) as [Hd | [H1 H2]]; auto.
Qed.

Lemma is_tensor_TENSOR (t : BindingTag) : is_tensor t = true <-> t = TENSOR.
Proof. destruct t; simpl; split; congruence. Qed.

(** The loop over the inputs of a retained op. *)
Lemma rewrite_inputs_spec (local : list (string * string)) (ins : list string) :
  forall war pci ins' war' pci',
    rewrite_inputs ud vars U local ins war pci = Ok (ins', war', pci') ->
    length ins' = length ins
    /\ (forall x, In x war -> In x war')
    /\ (forall x, In x pci -> In x pci')
    /\ (forall x, In x war' -> In x war \/ (outer_tensor x /\ In x pci'))
    /\ (forall x, In x pci' -> In x pci \/ (outer_tensor x /\ In x war'))
    /\ (forall x, In x ins' -> input_served war' pci' x).
Proof.
  induction ins as [|input rest IH]; intros war pci ins' war' pci'; simpl.
  - intros H; injection H as <- <- <-. repeat split; auto. intros x [].
  - set (input' := match find input local with Some r => r | None => input end).
    unfold at_. destruct (find input' vars) as [b|] eqn:Hb; simpl; [|discriminate].
    set (outside := match find input' (op_defs ud) with
                    | None => true
                    | Some d => negb (NatSet.mem d U)
                    end).
    destruct (rewrite_inputs ud vars U local rest _ _) as [[[r w] p]|e] eqn:Hrest;
      simpl; [|discriminate].
    intros H; injection H as <- <- <-.
    apply IH in Hrest as [H1 [H2 [H3 [H4 [H5 H6]]]]].
    assert (Hout : outside = true -> ~ defined_inside input').
    { unfold outside. intros Ho [d [Hd Hin]]. rewrite Hd in Ho.
      apply negb_true_iff, NatSet_mem_false in Ho. contradiction. }
    assert (Hinside : outside = false -> defined_inside input').
    { unfold outside. destruct (find input' (op_defs ud)) as [d|] eqn:Hd;
        [|discriminate].
      intros Ho. apply negb_false_iff, NatSet_mem_In in Ho. exists d. auto. }
    destruct (is_tensor (btag b) && outside) eqn:Ecase.
    + apply andb_true_iff in Ecase as [Et Eo]. apply is_tensor_TENSOR in Et.
      assert (Hnew : outer_tensor input')
        by (split; [exists b; auto | apply Hout, Eo]).
      split; [simpl; now rewrite H1|].
      split; [intros x Hx; apply H2, StrSet_insert_In; auto|].
      split; [intros x Hx; apply H3, StrSet_insert_In; auto|].
      split.
      { intros x Hx. destruct (H4 x Hx) as [Hi | Ho]; [|auto].
        apply StrSet_insert_In in Hi as [-> | Hi]; [|auto].
        right. split; [exact Hnew|]. apply H3, StrSet_insert_In. auto. }
      split.
      { intros x Hx. destruct (H5 x Hx) as [Hi | Ho]; [|auto].
        apply StrSet_insert_In in Hi as [-> | Hi]; [|auto].
        right. split; [exact Hnew|]. apply H2, StrSet_insert_In. auto. }
      intros x [<- | Hx]; [|apply H6, Hx].
      exists b. split; [exact Hb|]. intros _. right.
      split; [apply H2 | apply H3]; apply StrSet_insert_In; auto.
    + split; [simpl; now rewrite H1|].
      repeat (split; [assumption|]).
      intros x [<- | Hx]; [|apply H6, Hx].
      exists b. split; [exact Hb|]. intros Ht. left.
      apply Hinside. apply is_tensor_TENSOR in Ht. rewrite Ht in Ecase.
      exact Ecase.
Qed.

(** One iteration of the first loop: the reads only grow, and the
    post-ops gain at most the op at hand. *)
Lemma unify_op_spec (st st' : UnifyState) (u : nat) :
  step st u = Ok st' ->
  (forall x, In x (war_safe_reads st) -> In x (war_safe_reads st'))
  /\ (forall x, In x (post_contraction_inputs st) -> In x (post_contraction_inputs st'))
  /\ (forall x, In x (war_safe_reads st') ->
        In x (war_safe_reads st)
        \/ (outer_tensor x /\ In x (post_contraction_inputs st')))
  /\ (forall x, In x (post_contraction_inputs st') ->
        In x (post_contraction_inputs st)
        \/ (outer_tensor x /\ In x (war_safe_reads st')))
  /\ ((unified_post_ops st' = unified_post_ops st
       /\ (tag (op_at prog u) = FUNCTION -> is_reshape_or_ident (op_at prog u) = true))
      \/ exists op,
           unified_post_ops st' = unified_post_ops st ++ [op]
           /\ fused_from u op
           /\ forall x, In x (inputs op) ->
                input_served (war_safe_reads st') (post_contraction_inputs st') x).
Proof.
  unfold step, unify_op.
  destruct (OpTag_eqb (tag (op_at prog u)) FUNCTION) eqn:Etag; simpl.
  2:{ intros H; injection H as <-. repeat split; auto. left. split; [reflexivity|].
      intros Ht. rewrite Ht in Etag. discriminate. }
  apply OpTag_eqb_eq in Etag.
  destruct (is_reshape_or_ident (op_at prog u)) eqn:Er.
  - destruct (reshape_checks byte_width vars (var_rewrites st) (op_at prog u))
      as [input|e]; simpl; [|discriminate].
    destruct (elide_test inputs_map outputs_map (op_at prog u) input); simpl.
    + intros H; injection H as <-. simpl. repeat split; auto.
    + destruct (rewrite_inputs ud vars U _ _ _ _) as [[[ins war] pci]|e] eqn:Hr; simpl;
        [|discriminate].
      intros H; injection H as <-. simpl.
      apply rewrite_inputs_spec in Hr as [H1 [H2 [H3 [H4 [H5 H6]]]]].
      repeat (split; [assumption|]).
      right. exists (with_inputs (op_at prog u) ins).
      split; [reflexivity|]. split; [|exact H6].
      repeat split; simpl; auto.
  - simpl.
    destruct (rewrite_inputs ud vars U _ _ _ _) as [[[ins war] pci]|e] eqn:Hr; simpl;
      [|discriminate].
    intros H; injection H as <-. simpl.
    apply rewrite_inputs_spec in Hr as [H1 [H2 [H3 [H4 [H5 H6]]]]].
    repeat (split; [assumption|]).
    right. exists (with_inputs (op_at prog u) ins).
    split; [reflexivity|]. split; [|exact H6].
    repeat split; simpl; auto.
Qed.

(** The first loop of [DoUnification] over the ops [idxs]. *)
Lemma unify_loop_spec (idxs : list nat) :
  forall st st', loop st idxs = Ok st' ->
    (forall x, In x (war_safe_reads st) -> In x (war_safe_reads st'))
    /\ (forall x, In x (post_contraction_inputs st) ->
          In x (post_contraction_inputs st'))
    /\ (forall x, In x (war_safe_reads st') ->
          In x (war_safe_reads st)
          \/ (outer_tensor x /\ In x (post_contraction_inputs st')))
    /\ (forall x, In x (post_contraction_inputs st') ->
          In x (post_contraction_inputs st)
          \/ (outer_tensor x /\ In x (war_safe_reads st')))
    /\ exists added,
         unified_post_ops st' = unified_post_ops st ++ added
         /\ (forall op, In op added ->
               (exists u, In u idxs /\ fused_from u op)
               /\ forall x, In x (inputs op) ->
                    input_served (war_safe_reads st') (post_contraction_inputs st') x)
         /\ (forall u, In u idxs -> tag (op_at prog u) = FUNCTION ->
               is_reshape_or_ident (op_at prog u) = false ->
               exists op, In op added /\ fused_from u op).
Proof.
  induction idxs as [|i rest IH]; intros st st'.
  - simpl. intros H; injection H as <-. repeat (split; [auto|]).
    exists []. rewrite app_nil_r. split; [reflexivity|].
    split; [intros op [] | intros u []].
  - unfold loop. simpl. fold (step st i). fold loop.
    destruct (step st i) as [st1|e] eqn:Hs; simpl; [|discriminate].
    intros Hl. apply IH in Hl as [L1 [L2 [L3 [L4 [added [La [Lb Lc]]]]]]].
    apply unify_op_spec in Hs as [S1 [S2 [S3 [S4 S5]]]].
    split; [auto|]. split; [auto|].
    split.
    { intros x Hx. destruct (L3 x Hx) as [H | H]; [|auto].
      destruct (S3 x H) as [H' | [H' H'']]; auto. }
    split.
    { intros x Hx. destruct (L4 x Hx) as [H | H]; [|auto].
      destruct (S4 x H) as [H' | [H' H'']]; auto. }
    destruct S5 as [[Hsame Hresh] | [op [Hop [Hfrom Hserved]]]].
    + exists added. split; [rewrite La, Hsame; reflexivity|]. split.
      * intros op Hop. destruct (Lb op Hop) as [[u [Hu Hf]] Hi].
        split; [exists u; simpl; auto | exact Hi].
      * intros u [<- | Hu] Ht Hr; [rewrite (Hresh Ht) in Hr; discriminate|].
        apply (Lc u Hu Ht Hr).
    + exists (op :: added). split; [rewrite La, Hop, <- app_assoc; reflexivity|].
      split.
      * intros op' [<- | Hop'].
        -- split; [exists i; simpl; auto|].
           intros x Hx. apply (input_served_mono _ _ _ _ x L1 L2), Hserved, Hx.
        -- destruct (Lb op' Hop') as [[u [Hu Hf]] Hi].
           split; [exists u; simpl; auto | exact Hi].
      * intros u [<- | Hu] Ht Hr.
        -- exists op. split; [left; reflexivity | exact Hfrom].
        -- destruct (Lc u Hu Ht Hr) as [op' [Hin Hf]].
           exists op'. split; [right; exact Hin | exact Hf].
Qed.

(** The access computed for a post-contraction input. *)
Lemma post_input_access_spec (flat_names : list string) (out_shape : TensorShape)
    (out_poly : list Polynomial) (name : string) (a : FlatTensorAccess) :
  post_input_access Polynomial poly_zero poly_add poly_scale poly_floor_coeff vars
                    flat_names out_shape out_poly name = Ok a ->
  offset a = 0 /\ acc_vector a = 1
  /\ length (strides a) = length flat_names
  /\ exists b, find name vars = Some b
               /\ global_index_limit a = elem_size (shape b).
Proof.
  unfold post_input_access, at_.
  destruct (find name vars) as [b|]; simpl; [|discriminate].
  intros H; injection H as <-. simpl. rewrite length_map.
  repeat split. exists b. split; [reflexivity|].
  destruct (elem_size (shape b) =? elem_size out_shape) eqn:E; [|reflexivity].
  apply Z.eqb_eq in E. symmetry. exact E.
Qed.

(** The last loop of [DoUnification]. *)
Lemma post_inputs_loop_spec (flat_names : list string) (out_shape : TensorShape)
    (out_poly : list Polynomial) (pci : list string) :
  forall poi poi',
    post_inputs_loop Polynomial poly_zero poly_add poly_scale poly_floor_coeff vars
                     flat_names out_shape out_poly pci poi = Ok poi' ->
    (forall k, count poi k = true -> count poi' k = true)
    /\ (forall k, In k pci -> count poi' k = true)
    /\ (forall k a, find k poi' = Some a ->
          find k poi = Some a
          \/ (In k pci
              /\ post_input_access Polynomial poly_zero poly_add poly_scale
                   poly_floor_coeff vars flat_names out_shape out_poly k = Ok a)).
Proof.
  induction pci as [|name rest IH]; intros poi poi'; simpl.
  - intros H; injection H as <-. repeat split; auto; intros k [].
  - destruct (post_input_access _ _ _ _ _ _ _ _ _ name) as [a|e] eqn:Ha; simpl;
      [|discriminate].
    intros H. apply IH in H as [H1 [H2 H3]].
    assert (Hkeep : forall k, count poi k = true -> count (emplace name a poi) k = true).
    { intros k Hk. unfold count in *.
      destruct (String.eqb k name) eqn:E.
      - apply String.eqb_eq in E. subst k.
        destruct (find_emplace_some name a poi) as [v' ->]. reflexivity.
      - apply String.eqb_neq in E. now rewrite (find_emplace_other _ _ _ _ E). }
    split; [intros k Hk; apply H1, Hkeep, Hk|].
    split.
    + intros k [<- | Hk]; [|apply H2, Hk].
      apply H1. unfold count.
      destruct (find_emplace_some name a poi) as [v' ->]. reflexivity.
    + intros k a' Hk. destruct (H3 k a' Hk) as [Hold | [Hin Hacc]]; [|auto].
      apply find_emplace_cases in Hold as [Hold | [-> ->]]; auto.
Qed.

End Loops.

Let unification :=
  DoUnification is_special byte_width Polynomial poly_zero poly_add poly_scale
                poly_floor_coeff.

(** The pieces of a successful call. *)
Lemma DoUnification_inv (flat flat' : FlatContraction) (computed computed' : NatSet.t)
    (vr vr' : VarRewrites.t) (war war' : StrSet.t) (opidx : nat)
    (out_poly : list Polynomial) :
  unification flat computed vr war prog opidx ud vars inputs_map outputs_map out_poly
  = Ok (flat', computed', vr', war') ->
  exists U st out_b poi,
    Planner.ConnectedComponents is_special prog vars opidx computed ud = Ok U
    /\ unify_loop byte_width prog ud vars inputs_map outputs_map U
                  (mkUnify vr [] (post_ops flat) war []) U = Ok st
    /\ find (flat_output flat) vars = Some out_b
    /\ post_inputs_loop Polynomial poly_zero poly_add poly_scale poly_floor_coeff vars
                        (names flat) (shape out_b) out_poly
                        (post_contraction_inputs st) (post_op_inputs flat) = Ok poi
    /\ flat' = mkFlat (names flat) (ranges flat) (access flat) (constraints flat)
                      (agg_vec flat) (generate_contraction flat)
                      (unified_post_ops st) poi
                      (kernel_outputs flat
                       ++ outputs_loop prog ud outputs_map U (var_rewrites st)
                            (StrSet.of_list (inputs (op_at prog opidx))))
                      (flat_output flat)
    /\ computed' = NatSet.insert_all U computed
    /\ vr' = var_rewrites st
    /\ war' = war_safe_reads st.
Proof.
  unfold unification, DoUnification.
  destruct (Planner.ConnectedComponents _ _ _ _ _ _) as [U|e] eqn:HU; simpl;
    [|discriminate].
  destruct (unify_loop _ _ _ _ _ _ _ _ _) as [st|e] eqn:Hst; simpl; [|discriminate].
  unfold at_. destruct (find (flat_output flat) vars) as [out_b|] eqn:Hb; simpl;
    [|discriminate].
  destruct (post_inputs_loop _ _ _ _ _ _ _ _ _ _ _) as [poi|e] eqn:Hpoi; simpl;
    [|discriminate].
  intros H; injection H as <- <- <- <-.
  exists U, st, out_b, poi. repeat split; auto.
Qed.

Lemma StrSet_of_list_In (l : list string) (x : string) :
  In x (StrSet.of_list l) <-> In x l.
Proof.
  unfold StrSet.of_list.
  assert (G : forall acc, In x (fold_left (fun acc y => StrSet.insert y acc) l acc)
                          <-> In x l \/ In x acc).
  { induction l as [|a t IH]; intros acc; simpl; [tauto|].
    rewrite IH, StrSet_insert_In. intuition. }
  rewrite G. simpl. tauto.
Qed.

Lemma StrSet_mem_In (x : string) (s : StrSet.t) : StrSet.mem x s = true <-> In x s.
Proof.
  unfold StrSet.mem. rewrite existsb_exists. split.
  - intros [y [Hy E]]. apply String.eqb_eq in E. now subst.
  - intros H. exists x. split; [exact H | apply String.eqb_refl].
Qed.

Lemma needed_as_output_spec (U : NatSet.t) (u : nat) :
  needed_as_output ud outputs_map U (op_at prog u) = true
  <-> read_outside prog ud U outputs_map u.
Proof.
  unfold needed_as_output, read_outside.
  destruct (count outputs_map (output (op_at prog u))); [tauto|].
  destruct (find (output (op_at prog u)) (uses ud)) as [us|].
  - rewrite existsb_exists. split.
    + intros [j [Hj Hn]]. right. exists us, j.
      apply negb_true_iff, NatSet_mem_false in Hn. auto.
    + intros [H | [us' [j [E [Hj Hn]]]]]; [discriminate|].
      injection E as <-. exists j. split; [exact Hj|].
      apply negb_true_iff, NatSet_mem_false. exact Hn.
  - split; [discriminate|]. intros [H | [us [j [E _]]]]; discriminate.
Qed.

Lemma outputs_loop_spec (U : NatSet.t) (vr : VarRewrites.t) (kernel_inputs : StrSet.t)
    (name : string) :
  In name (outputs_loop prog ud outputs_map U vr kernel_inputs) <->
  exists u, In u U
            /\ name = VarRewrites.Lookup vr (output (op_at prog u))
            /\ ~ In name kernel_inputs
            /\ read_outside prog ud U outputs_map u.
Proof.
  unfold outputs_loop.
  set (body := fun (kernel_outputs : StrSet.t) (unified_opidx : nat) => _).
  assert (G : forall idxs acc,
            In name (fold_left body idxs acc) <->
            In name acc
            \/ exists u, In u idxs
                  /\ name = VarRewrites.Lookup vr (output (op_at prog u))
                  /\ ~ In name kernel_inputs
                  /\ needed_as_output ud outputs_map U (op_at prog u) = true).
  { induction idxs as [|i rest IH]; intros acc; simpl.
    - split; [auto | intros [H | [u [[] _]]]; exact H].
    - rewrite IH. unfold body at 1. cbv beta.
      destruct (StrSet.mem _ kernel_inputs) eqn:Em.
      + apply StrSet_mem_In in Em. split.
        * intros [H | [u [Hu H]]]; [auto | right; exists u; tauto].
        * intros [H | [u [[<- | Hu] [Hn [Hk Hneed]]]]];
            [auto | subst name; contradiction | right; exists u; tauto].
      + assert (Hk : ~ In (VarRewrites.Lookup vr (output (op_at prog i))) kernel_inputs).
        { intros H. apply StrSet_mem_In in H. congruence. }
        destruct (needed_as_output ud outputs_map U (op_at prog i)) eqn:En.
        * rewrite StrSet_insert_In. split.
          -- intros [[-> | H] | [u [Hu H]]];
               [right; exists i; tauto | auto | right; exists u; tauto].
          -- intros [H | [u [[<- | Hu] [Hn H]]]];
               [auto | left; left; exact Hn | right; exists u; tauto].
        * split.
          -- intros [H | [u [Hu H]]]; [auto | right; exists u; tauto].
          -- intros [H | [u [[<- | Hu] [Hn [Hk' Hneed]]]]];
               [auto | congruence | right; exists u; tauto].
  }
  rewrite G. simpl. split.
  - intros [[] | [u [Hu [Hn [Hk Hneed]]]]]. exists u.
    apply needed_as_output_spec in Hneed. auto.
  - intros [u [Hu [Hn [Hk Hneed]]]]. right. exists u.
    apply needed_as_output_spec in Hneed. auto.
Qed.

(** X16. A successful [DoUnification] changes the flat contraction only
    in its post-ops, post-op inputs and kernel outputs.  The post-ops
    it appends are function ops of the set returned by
    [ConnectedComponents], each with its tag, output and function kept
    and as many inputs as before, and every function op of the set
    other than a reshape or ident is appended. *)
Theorem DoUnification_post_ops (flat flat' : FlatContraction)
    (computed computed' : NatSet.t) (vr vr' : VarRewrites.t) (war war' : StrSet.t)
    (opidx : nat) (out_poly : list Polynomial) :
  unification flat computed vr war prog opidx ud vars inputs_map outputs_map out_poly
  = Ok (flat', computed', vr', war') ->
  (names flat' = names flat /\ ranges flat' = ranges flat /\ access flat' = access flat
   /\ constraints flat' = constraints flat /\ agg_vec flat' = agg_vec flat
   /\ generate_contraction flat' = generate_contraction flat
   /\ flat_output flat' = flat_output flat)
  /\ exists U added,
       Planner.ConnectedComponents is_special prog vars opidx computed ud = Ok U
       /\ post_ops flat' = post_ops flat ++ added
       /\ (forall op, In op added -> exists u, In u U /\ fused_from prog u op)
       /\ (forall u, In u U -> tag (op_at prog u) = FUNCTION ->
              is_reshape_or_ident (op_at prog u) = false ->
              exists op, In op added /\ fused_from prog u op).
Proof.
  intros H. apply DoUnification_inv in H
    as [U [st [out_b [poi [HU [Hst [Hb [Hpoi [-> [-> [-> ->]]]]]]]]]]].
  split; [simpl; repeat split|].
  apply unify_loop_spec in Hst as [_ [_ [_ [_ [added [Ha [Hb1 Hb2]]]]]]].
  exists U, added. split; [exact HU|]. split; [exact Ha|].
  split; [|exact Hb2]. intros op Hop. apply (Hb1 op Hop).
Qed.

(** X17. After a successful [DoUnification] every input of an appended
    post-op is bound, and when it is bound to a tensor it is either the
    output of an op of the set or a read the kernel declares: it is
    among [war_safe_reads] and has an access in [post_op_inputs]. *)
Theorem DoUnification_reads (flat flat' : FlatContraction)
    (computed computed' : NatSet.t) (vr vr' : VarRewrites.t) (war war' : StrSet.t)
    (opidx : nat) (out_poly : list Polynomial) :
  unification flat computed vr war prog opidx ud vars inputs_map outputs_map out_poly
  = Ok (flat', computed', vr', war') ->
  exists U,
    Planner.ConnectedComponents is_special prog vars opidx computed ud = Ok U
    /\ forall op, In op (post_ops flat') -> ~ In op (post_ops flat) ->
       forall x, In x (inputs op) ->
         exists b, find x vars = Some b
           /\ (btag b = TENSOR ->
               defined_inside ud U x
               \/ (In x war' /\ count (post_op_inputs flat') x = true)).
Proof.
  intros H. apply DoUnification_inv in H
    as [U [st [out_b [poi [HU [Hst [Hb [Hpoi [-> [-> [-> ->]]]]]]]]]]].
  exists U. split; [exact HU|]. simpl.
  apply unify_loop_spec in Hst as [_ [_ [_ [_ [added [Ha [Hb1 _]]]]]]].
  apply post_inputs_loop_spec in Hpoi as [_ [P2 _]].
  simpl in Ha. rewrite Ha. intros op Hop Hnew x Hx.
  apply in_app_or in Hop as [Hop | Hop]; [contradiction|].
  destruct (Hb1 op Hop) as [_ Hserved].
  destruct (Hserved x Hx) as [b [Hxb Hserve]].
  exists b. split; [exact Hxb|]. intros Ht.
  destruct (Hserve Ht) as [Hin | [Hw Hp]]; [left; exact Hin|].
  right. split; [exact Hw | apply P2, Hp].
Qed.

(** X18. A successful [DoUnification] keeps every key of
    [post_op_inputs]; an entry it adds belongs to a tensor that no op of
    the set defines and that is among [war_safe_reads], and its access
    has offset 0, one stride per index name, and the element count of
    the tensor as [global_index_limit]. *)
Theorem DoUnification_post_op_inputs (flat flat' : FlatContraction)
    (computed computed' : NatSet.t) (vr vr' : VarRewrites.t) (war war' : StrSet.t)
    (opidx : nat) (out_poly : list Polynomial) :
  unification flat computed vr war prog opidx ud vars inputs_map outputs_map out_poly
  = Ok (flat', computed', vr', war') ->
  exists U,
    Planner.ConnectedComponents is_special prog vars opidx computed ud = Ok U
    /\ (forall k, count (post_op_inputs flat) k = true ->
                  count (post_op_inputs flat') k = true)
    /\ forall k a, find k (post_op_inputs flat') = Some a ->
         find k (post_op_inputs flat) = Some a
         \/ (outer_tensor ud vars U k /\ In k war'
             /\ offset a = 0
             /\ length (strides a) = length (names flat')
             /\ exists b, find k vars = Some b
                          /\ global_index_limit a = elem_size (shape b)).
Proof.
  intros H. apply DoUnification_inv in H
    as [U [st [out_b [poi [HU [Hst [Hb [Hpoi [-> [-> [-> ->]]]]]]]]]]].
  exists U. split; [exact HU|]. simpl.
  apply unify_loop_spec in Hst as [_ [_ [_ [L4 _]]]].
  apply post_inputs_loop_spec in Hpoi as [P1 [_ P3]].
  split; [exact P1|]. intros k a Hk.
  destruct (P3 k a Hk) as [Hold | [Hin Hacc]]; [left; exact Hold|].
  right. destruct (L4 k Hin) as [[] | [Hout Hw]].
  apply post_input_access_spec in Hacc as [Ho [_ [Hl Hg]]].
  repeat split; try assumption; apply Hout.
Qed.

(** X19. A successful [DoUnification] only adds to [war_safe_reads], and
    what it adds are tensors that no op of the set defines, each with an
    access in [post_op_inputs]. *)
Theorem DoUnification_war_safe_reads (flat flat' : FlatContraction)
    (computed computed' : NatSet.t) (vr vr' : VarRewrites.t) (war war' : StrSet.t)
    (opidx : nat) (out_poly : list Polynomial) :
  unification flat computed vr war prog opidx ud vars inputs_map outputs_map out_poly
  = Ok (flat', computed', vr', war') ->
  exists U,
    Planner.ConnectedComponents is_special prog vars opidx computed ud = Ok U
    /\ (forall x, In x war -> In x war')
    /\ forall x, In x war' ->
         In x war
         \/ (outer_tensor ud vars U x /\ count (post_op_inputs flat') x = true).
Proof.
  intros H. apply DoUnification_inv in H
    as [U [st [out_b [poi [HU [Hst [Hb [Hpoi [-> [-> [-> ->]]]]]]]]]]].
  exists U. split; [exact HU|]. simpl.
  apply unify_loop_spec in Hst as [L1 [_ [L3 _]]].
  apply post_inputs_loop_spec in Hpoi as [_ [P2 _]].
  split; [exact L1|]. intros x Hx.
  destruct (L3 x Hx) as [Hold | [Hout Hp]]; [left; exact Hold|].
  right. split; [exact Hout | apply P2, Hp].
Qed.

(** X20. After a successful [DoUnification] the set [computed] has grown
    by the ops of the kernel: it contains the root op and everything it
    contained before, and every other op in it was accepted by
    [OpCanBeUnified] against the root. *)
Theorem DoUnification_computed (flat flat' : FlatContraction)
    (computed computed' : NatSet.t) (vr vr' : VarRewrites.t) (war war' : StrSet.t)
    (opidx : nat) (out_poly : list Polynomial) :
  unification flat computed vr war prog opidx ud vars inputs_map outputs_map out_poly
  = Ok (flat', computed', vr', war') ->
  In opidx computed'
  /\ (forall i, In i computed -> In i computed')
  /\ forall i, In i computed' ->
       In i computed \/ i = opidx
       \/ Planner.OpCanBeUnified is_special prog vars opidx i = Ok true.
Proof.
  intros H. apply DoUnification_inv in H
    as [U [st [out_b [poi [HU [Hst [Hb [Hpoi [-> [-> [-> ->]]]]]]]]]]].
  apply ConnectedComponents_inv in HU as [I1 [_ [_ I4]]].
  split; [apply NatSet_insert_all_In; left; exact I1|].
  split; [intros i Hi; apply NatSet_insert_all_In; right; exact Hi|].
  intros i Hi. apply NatSet_insert_all_In in Hi as [Hi | Hi]; [|left; exact Hi].
  right. destruct (I4 i Hi) as [-> | [[Ha _] _]]; [left; reflexivity | right; exact Ha].
Qed.

(** X21. The kernel outputs that a successful [DoUnification] appends
    are exactly the looked-up outputs of the ops of the set that are not
    inputs of the root op and that are read outside the kernel: program
    outputs, and outputs used by an op that is not in the set. *)
Theorem DoUnification_kernel_outputs (flat flat' : FlatContraction)
    (computed computed' : NatSet.t) (vr vr' : VarRewrites.t) (war war' : StrSet.t)
    (opidx : nat) (out_poly : list Polynomial) :
  unification flat computed vr war prog opidx ud vars inputs_map outputs_map out_poly
  = Ok (flat', computed', vr', war') ->
  exists U added,
    Planner.ConnectedComponents is_special prog vars opidx computed ud = Ok U
    /\ kernel_outputs flat' = kernel_outputs flat ++ added
    /\ forall name, In name added <->
         exists u, In u U
                   /\ name = VarRewrites.Lookup vr' (output (op_at prog u))
                   /\ ~ In name (inputs (op_at prog opidx))
                   /\ read_outside prog ud U outputs_map u.
Proof.
  intros H. apply DoUnification_inv in H
    as [U [st [out_b [poi [HU [Hst [Hb [Hpoi [-> [-> [-> ->]]]]]]]]]]].
  exists U, (outputs_loop prog ud outputs_map U (var_rewrites st)
               (StrSet.of_list (inputs (op_at prog opidx)))).
  split; [exact HU|]. split; [reflexivity|].
  intros name. rewrite outputs_loop_spec. split.
  - intros [u [Hu [Hn [Hk Hr]]]]. exists u. rewrite StrSet_of_list_In in Hk. auto.
  - intros [u [Hu [Hn [Hk Hr]]]]. exists u. rewrite StrSet_of_list_In. auto.
Qed.

End UnifyCover.

(* ================================================================= *)
(** ** The driver: shapes, kernel names, and the state of the loop *)

Section NamingFacts.
Import Driver Naming.

Lemma all_chars_append (p : ascii -> bool) (a b : string) :
  all_chars p (String.append a b) = all_chars p a && all_chars p b.
Proof.
  induction a as [|ch a IH]; simpl; [reflexivity|].
  now rewrite IH, andb_assoc.
Qed.

Lemma sanitize_ident (id : string) : all_chars is_ident_char (sanitize id) = true.
Proof.
  induction id as [|ch rest IH]; simpl; [reflexivity|].
  rewrite IH, andb_true_r. unfold is_ident_char.
  destruct (is_alnum ch) eqn:E; simpl; [now rewrite E | reflexivity].
Qed.

Lemma digits_ident (d : Decimal.uint) :
  all_chars is_ident_char (NilEmpty.string_of_uint d) = true.
Proof.
  induction d; simpl; try reflexivity; exact IHd.
Qed.

Lemma kname_for_chars (kid : string) (N : nat) :
  all_chars is_ident_char kid = true ->
  all_chars is_ident_char (kname_for kid N) = true.
Proof.
  intros H. unfold kname_for. rewrite !all_chars_append, H, digits_ident. reflexivity.
Qed.

(** X22. The kernel names that [GenerateProgram] hands out for a
    program id -- [kernel_<id>_<N>] with every non-alphanumeric
    character of the id replaced by an underscore, and the same name
    prefixed with [zero_] or [copy_] -- are valid C identifiers, whatever
    the id. *)
Theorem kernel_names_are_identifiers (id : string) (N : nat) :
  c_identifier (kname_for (make_kid id) N)
  /\ c_identifier (String.append "zero_" (kname_for (make_kid id) N))
  /\ c_identifier (String.append "copy_" (kname_for (make_kid id) N)).
Proof.
  assert (H : all_chars is_ident_char (kname_for (make_kid id) N) = true).
  { apply kname_for_chars. unfold make_kid.
    rewrite all_chars_append, sanitize_ident. reflexivity. }
  split; [|split].
  - unfold kname_for, make_kid in *. simpl in *. split; [reflexivity | exact H].
  - split; [reflexivity|]. rewrite all_chars_append, H. reflexivity.
  - split; [reflexivity|]. rewrite all_chars_append, H. reflexivity.
Qed.

Lemma append_inj_l (s a b : string) :
  String.append s a = String.append s b -> a = b.
Proof.
  induction s as [|ch s IH]; simpl; [auto|].
  intros H. injection H as H. apply IH, H.
Qed.

Lemma string_of_uint_inj (d d' : Decimal.uint) :
  NilEmpty.string_of_uint d = NilEmpty.string_of_uint d' -> d = d'.
Proof.
  intros H. pose proof (NilEmpty.usu d) as H1. pose proof (NilEmpty.usu d') as H2.
  rewrite H in H1. congruence.
Qed.

(** X23. Two kernel names drawn for the same program id are equal only
    when the counter values are: the names [<kid>_<N>] never collide. *)
Theorem kname_for_injective (kid : string) (n m : nat) :
  kname_for kid n = kname_for kid m <-> n = m.
Proof.
  split; [|intros ->; reflexivity].
  unfold kname_for. intros H.
  apply append_inj_l, append_inj_l, string_of_uint_inj in H.
  apply DecimalNat.Unsigned.to_uint_inj, H.
Qed.

End NamingFacts.

Section ShapeFacts.
Import Driver Naming.

Variable vars : Bindings.

(** X24. [MakeTShapes] returns, in order, the shapes the spec ids are
    bound to when every id is bound; otherwise it raises the
    [runtime_error] that names the first id that is not bound. *)
Theorem MakeTShapes_spec (specs_ : list string) :
  (forall tshapes,
     MakeTShapes specs_ vars = Ok tshapes <->
     map (fun id => option_map shape (find id vars)) specs_ = map Some tshapes)
  /\ (forall e,
        MakeTShapes specs_ vars = Err e <->
        exists pre id post,
          specs_ = pre ++ id :: post
          /\ (forall x, In x pre -> count vars x = true)
          /\ find id vars = None
          /\ e = shape_error id).
Proof.
  induction specs_ as [|id rest [IHok IHerr]]; simpl.
  - split.
    + intros [|t ts]; simpl; split; try discriminate; auto.
    + intros e. split; [discriminate|].
      intros [[|x pre] [id [post [H _]]]]; discriminate.
  - destruct (find id vars) as [b|] eqn:Hb; simpl.
    + split.
      * intros tshapes.
        destruct (MakeTShapes rest vars) as [ts|e] eqn:Hrest; simpl.
        -- destruct tshapes as [|t ts']; simpl; [split; discriminate|].
           split.
           ++ intros H; injection H as <- <-. f_equal. apply IHok. reflexivity.
           ++ intros H; injection H as <- H. apply IHok in H. injection H as <-.
              reflexivity.
        -- split; [discriminate|]. destruct tshapes as [|t ts']; simpl; [discriminate|].
           intros H; injection H as _ H. apply IHok in H. discriminate.
      * intros e.
        destruct (MakeTShapes rest vars) as [ts|e'] eqn:Hrest; simpl.
        -- split; [discriminate|].
           intros [[|x pre] [id' [post [Hs [Hpre [Hn He]]]]]]; simpl in Hs;
             injection Hs as -> ->.
           ++ congruence.
           ++ assert (@Ok (list TensorShape) ts = Err e); [|discriminate].
              apply IHerr. exists pre, id', post.
              repeat split; auto. intros y Hy. apply Hpre. right. exact Hy.
        -- split.
           ++ intros H; injection H as <-.
              destruct (proj1 (IHerr e') eq_refl) as [pre [id' [post [-> [Hp [Hn He]]]]]].
              exists (id :: pre), id', post. repeat split; auto.
              intros x [<- | Hx]; [unfold count; now rewrite Hb | apply Hp, Hx].
           ++ intros [[|x pre] [id' [post [Hs [Hpre [Hn He]]]]]]; simpl in Hs;
                injection Hs as -> ->.
              ** congruence.
              ** apply IHerr. exists pre, id', post.
                 repeat split; auto. intros y Hy. apply Hpre. right. exact Hy.
    + split.
      * intros tshapes. split; [discriminate|].
        destruct tshapes; simpl; discriminate.
      * intros e. split.
        -- intros H; injection H as <-. exists [], id, rest.
           repeat split; auto; intros x [].
        -- intros [[|x pre] [id' [post [Hs [Hpre [Hn He]]]]]]; simpl in Hs;
             injection Hs as -> ->.
           ++ now subst e.
           ++ specialize (Hpre x (or_introl eq_refl)). unfold count in Hpre.
              rewrite Hb in Hpre. discriminate.
Qed.

Lemma MakeTShapes_bound (specs_ : list string) (tshapes : list TensorShape) :
  MakeTShapes specs_ vars = Ok tshapes ->
  forall x, In x specs_ -> exists b, find x vars = Some b.
Proof.
  revert tshapes; induction specs_ as [|id rest IH]; intros tshapes; simpl;
    [intros _ x []|].
  destruct (find id vars) as [b|] eqn:Hb; [|discriminate].
  destruct (MakeTShapes rest vars) as [ts|e]; simpl; [|discriminate].
  intros _ x [<- | Hx]; [eauto | apply (IH ts eq_refl x Hx)].
Qed.

Lemma spec_inputs_bound (specs_ : list string) :
  (forall x, In x specs_ -> exists b, find x vars = Some b) ->
  forall first,
    spec_inputs specs_ vars first = Ok (if first then tl specs_ else specs_).
Proof.
  induction specs_ as [|id rest IH]; intros Hb first; simpl;
    [destruct first; reflexivity|].
  destruct (Hb id (or_introl eq_refl)) as [b ->].
  rewrite (IH (fun x Hx => Hb x (or_intror Hx)) false). simpl.
  destruct first; reflexivity.
Qed.

Lemma tensor_inputs_bound (vr : VarRewrites.t) (ins : list string) :
  (forall x, In x ins -> exists b, find x vars = Some b) ->
  exists r, tensor_inputs vars vr ins = Ok r.
Proof.
  induction ins as [|x rest IH]; intros Hb; simpl; [eauto|].
  unfold at_. destruct (Hb x (or_introl eq_refl)) as [b ->]. simpl.
  destruct (IH (fun y Hy => Hb y (or_intror Hy))) as [r ->]. simpl. eauto.
Qed.

Variable Vectorize : FlatContraction -> Z -> FlatContraction.
Variable TileOptimize : FlatContraction -> bool -> Bindings -> list Tile.
Variable vec_size : Z.

(** X25. For a contraction whose spec ids [MakeTShapes] found bound,
    [ContractionWrap] raises an exception exactly when it does not return
    early and the contraction has other than 2, 3 or 4 specs, and the
    exception is the arity [runtime_error]: the lookups of the spec ids
    and of the kernel inputs cannot fail. *)
Theorem ContractionWrap_failure (ks : list KernelInfo) (c0 : Contraction)
    (flat : FlatContraction) (kname : string) (tile_trials : nat)
    (vr : VarRewrites.t) (war : list string) (tshapes : list TensorShape)
    (e : Error) :
  MakeTShapes (specs c0) vars = Ok tshapes ->
  (ContractionWrap Vectorize TileOptimize vec_size ks (Some c0) flat kname vars
                   tile_trials vr war = Err e
   <-> (generate_contraction flat = true \/ post_ops flat <> [])
       /\ length (specs c0) <> 2%nat /\ length (specs c0) <> 3%nat
       /\ length (specs c0) <> 4%nat
       /\ e = runtime_error msg_arity).
Proof.
  intros Hts. pose proof (MakeTShapes_bound _ _ Hts) as Hb.
  unfold ContractionWrap.
  destruct (generate_contraction flat) eqn:Eg; simpl.
  - destruct (negb (length (specs c0) =? 2)%nat && negb (length (specs c0) =? 3)%nat
              && negb (length (specs c0) =? 4)%nat) eqn:Ea.
    + simpl. rewrite !andb_true_iff, !negb_true_iff, !Nat.eqb_neq in Ea.
      split; [intros H; injection H as <-; tauto | intros [_ [_ [_ [_ ->]]]]; reflexivity].
    + rewrite (spec_inputs_bound _ Hb true). simpl.
      assert (Hok : length (specs c0) = 2%nat \/ length (specs c0) = 3%nat
                    \/ length (specs c0) = 4%nat).
      { rewrite !andb_false_iff, !negb_false_iff, !Nat.eqb_eq in Ea. tauto. }
      destruct (firstn tile_trials _) as [|tile more];
        [split; [discriminate | intros [_ [H2 [H3 [H4 _]]]]; lia]|].
      unfold kernel_inputs_of.
      destruct (tensor_inputs_bound vr (tl (specs c0))) as [r ->].
      { intros x Hx. apply Hb. destruct (specs c0); [destruct Hx | right; exact Hx]. }
      simpl. split; [discriminate | intros [_ [H2 [H3 [H4 _]]]]; lia].
  - destruct (length (post_ops flat) =? 0)%nat eqn:Ep; simpl.
    + apply Nat.eqb_eq in Ep. split; [discriminate|].
      intros [[H | H] _]; [discriminate|].
      destruct (post_ops flat); [contradiction | discriminate].
    + apply Nat.eqb_neq in Ep.
      assert (Hpost : post_ops flat <> []) by (intros E; rewrite E in Ep; auto).
      destruct (negb (length (specs c0) =? 2)%nat && negb (length (specs c0) =? 3)%nat
                && negb (length (specs c0) =? 4)%nat) eqn:Ea.
      * simpl. rewrite !andb_true_iff, !negb_true_iff, !Nat.eqb_neq in Ea.
        split; [intros H; injection H as <-; tauto
               | intros [_ [_ [_ [_ ->]]]]; reflexivity].
      * rewrite (spec_inputs_bound _ Hb true). simpl.
        assert (Hok : length (specs c0) = 2%nat \/ length (specs c0) = 3%nat
                      \/ length (specs c0) = 4%nat).
        { rewrite !andb_false_iff, !negb_false_iff, !Nat.eqb_eq in Ea. tauto. }
        destruct (firstn tile_trials _) as [|tile more];
          [split; [discriminate | intros [_ [H2 [H3 [H4 _]]]]; lia]|].
        unfold kernel_inputs_of.
        destruct (tensor_inputs_bound vr (tl (specs c0))) as [r ->].
        { intros x Hx. apply Hb. destruct (specs c0); [destruct Hx | right; exact Hx]. }
        simpl. split; [discriminate | intros [_ [H2 [H3 [H4 _]]]]; lia].
Qed.

End ShapeFacts.

(* ================================================================= *)
(** ** The loop of Compile *)

Lemma set_nth_overflow {A : Type} (x : A) (l : list A) :
  forall i, (length l <= i)%nat -> set_nth i x l = l.
Proof.
  induction l as [|a t IH]; intros i Hi; [destruct i; reflexivity|].
  destruct i as [|i]; simpl in *; [lia|]. f_equal. apply IH. lia.
Qed.

Ltac frame_tac H :=
  split; [|split; [|split]];
  [try reflexivity | simpl in *; lia | simpl in *; lia | apply H].

Section ProgramFacts.
Import Driver Naming.

Lemma same_signature_refl (p : Program) : same_signature p p.
Proof. split; [reflexivity|]. intros j. repeat split; auto. Qed.

Lemma same_signature_trans (p q r : Program) :
  same_signature p q -> same_signature q r -> same_signature p r.
Proof.
  intros [L1 H1] [L2 H2]. split; [congruence|].
  intros j. destruct (H1 j) as [A1 [B1 [C1 [D1 E1]]]].
  destruct (H2 j) as [A2 [B2 [C2 [D2 E2]]]].
  repeat split; try congruence.
  destruct E2 as [E2 | E2]; [|right; exact E2].
  rewrite E2. exact E1.
Qed.

(** The rewrite of a state op into an identity keeps the signature. *)
Lemma same_signature_ident (p : Program) (pos : nat) (x : string) :
  same_signature p (mkProgram (set_nth pos (to_ident (op_at p pos) x) (ops p))).
Proof.
  split; [simpl; apply set_nth_length|].
  intros j.
  assert (E : op_at (mkProgram (set_nth pos (to_ident (op_at p pos) x) (ops p))) j
              = op_at p j
              \/ op_at (mkProgram (set_nth pos (to_ident (op_at p pos) x) (ops p))) j
                 = to_ident (op_at p j) x).
  { unfold op_at at 1 3. simpl.
    destruct (Nat.eq_dec j pos) as [-> | Hne].
    - destruct (Nat.lt_ge_cases pos (length (ops p))) as [Hlt | Hge].
      + right. apply nth_set_nth_same, Hlt.
      + left. rewrite set_nth_overflow by exact Hge. reflexivity.
    - left. apply nth_set_nth_other, Hne. }
  destruct E as [-> | ->]; [repeat split; auto|].
  simpl. repeat split; auto. destruct (inputs (op_at p j)); reflexivity.
Qed.

End ProgramFacts.

Section LoopCover.
Import Driver Naming.

Variable is_special : Function -> bool.
Variable byte_width : DataType -> Z.
Variable Polynomial : Type.
Variable poly_zero : Polynomial.
Variable poly_add : Polynomial -> Polynomial -> Polynomial.
Variable poly_scale : Polynomial -> Z -> Polynomial.
Variable poly_floor_coeff : Polynomial -> string -> Z.
Variable poly_var : string -> Polynomial.
Variable CompileContraction :
  Contraction -> list TensorShape -> M (FlatContraction * list Polynomial).
Variable Vectorize : FlatContraction -> Z -> FlatContraction.
Variable TileOptimize : FlatContraction -> bool -> Bindings -> list Tile.
Variable vec_size : Z.
Variable BindProgram : Program -> ShapeMap -> ShapeMap -> M (Program * Bindings).

Variable inputs_map : ShapeMap.
Variable outputs_map : ShapeMap.
Variable kid : string.
Variable tile_trials : nat.

Section Rounds.

Variable vars : Bindings.
Variable ud : UseDef.

Let step :=
  compile_op is_special byte_width Polynomial poly_zero poly_add poly_scale
    poly_floor_coeff poly_var CompileContraction Vectorize TileOptimize vec_size
    vars ud inputs_map outputs_map kid tile_trials.

Let run :=
  compile_loop is_special byte_width Polynomial poly_zero poly_add poly_scale
    poly_floor_coeff poly_var CompileContraction Vectorize TileOptimize vec_size
    vars ud inputs_map outputs_map kid tile_trials.

Lemma round_frame_same (st : CompileState) (n : nat) : round_frame n st st.
Proof.
  exists []. rewrite app_nil_r. simpl.
  frame_tac same_signature_refl.
Qed.

Lemma step_frame (st st' : CompileState) (i : nat) :
  step st i = Ok st' -> round_frame 1 st st'.
Proof.
  unfold step, compile_op.
  destruct (tag (op_at (st_prog st) i)).
  - (* CONTRACTION *)
    unfold compile_contraction.
    destruct (MakeTShapes _ vars) as [tshapes|e]; simpl; [|discriminate].
    destruct (CompileContraction _ tshapes) as [[flat0 out_poly]|e]; simpl;
      [|discriminate].
    destruct (Zero.NeedsZero _ _).
    + destruct (ContractionWrap _ _ _ _ _ _ _ _ _ _ _) as [ks|e] eqn:Hw; simpl;
        [|discriminate].
      intros H; injection H as <-.
      apply ContractionWrap_adds in Hw as [added [-> [Hlen _]]].
      eexists (_ :: added). simpl. rewrite <- app_assoc. simpl.
      frame_tac same_signature_refl.
    + destruct (unify _ _ _ _ _ _ _ _ _ _ _ _ _ _ _) as [[[[flat' computed'] vr'] war]|e];
        simpl; [|discriminate].
      destruct (ContractionWrap _ _ _ _ _ _ _ _ _ _ _) as [ks|e] eqn:Hw; simpl;
        [|discriminate].
      intros H; injection H as <-.
      apply ContractionWrap_adds in Hw as [added [-> [Hlen _]]].
      exists added. simpl. frame_tac same_signature_refl.
  - (* FUNCTION *)
    destruct (NatSet.mem i (st_computed st));
      [intros H; injection H as <-; apply round_frame_same|].
    destruct (is_special (f (op_at (st_prog st) i))).
    + unfold compile_special.
      destruct (_ || _); [discriminate|].
      destruct (String.eqb (fn (f (op_at (st_prog st) i))) "prng_step").
      * destruct (prng_scan _ _ _ _ _ _ _) as [[[sout vout] pos] comp].
        destruct (String.eqb vout "" && String.eqb sout "").
        { intros H; injection H as <-. exists []. rewrite app_nil_r. simpl.
          frame_tac same_signature_refl. }
        destruct (String.eqb vout "").
        { intros H; injection H as <-. exists []. rewrite app_nil_r. simpl.
          frame_tac same_signature_ident. }
        destruct (String.eqb sout ""); [discriminate|].
        intros H; injection H as <-. eexists [_]. simpl.
        frame_tac same_signature_refl.
      * intros H; injection H as <-. eexists [_]. simpl.
        frame_tac same_signature_refl.
    + unfold compile_elementwise.
      destruct (at_ vars _) as [b|e]; simpl; [|discriminate].
      destruct (unify _ _ _ _ _ _ _ _ _ _ _ _ _ _ _) as [[[[flat' computed'] vr'] war]|e];
        simpl; [|discriminate].
      destruct (ContractionWrap _ _ _ _ _ _ _ _ _ _ _) as [ks|e] eqn:Hw; simpl;
        [|discriminate].
      intros H; injection H as <-.
      apply ContractionWrap_adds in Hw as [added [-> [Hlen _]]].
      exists added. simpl. frame_tac same_signature_refl.
  - (* CONSTANT *)
    intros H; injection H as <-. apply round_frame_same.
Qed.

Lemma run_frame (idxs : list nat) :
  forall st st', run st idxs = Ok st' -> round_frame (length idxs) st st'.
Proof.
  induction idxs as [|i rest IH]; intros st st'.
  - simpl. intros H; injection H as <-. apply round_frame_same.
  - unfold run. simpl. fold (step st i). fold run.
    destruct (step st i) as [st1|e] eqn:Hs; simpl; [|discriminate].
    intros Hr. apply IH in Hr as [a2 [K2 [L2 [N2 S2]]]].
    apply step_frame in Hs as [a1 [K1 [L1 [N1 S1]]]].
    exists (a1 ++ a2). rewrite K2, K1, app_assoc, length_app. simpl.
    frame_tac (same_signature_trans _ _ _ S1 S2).
Qed.

(** X26. The loop of [Compile] only appends to the kernel list -- at
    most two kernels per op visited -- and draws at most one kernel name
    per op; the program it carries keeps its ops' number, tags, outputs,
    contractions and input counts, and an op that changes has become an
    [ident]. *)
Theorem compile_loop_frame (st st' : CompileState) (idxs : list nat) :
  run st idxs = Ok st' ->
  (exists added,
     st_kernels st' = st_kernels st ++ added
     /\ (length added <= 2 * length idxs)%nat)
  /\ (st_knum st <= st_knum st' <= st_knum st + length idxs)%nat
  /\ length (ops (st_prog st')) = length (ops (st_prog st))
  /\ forall j,
       tag (op_at (st_prog st') j) = tag (op_at (st_prog st) j)
       /\ output (op_at (st_prog st') j) = output (op_at (st_prog st) j)
       /\ c (op_at (st_prog st') j) = c (op_at (st_prog st) j)
       /\ length (inputs (op_at (st_prog st') j))
          = length (inputs (op_at (st_prog st) j))
       /\ (op_at (st_prog st') j = op_at (st_prog st) j
           \/ fn (f (op_at (st_prog st') j)) = "ident").
Proof.
  intros H. apply run_frame in H as [added [K [L [N [S1 S2]]]]].
  split; [exists added; auto|]. split; [exact N|]. split; [exact S1 | exact S2].
Qed.

End Rounds.

Let compile :=
  Compile is_special byte_width Polynomial poly_zero poly_add poly_scale
    poly_floor_coeff poly_var CompileContraction Vectorize TileOptimize vec_size
    BindProgram.

(** X27. When [Compile] returns a kernel list, the program was bound,
    and the list has at most two kernels for each op of the bound
    program. *)
Theorem Compile_kernel_count (orig_prog : Program) (r : KernelList) :
  compile orig_prog inputs_map outputs_map kid tile_trials = Ok r ->
  exists prog vars,
    BindProgram orig_prog inputs_map outputs_map = Ok (prog, vars)
    /\ (length (kernels r) <= 2 * length (ops prog))%nat.
Proof.
  unfold compile, Compile.
  destruct (BindProgram orig_prog inputs_map outputs_map) as [[prog vars]|e]; simpl;
    [|discriminate].
  destruct (compile_loop _ _ _ _ _ _ _ _ _ _ _ _ _ _ _ _ _ _ _ _) as [st|e] eqn:Hrun;
    simpl; [|discriminate].
  intros H; injection H as <-. exists prog, vars. split; [reflexivity|]. simpl.
  apply run_frame in Hrun as [added [K [L _]]]. simpl in K. subst.
  rewrite length_seq in L. exact L.
Qed.

End LoopCover.

(* ================================================================= *)
(** ** PRNG groups *)

Section PrngCover.
Import Driver.

(** What the scan for the companions of a [prng_step] reports: the
    outputs of a state and of a value companion when there are any, the
    position of that state companion, and every companion marked
    computed. *)
Lemma prng_scan_outputs (tup : string) (l : list Op) :
  forall j sout0 vout0 pos0 computed0,
    let '(sout, vout, pos, computed) := prng_scan tup l j sout0 vout0 pos0 computed0 in
    ((sout = sout0 /\ pos = pos0 /\ ~ (exists nop, In nop l /\ state_of tup nop))
     \/ exists k nop, nth_error l k = Some nop /\ state_of tup nop
                      /\ sout = output nop /\ pos = (j + k)%nat)
    /\ ((vout = vout0 /\ ~ (exists nop, In nop l /\ value_of tup nop))
        \/ exists k nop, nth_error l k = Some nop /\ value_of tup nop
                         /\ vout = output nop)
    /\ (forall x, In x computed0 -> In x computed)
    /\ (forall k nop, nth_error l k = Some nop ->
          state_of tup nop \/ value_of tup nop -> In (j + k)%nat computed).
Proof.
  induction l as [|nop rest IH]; intros j sout0 vout0 pos0 computed0.
  - simpl. split; [left; repeat split; auto; intros [n [[] _]]|].
    split; [left; split; auto; intros [n [[] _]]|].
    split; [auto|]. intros [|k] n H; discriminate.
  - simpl.
    destruct (String.eqb (fn (f nop)) "prng_state" && _ && _) eqn:Es.
    + apply scan_test in Es.
      specialize (IH (S j) (output nop) vout0 j (NatSet.insert j computed0)).
      destruct (prng_scan _ _ _ _ _ _ _) as [[[sout vout] pos] comp].
      destruct IH as [IHs [IHv [IHc IHm]]].
      split; [|split; [|split]].
      * right. destruct IHs as [[-> [-> _]] | [k [n [Hk [Hn [-> ->]]]]]].
        -- exists 0%nat, nop. simpl. repeat split; auto. apply Es. apply Es.
        -- exists (S k), n. simpl. repeat split; auto; try apply Hn; try lia.
      * destruct IHv as [[-> Hno] | [k [n [Hk [Hn ->]]]]].
        -- left. split; [reflexivity|]. intros [n [[<- | Hin] Hv]].
           ++ destruct Es as [Ef _], Hv as [Ef' _]. rewrite Ef in Ef'. discriminate.
           ++ apply Hno. exists n. auto.
        -- right. exists (S k), n. simpl. auto.
      * intros x Hx. apply IHc, NatSet_insert_In. auto.
      * intros [|k] n Hk Hn; simpl in Hk.
        -- rewrite Nat.add_0_r. apply IHc, NatSet_insert_In. auto.
        -- replace (j + S k)%nat with (S j + k)%nat by lia. apply (IHm k n Hk Hn).
    + assert (Hns : ~ state_of tup nop).
      { intros H. apply scan_test in H. rewrite H in Es. discriminate. }
      destruct (String.eqb (fn (f nop)) "prng_value" && _ && _) eqn:Ev.
      * apply scan_test in Ev.
        specialize (IH (S j) sout0 (output nop) pos0 (NatSet.insert j computed0)).
        destruct (prng_scan _ _ _ _ _ _ _) as [[[sout vout] pos] comp].
        destruct IH as [IHs [IHv [IHc IHm]]].
        split; [|split; [|split]].
        -- destruct IHs as [[-> [-> Hno]] | [k [n [Hk [Hn [-> ->]]]]]].
           ++ left. repeat split; auto. intros [n [[<- | Hin] Hs]]; [contradiction|].
              apply Hno. exists n. auto.
           ++ right. exists (S k), n. simpl. repeat split; auto; try apply Hn; try lia.
        -- right. destruct IHv as [[-> _] | [k [n [Hk [Hn ->]]]]].
           ++ exists 0%nat, nop. simpl. repeat split; auto; apply Ev.
           ++ exists (S k), n. simpl. auto.
        -- intros x Hx. apply IHc, NatSet_insert_In. auto.
        -- intros [|k] n Hk Hn; simpl in Hk.
           ++ rewrite Nat.add_0_r. apply IHc, NatSet_insert_In. auto.
           ++ replace (j + S k)%nat with (S j + k)%nat by lia. apply (IHm k n Hk Hn).
      * assert (Hnv : ~ value_of tup nop).
        { intros H. apply scan_test in H. rewrite H in Ev. discriminate. }
        specialize (IH (S j) sout0 vout0 pos0 computed0).
        destruct (prng_scan _ _ _ _ _ _ _) as [[[sout vout] pos] comp].
        destruct IH as [IHs [IHv [IHc IHm]]].
        split; [|split; [|split]].
        -- destruct IHs as [[-> [-> Hno]] | [k [n [Hk [Hn [-> ->]]]]]].
           ++ left. repeat split; auto. intros [n [[<- | Hin] Hs]]; [contradiction|].
              apply Hno. exists n. auto.
           ++ right. exists (S k), n. simpl. repeat split; auto; try apply Hn; try lia.
        -- destruct IHv as [[-> Hno] | [k [n [Hk [Hn ->]]]]].
           ++ left. split; [reflexivity|]. intros [n [[<- | Hin] Hv]]; [contradiction|].
              apply Hno. exists n. auto.
           ++ right. exists (S k), n. simpl. auto.
        -- exact IHc.
        -- intros [|k] n Hk Hn; simpl in Hk.
           ++ injection Hk as <-. destruct Hn; contradiction.
           ++ replace (j + S k)%nat with (S j + k)%nat by lia. apply (IHm k n Hk Hn).
Qed.

Variable is_special : Function -> bool.
Variable byte_width : DataType -> Z.
Variable Polynomial : Type.
Variable poly_zero : Polynomial.
Variable poly_add : Polynomial -> Polynomial -> Polynomial.
Variable poly_scale : Polynomial -> Z -> Polynomial.
Variable poly_floor_coeff : Polynomial -> string -> Z.
Variable poly_var : string -> Polynomial.
Variable CompileContraction :
  Contraction -> list TensorShape -> M (FlatContraction * list Polynomial).
Variable Vectorize : FlatContraction -> Z -> FlatContraction.
Variable TileOptimize : FlatContraction -> bool -> Bindings -> list Tile.
Variable vec_size : Z.

Variable vars : Bindings.
Variable ud : UseDef.
Variable inputs_map : ShapeMap.
Variable outputs_map : ShapeMap.
Variable kid : string.
Variable tile_trials : nat.

Let step :=
  compile_op is_special byte_width Polynomial poly_zero poly_add poly_scale
    poly_floor_coeff poly_var CompileContraction Vectorize TileOptimize vec_size
    vars ud inputs_map outputs_map kid tile_trials.

Lemma special_round (st : CompileState) (i : nat) :
  tag (op_at (st_prog st) i) = FUNCTION ->
  NatSet.mem i (st_computed st) = false ->
  is_special (f (op_at (st_prog st) i)) = true ->
  step st i = compile_special kid st i.
Proof.
  intros Htag Hcomp Hspec. unfold step, compile_op. now rewrite Htag, Hcomp, Hspec.
Qed.

Lemma output_nonempty (nop : Op) : output nop <> "" -> String.eqb (output nop) "" = false.
Proof. apply String.eqb_neq. Qed.

(** X28. A [prng_step] op with a [prng_state] and a [prng_value]
    companion later in the program becomes one special kernel: the step
    op with the outputs of a state companion and of a value companion
    appended to its parameters, under the next kernel name; the program is
    left as it is, and every companion is marked computed, so that the
    loop passes over it. *)
Theorem prng_group_kernel (st : CompileState) (i : nat) :
  let op := op_at (st_prog st) i in
  let later := skipn (S i) (ops (st_prog st)) in
  tag op = FUNCTION ->
  NatSet.mem i (st_computed st) = false ->
  is_special (f op) = true ->
  fn (f op) = "prng_step" ->
  (forall nop, In nop (ops (st_prog st)) -> output nop <> "") ->
  (exists nop, In nop later /\ state_of (output op) nop) ->
  (exists nop, In nop later /\ value_of (output op) nop) ->
  exists sop vop computed',
    In sop later /\ state_of (output op) sop
    /\ In vop later /\ value_of (output op) vop
    /\ step st i
       = Ok (mkState (st_prog st)
               (st_kernels st ++
                [SpecialKernel
                   (mkOp (tag op) (output op) (inputs op) (c op)
                         (mkFunction "prng_step"
                            (params (f op) ++ [output sop; output vop])))
                   (kname_for kid (st_knum st))])
               (st_var_rewrites st) computed' (S (st_knum st)))
    /\ (forall x, In x (st_computed st) -> In x computed')
    /\ (forall j nop, (i < j)%nat -> nth_error (ops (st_prog st)) j = Some nop ->
          state_of (output op) nop \/ value_of (output op) nop -> In j computed').
Proof.
  intros op later Htag Hcomp Hspec Hfn Hne Hstate Hvalue.
  rewrite (special_round st i Htag Hcomp Hspec). unfold compile_special.
  fold op. rewrite Hfn. simpl. fold later.
  pose proof (prng_scan_outputs (output op) later (S i) "" "" 0%nat (st_computed st))
    as Hscan.
  destruct (prng_scan _ _ _ _ _ _ _) as [[[sout vout] pos] comp].
  destruct Hscan as [Hs [Hv [Hc Hm]]].
  destruct Hs as [[_ [_ Hno]] | [ks [sop [Hks [Hsop [-> ->]]]]]]; [contradiction|].
  destruct Hv as [[_ Hno] | [kv [vop [Hkv [Hvop ->]]]]]; [contradiction|].
  assert (Hsin : In sop later) by (eapply nth_error_In; exact Hks).
  assert (Hvin : In vop later) by (eapply nth_error_In; exact Hkv).
  rewrite (output_nonempty vop), (output_nonempty sop);
    [| apply Hne, (In_skipn _ _ _ Hsin) | apply Hne, (In_skipn _ _ _ Hvin)].
  simpl. exists sop, vop, comp.
  repeat split; auto; try apply Hsop; try apply Hvop.
  intros j nop Hj Hnth Hcompanion.
  replace j with (S i + (j - S i))%nat by lia.
  apply (Hm (j - S i)%nat nop); [|exact Hcompanion].
  unfold later. rewrite nth_error_skipn.
  replace (S i + (j - S i))%nat with j by lia. exact Hnth.
Qed.

(** X29. A [prng_step] op whose tuple only [prng_state] ops consume
    emits no kernel and draws no kernel name: a state companion is
    rewritten in place into an [ident] of the first input of the step op,
    with its tag, output and parameters kept, and every other op of the
    program stays as it is. *)
Theorem prng_state_only (st : CompileState) (i : nat) :
  let op := op_at (st_prog st) i in
  let later := skipn (S i) (ops (st_prog st)) in
  tag op = FUNCTION ->
  NatSet.mem i (st_computed st) = false ->
  is_special (f op) = true ->
  fn (f op) = "prng_step" ->
  (forall nop, In nop (ops (st_prog st)) -> output nop <> "") ->
  (exists nop, In nop later /\ state_of (output op) nop) ->
  ~ (exists nop, In nop later /\ value_of (output op) nop) ->
  exists pos sop st',
    (i < pos)%nat
    /\ nth_error (ops (st_prog st)) pos = Some sop
    /\ state_of (output op) sop
    /\ step st i = Ok st'
    /\ st_kernels st' = st_kernels st
    /\ st_knum st' = st_knum st
    /\ st_var_rewrites st' = st_var_rewrites st
    /\ op_at (st_prog st') pos
       = mkOp (tag sop) (output sop) [nth 0 (inputs op) ""] (c sop)
              (mkFunction "ident" (params (f sop)))
    /\ forall j, j <> pos -> op_at (st_prog st') j = op_at (st_prog st) j.
Proof.
  intros op later Htag Hcomp Hspec Hfn Hne Hstate Hnovalue.
  rewrite (special_round st i Htag Hcomp Hspec). unfold compile_special.
  fold op. rewrite Hfn. simpl. fold later.
  pose proof (prng_scan_outputs (output op) later (S i) "" "" 0%nat (st_computed st))
    as Hscan.
  destruct (prng_scan _ _ _ _ _ _ _) as [[[sout vout] pos] comp].
  destruct Hscan as [Hs [Hv _]].
  destruct Hs as [[_ [_ Hno]] | [ks [sop [Hks [Hsop [-> ->]]]]]]; [contradiction|].
  destruct Hv as [[-> _] | [kv [vop [Hkv [Hvop _]]]]].
  2:{ exfalso. apply Hnovalue. exists vop. split; [|exact Hvop].
      eapply nth_error_In; exact Hkv. }
  assert (Hsin : In sop later) by (eapply nth_error_In; exact Hks).
  rewrite (output_nonempty sop) by (apply Hne, (In_skipn _ _ _ Hsin)).
  assert (Hnth : nth_error (ops (st_prog st)) (S i + ks) = Some sop).
  { unfold later in Hks. rewrite nth_error_skipn in Hks. exact Hks. }
  assert (Hpos : (i < S i + ks)%nat) by lia.
  revert Hnth Hpos. generalize (S i + ks)%nat. intros pos Hnth Hpos.
  simpl.
  assert (Hlt : (pos < length (ops (st_prog st)))%nat).
  { apply nth_error_Some. rewrite Hnth. discriminate. }
  assert (Hat : op_at (st_prog st) pos = sop).
  { unfold op_at. apply nth_error_nth. exact Hnth. }
  exists pos, sop. eexists.
  split; [exact Hpos|]. split; [exact Hnth|]. split; [exact Hsop|].
  split; [reflexivity|]. simpl.
  split; [reflexivity|]. split; [reflexivity|]. split; [reflexivity|].
  split.
  - unfold op_at at 1. cbn [st_prog ops]. rewrite nth_set_nth_same by exact Hlt.
    rewrite Hat. unfold to_ident. destruct Hsop as [_ ->]. reflexivity.
  - intros j Hj. unfold op_at at 1. cbn [st_prog ops].
    apply nth_set_nth_other. exact Hj.
Qed.

End PrngCover.

(* ================================================================= *)
(** ** The additional properties at concrete inputs *)

Section CoverConcrete.
Import Zero Simplify Address.

Lemma wf_flat_reduce : wf_flat MoreExamples.flat_reduce.
Proof. wf_flat_tac. Qed.

Lemma wf_lengths_copy : wf_lengths Examples.flat_copy.
Proof.
  unfold wf_lengths. simpl. repeat split; repeat constructor.
Qed.

Lemma simplify_all_keeps_witness :
  fst (SimplifyFlat (simplify_all Examples.flat_copy)) = false
  /\ wf_lengths (simplify_all Examples.flat_copy)
  /\ same_frame Examples.flat_copy (simplify_all Examples.flat_copy)
  /\ (length (names (simplify_all Examples.flat_copy))
      <= length (names Examples.flat_copy))%nat.
Proof.
  exact (simplify_all_keeps Examples.flat_copy wf_lengths_copy).
Defined.

Lemma copy_strides_fit (k : nat) :
  in_i64 (range_at Examples.flat_copy k * stride0 Examples.flat_copy k).
Proof.
  unfold in_i64, range_at, stride0, access0.
  destruct k as [|[|[|k]]]; simpl; lia.
Qed.

Lemma copy_ranges_fit (a b : nat) :
  in_u64 (range_at Examples.flat_copy a * range_at Examples.flat_copy b).
Proof.
  assert (H : forall k, 0 <= range_at Examples.flat_copy k <= 4).
  { unfold range_at. intros [|[|[|k]]]; simpl; lia. }
  pose proof (H a). pose proof (H b). unfold in_u64. nia.
Qed.

Lemma SimplifyFlat_keeps_addresses_witness :
  exists i j,
    Examples.plain_flat ["i_j"] [16]
      [Examples.out_access [1] 16; Examples.out_access [1] 16] []
    = combine_indexes Examples.flat_copy i j
    /\ forall v, in_ranges Examples.flat_copy v ->
         (forall k,
            address (nth k [Examples.out_access [1] 16; Examples.out_access [1] 16]
                         default_access)
                    (merge_index Examples.flat_copy i j v)
            = address (nth k (access Examples.flat_copy) default_access) v)
         /\ (forall k name a,
               nth_error (post_op_inputs Examples.flat_copy) k = Some (name, a) ->
               exists a',
                 nth_error (@nil (string * FlatTensorAccess)) k = Some (name, a')
                 /\ address a' (merge_index Examples.flat_copy i j v) = address a v).
Proof.
  exact (SimplifyFlat_keeps_addresses Examples.flat_copy _ wf_flat_copy
           (Forall_nil _) copy_strides_fit SimplifyFlat_copy).
Defined.

Lemma SimplifyFlat_keeps_ranges_witness :
  exists i j,
    Examples.plain_flat ["i_j"] [16]
      [Examples.out_access [1] 16; Examples.out_access [1] 16] []
    = combine_indexes Examples.flat_copy i j
    /\ forall v, in_ranges Examples.flat_copy v ->
         in_ranges (Examples.plain_flat ["i_j"] [16]
                      [Examples.out_access [1] 16; Examples.out_access [1] 16] [])
                   (merge_index Examples.flat_copy i j v).
Proof.
  exact (SimplifyFlat_keeps_ranges Examples.flat_copy _ wf_flat_copy
           copy_ranges_fit SimplifyFlat_copy).
Defined.

Lemma NeedsZero_offset_or_negative_witness :
  NeedsZero MoreExamples.flat_reversed Examples.no_shape = true.
Proof.
  apply NeedsZero_offset_or_negative. right. exists 0%nat. split; [simpl; lia | reflexivity].
Defined.

Lemma reduce_fits : prod_ranges (nonzero_pairs MoreExamples.flat_reduce) < 2 ^ 64.
Proof. vm_compute. reflexivity. Qed.

Lemma NeedsZero_false_in_bounds_witness :
  global_index_limit (access0 MoreExamples.flat_reduce)
  = prod_ranges (nonzero_pairs MoreExamples.flat_reduce)
  /\ forall v, in_ranges MoreExamples.flat_reduce v ->
       0 <= address (access0 MoreExamples.flat_reduce) v
         < global_index_limit (access0 MoreExamples.flat_reduce).
Proof.
  exact (NeedsZero_false_in_bounds MoreExamples.flat_reduce Examples.no_shape
           wf_flat_reduce reduce_fits eq_refl).
Defined.

Lemma NeedsZero_false_covers_witness :
  in_ranges MoreExamples.flat_reduce (decode MoreExamples.flat_reduce 3)
  /\ address (access0 MoreExamples.flat_reduce) (decode MoreExamples.flat_reduce 3) = 3.
Proof.
  apply (NeedsZero_false_covers MoreExamples.flat_reduce Examples.no_shape 3
           wf_flat_reduce eq_refl reduce_fits eq_refl).
  unfold access0. simpl. lia.
Defined.

(** With a constraint the same test does not give coverage: for
    [flat_tri], [NeedsZero] answers false, and no index vector within the
    ranges that satisfies the constraint writes address 15. *)
Example NeedsZero_false_constrained_gap :
  NeedsZero MoreExamples.flat_tri Examples.no_shape = false
  /\ forall v, in_ranges MoreExamples.flat_tri v ->
       Forall (fun fc => holds fc v) (constraints MoreExamples.flat_tri) ->
       address (access0 MoreExamples.flat_tri) v <> 15.
Proof.
  split; [vm_compute; reflexivity|].
  intros v [Hlen Hv] Hc.
  destruct v as [|x [|y [|z [|w t]]]]; try discriminate Hlen.
  pose proof (Hv 0%nat ltac:(simpl; lia)) as H0.
  pose proof (Hv 1%nat ltac:(simpl; lia)) as H1.
  pose proof (Hv 2%nat ltac:(simpl; lia)) as H2.
  inversion Hc as [|? ? Hfc _]; subst.
  unfold holds, range_at, address, access0 in *.
  cbn -[Z.mul Z.add] in *. lia.
Qed.

Lemma in_ranges_reduce (x y : Z) :
  0 <= x < 4 -> 0 <= y < 4 -> in_ranges MoreExamples.flat_reduce [x; y].
Proof.
  intros Hx Hy. split; [reflexivity|].
  unfold range_at. intros [|[|k]] Hk; simpl in *; lia.
Qed.

Lemma NeedsZero_false_injective_witness :
  address (access0 MoreExamples.flat_reduce) [2; 1]
  = address (access0 MoreExamples.flat_reduce) [2; 3]
  /\ nth 0 [2; 1] 0 = nth 0 [2; 3] 0.
Proof.
  split; [reflexivity|].
  apply (NeedsZero_false_injective MoreExamples.flat_reduce Examples.no_shape
           [2; 1] [2; 3] wf_flat_reduce reduce_fits eq_refl).
  - apply in_ranges_reduce; lia.
  - apply in_ranges_reduce; lia.
  - reflexivity.
  - discriminate.
Defined.

End CoverConcrete.

Section PlannerCoverConcrete.
Import Planner Examples.

Lemma ConnectedComponents_members_witness :
  In 0%nat [0; 2]%nat
  /\ forall u, In u [0; 2]%nat -> u <> 0%nat ->
       OpCanBeUnified is_special_std prog_two_roots vars_two_roots 0 u = Ok true
       /\ ~ In u [].
Proof.
  exact (ConnectedComponents_members is_special_std prog_two_roots vars_two_roots 0 []
           (mk_usedef prog_two_roots) [0; 2]%nat components_first_root).
Defined.

Lemma ConnectedComponents_connected_witness :
  (exists w cs, In w [0; 2]%nat
     /\ find (output (op_at prog_two_roots w)) (uses (mk_usedef prog_two_roots)) = Some cs
     /\ In 2%nat cs)
  \/ (exists c input, In c [0; 2]%nat /\ In input (inputs (op_at prog_two_roots c))
         /\ find input (op_defs (mk_usedef prog_two_roots)) = Some 2%nat).
Proof.
  apply (ConnectedComponents_connected is_special_std prog_two_roots vars_two_roots 0 []
           (mk_usedef prog_two_roots) [0; 2]%nat components_first_root 2%nat).
  - simpl. auto.
  - discriminate.
Defined.

Lemma ConnectedComponents_uses_witness :
  exists cs,
    find (output (op_at prog_two_roots 2)) (uses (mk_usedef prog_two_roots)) = Some cs.
Proof.
  apply (ConnectedComponents_uses is_special_std prog_two_roots vars_two_roots 0 []
           (mk_usedef prog_two_roots) [0; 2]%nat components_first_root 2%nat).
  simpl. auto.
Defined.

(** Nothing reads the output [e] of op 4 of [prog_two_roots]. *)
Example components_unused_root :
  components_with vars_two_roots prog_two_roots 4 [] = Err out_of_range.
Proof. vm_compute. reflexivity. Qed.

Lemma ConnectedComponents_failure_witness :
  components_with vars_two_roots prog_two_roots 4 [] = Err out_of_range
  /\ out_of_range = out_of_range.
Proof.
  split; [exact components_unused_root|].
  exact (ConnectedComponents_failure is_special_std prog_two_roots vars_two_roots 4 []
           (mk_usedef prog_two_roots) out_of_range components_unused_root).
Defined.

Lemma ConnectedComponents_root_unused_witness :
  ConnectedComponents is_special_std prog_two_roots vars_two_roots 4 [0; 2]%nat
                      (mk_usedef prog_two_roots)
  = Err out_of_range.
Proof.
  apply ConnectedComponents_root_unused. vm_compute. reflexivity.
Defined.

End PlannerCoverConcrete.

Section UnifyCoverConcrete.
Import Unify Fused Examples MoreExamples.

Example unify_two_roots_result :
  unify_two_roots = Ok (flat_a', [0; 2]%nat, [], ["x"]).
Proof. vm_compute. reflexivity. Qed.

Lemma DoUnification_post_ops_witness :
  (names flat_a' = names flat_a /\ ranges flat_a' = ranges flat_a
   /\ access flat_a' = access flat_a
   /\ constraints flat_a' = constraints flat_a /\ agg_vec flat_a' = agg_vec flat_a
   /\ generate_contraction flat_a' = generate_contraction flat_a
   /\ flat_output flat_a' = flat_output flat_a)
  /\ exists U added,
       components_two_roots = Ok U
       /\ post_ops flat_a' = post_ops flat_a ++ added
       /\ (forall op, In op added -> exists u, In u U /\ fused_from prog_two_roots u op)
       /\ (forall u, In u U -> tag (op_at prog_two_roots u) = FUNCTION ->
              is_reshape_or_ident (op_at prog_two_roots u) = false ->
              exists op, In op added /\ fused_from prog_two_roots u op).
Proof.
  exact (DoUnification_post_ops _ _ _ _ _ _ _ _ _ _ _ _ _ _ _ _ _ _ _ _ _ _
           unify_two_roots_result).
Defined.

Lemma DoUnification_reads_witness :
  exists U,
    components_two_roots = Ok U
    /\ forall op, In op (post_ops flat_a') -> ~ In op (post_ops flat_a) ->
       forall x, In x (inputs op) ->
         exists b, find x vars_two_roots = Some b
           /\ (btag b = TENSOR ->
               defined_inside (mk_usedef prog_two_roots) U x
               \/ (In x ["x"] /\ count (post_op_inputs flat_a') x = true)).
Proof.
  exact (DoUnification_reads _ _ _ _ _ _ _ _ _ _ _ _ _ _ _ _ _ _ _ _ _ _
           unify_two_roots_result).
Defined.

Lemma DoUnification_post_op_inputs_witness :
  exists U,
    components_two_roots = Ok U
    /\ (forall k, count (post_op_inputs flat_a) k = true ->
                  count (post_op_inputs flat_a') k = true)
    /\ forall k a, find k (post_op_inputs flat_a') = Some a ->
         find k (post_op_inputs flat_a) = Some a
         \/ (outer_tensor (mk_usedef prog_two_roots) vars_two_roots U k
             /\ In k ["x"]
             /\ offset a = 0
             /\ length (strides a) = length (names flat_a')
             /\ exists b, find k vars_two_roots = Some b
                          /\ global_index_limit a = elem_size (shape b)).
Proof.
  exact (DoUnification_post_op_inputs _ _ _ _ _ _ _ _ _ _ _ _ _ _ _ _ _ _ _ _ _ _
           unify_two_roots_result).
Defined.

Lemma DoUnification_war_safe_reads_witness :
  exists U,
    components_two_roots = Ok U
    /\ (forall x, In x [] -> In x ["x"])
    /\ forall x, In x ["x"] ->
         In x []
         \/ (outer_tensor (mk_usedef prog_two_roots) vars_two_roots U x
             /\ count (post_op_inputs flat_a') x = true).
Proof.
  exact (DoUnification_war_safe_reads _ _ _ _ _ _ _ _ _ _ _ _ _ _ _ _ _ _ _ _ _ _
           unify_two_roots_result).
Defined.

Lemma DoUnification_computed_witness :
  In 0%nat [0; 2]%nat
  /\ (forall i, In i [] -> In i [0; 2]%nat)
  /\ forall i, In i [0; 2]%nat ->
       In i [] \/ i = 0%nat
       \/ Planner.OpCanBeUnified is_special_std prog_two_roots vars_two_roots 0 i
          = Ok true.
Proof.
  exact (DoUnification_computed _ _ _ _ _ _ _ _ _ _ _ _ _ _ _ _ _ _ _ _ _ _
           unify_two_roots_result).
Defined.

Lemma DoUnification_kernel_outputs_witness :
  exists U added,
    components_two_roots = Ok U
    /\ kernel_outputs flat_a' = kernel_outputs flat_a ++ added
    /\ forall name, In name added <->
         exists u, In u U
                   /\ name = VarRewrites.Lookup [] (output (op_at prog_two_roots u))
                   /\ ~ In name (inputs (op_at prog_two_roots 0))
                   /\ read_outside prog_two_roots (mk_usedef prog_two_roots) U
                                   outs_two_roots u.
Proof.
  exact (DoUnification_kernel_outputs _ _ _ _ _ _ _ _ _ _ _ _ _ _ _ _ _ _ _ _ _ _
           unify_two_roots_result).
Defined.

End UnifyCoverConcrete.

Section DriverCoverConcrete.
Import Driver Naming Examples MoreExamples.

Lemma ContractionWrap_failure_witness :
  ContractionWrap no_vectorize unit_tile 1 [] (Some contraction_strided) flat_strided
                  "k" vars_strided 1 [] [] = Err (runtime_error msg_arity)
  <-> (generate_contraction flat_strided = true \/ post_ops flat_strided <> [])
      /\ length (specs contraction_strided) <> 2%nat
      /\ length (specs contraction_strided) <> 3%nat
      /\ length (specs contraction_strided) <> 4%nat
      /\ runtime_error msg_arity = runtime_error msg_arity.
Proof.
  exact (ContractionWrap_failure vars_strided no_vectorize unit_tile 1 []
           contraction_strided flat_strided "k" 1 [] []
           [shape (tensor [8]); shape (tensor [4])] (runtime_error msg_arity) eq_refl).
Defined.

Lemma compile_loop_frame_witness :
  exists st',
    run_with vars_elided prog_elided ins_elided outs_elided "kernel_my_prog"
             (initial prog_elided) [0; 1]%nat = Ok st'
    /\ (exists added,
          st_kernels st' = st_kernels (initial prog_elided) ++ added
          /\ (length added <= 2 * length [0; 1]%nat)%nat)
    /\ (st_knum (initial prog_elided) <= st_knum st'
        <= st_knum (initial prog_elided) + length [0; 1]%nat)%nat
    /\ length (ops (st_prog st')) = length (ops (st_prog (initial prog_elided)))
    /\ forall j,
         tag (op_at (st_prog st') j) = tag (op_at (st_prog (initial prog_elided)) j)
         /\ output (op_at (st_prog st') j)
            = output (op_at (st_prog (initial prog_elided)) j)
         /\ c (op_at (st_prog st') j) = c (op_at (st_prog (initial prog_elided)) j)
         /\ length (inputs (op_at (st_prog st') j))
            = length (inputs (op_at (st_prog (initial prog_elided)) j))
         /\ (op_at (st_prog st') j = op_at (st_prog (initial prog_elided)) j
             \/ fn (f (op_at (st_prog st') j)) = "ident").
Proof.
  eexists. split; [vm_compute; reflexivity|].
  apply (compile_loop_frame is_special_std byte_width_std Poly poly_zero poly_add
           poly_scale poly_floor_coeff poly_var compile_strided no_vectorize unit_tile 1
           ins_elided outs_elided "kernel_my_prog" 1%nat vars_elided
           (mk_usedef prog_elided) (initial prog_elided) _ [0; 1]%nat).
  vm_compute. reflexivity.
Defined.

Lemma Compile_kernel_count_witness :
  exists prog vars,
    bind_with vars_elided prog_elided ins_elided outs_elided = Ok (prog, vars)
    /\ (length (kernels result_elided) <= 2 * length (ops prog))%nat.
Proof.
  apply (Compile_kernel_count is_special_std byte_width_std Poly poly_zero poly_add
           poly_scale poly_floor_coeff poly_var compile_strided no_vectorize unit_tile 1
           (bind_with vars_elided) ins_elided outs_elided "kernel_my_prog" 1%nat
           prog_elided result_elided).
  vm_compute. reflexivity.
Defined.

Lemma prng_group_outputs (nop : Op) :
  In nop (ops prog_prng_group) -> output nop <> "".
Proof. simpl. intros [H | [H | [H | []]]]; subst nop; discriminate. Qed.

Lemma prng_group_kernel_witness :
  exists sop vop computed',
    In sop (skipn 1 (ops prog_prng_group)) /\ state_of "t" sop
    /\ In vop (skipn 1 (ops prog_prng_group)) /\ value_of "t" vop
    /\ step_with vars_prng prog_prng_group [] [] "k" (initial prog_prng_group) 0
       = Ok (mkState prog_prng_group
               [SpecialKernel
                  (mkOp FUNCTION "t" ["s"] (mkContraction [] "")
                        (mkFunction "prng_step" [output sop; output vop]))
                  "k_0"]
               [] computed' 1%nat)
    /\ (forall x, In x [] -> In x computed')
    /\ (forall j nop, (0 < j)%nat -> nth_error (ops prog_prng_group) j = Some nop ->
          state_of "t" nop \/ value_of "t" nop -> In j computed').
Proof.
  refine (prng_group_kernel is_special_std byte_width_std Poly poly_zero poly_add
            poly_scale poly_floor_coeff poly_var compile_strided no_vectorize unit_tile 1
            vars_prng (mk_usedef prog_prng_group) [] [] "k" 1%nat
            (initial prog_prng_group) 0%nat eq_refl eq_refl eq_refl eq_refl
            prng_group_outputs _ _).
  - exists (fun_op "prng_state" "s2" ["t"]). split; [simpl; auto | split; reflexivity].
  - exists (fun_op "prng_value" "v" ["t"]). split; [simpl; auto | split; reflexivity].
Defined.

Lemma prng_state_outputs (nop : Op) :
  In nop (ops prog_prng_state) -> output nop <> "".
Proof. simpl. intros [H | [H | []]]; subst nop; discriminate. Qed.

Lemma prng_state_only_witness :
  exists pos sop st',
    (0 < pos)%nat
    /\ nth_error (ops prog_prng_state) pos = Some sop
    /\ state_of "t" sop
    /\ step_with vars_prng prog_prng_state [] [] "k" (initial prog_prng_state) 0
       = Ok st'
    /\ st_kernels st' = []
    /\ st_knum st' = 0%nat
    /\ st_var_rewrites st' = []
    /\ op_at (st_prog st') pos
       = mkOp (tag sop) (output sop) ["s"] (c sop)
              (mkFunction "ident" (params (f sop)))
    /\ forall j, j <> pos -> op_at (st_prog st') j = op_at prog_prng_state j.
Proof.
  refine (prng_state_only is_special_std byte_width_std Poly poly_zero poly_add
            poly_scale poly_floor_coeff poly_var compile_strided no_vectorize unit_tile 1
            vars_prng (mk_usedef prog_prng_state) [] [] "k" 1%nat
            (initial prog_prng_state) 0%nat eq_refl eq_refl eq_refl eq_refl
            prng_state_outputs _ _).
  - exists (fun_op "prng_state" "s2" ["t"]). split; [simpl; auto | split; reflexivity].
  - simpl. intros [nop [[H | []] [Hf _]]]. subst nop. discriminate Hf.
Defined.

End DriverCoverConcrete.
